(** * Disruption pipeline of karpenter: candidates, commands, drift.

    A shallow embedding of the Go sources
      pkg/controllers/disruption/types.go
      pkg/controllers/disruption/drift.go
      pkg/controllers/disruption/consolidation_info.go
      pkg/controllers/provisioning (annotateNodeClaimWithNominatedPods)
      pkg/controllers/nodeclaim/lifecycle/indeed_events.go
    and the properties of these functions. *)

From Stdlib Require Import ZArith List String Ascii Bool Lia Permutation Sorted.
From Stdlib Require Import DecimalString SpecFloat.
From stdpp Require Import base option list gmap strings fin_maps.

Open Scope string_scope.
Open Scope Z_scope.
Open Scope list_scope.

(** ** Go base types and the library functions the sources call *)

Module Go.

(** Go's [int] on the 64-bit platforms the controller runs on: a
    two's-complement 64-bit integer, kept as a [Z] with the wrap-around of
    arithmetic written out. *)
Definition MinInt : Z := - 2 ^ 63.
Definition MaxInt : Z := 2 ^ 63 - 1.

Definition is_int (z : Z) : Prop := MinInt <= z <= MaxInt.

Definition wrap (z : Z) : Z := (z + 2 ^ 63) mod 2 ^ 64 - 2 ^ 63.

(** [x--] on an [int]. *)
Definition dec (z : Z) : Z := wrap (z - 1).

(** [float64]: IEEE 754 binary64, as the Standard Library specifies it. *)
Definition float64 : Type := spec_float.
Definition prec : Z := 53.
Definition emax : Z := 1024.
Definition fmul (x y : float64) : float64 := SFmul prec emax x y.

(** Go's [error] values, as far as the sources tell them apart: plain
    errors, the sentinel [errCandidateDeleting] (compared by identity),
    the [state.PodBlockEvictionError] wrapper, and [fmt.Errorf] with [%w].
    A nil [error] is [None]. *)
Inductive error :=
| errorString (msg : string)
| errCandidateDeleting
| PodBlockEvictionError (inner : error)
| wrapError (msg : string) (inner : error).

(** [err.Error()] *)
Fixpoint Error (e : error) : string :=
  match e with
  | errorString msg => msg
  | errCandidateDeleting => "candidate is deleting"
  | PodBlockEvictionError inner => Error inner
  | wrapError msg _ => msg
  end.

(** [errors.Is(err, errCandidateDeleting)]: the sentinel occurs on the
    unwrap chain. *)
Fixpoint Is_errCandidateDeleting (e : error) : bool :=
  match e with
  | errorString _ => false
  | errCandidateDeleting => true
  | PodBlockEvictionError inner => Is_errCandidateDeleting inner
  | wrapError _ inner => Is_errCandidateDeleting inner
  end.

(** *** strings *)

(** [len(s)]: strings are byte sequences. *)
Definition len (s : string) : nat := String.length s.

(** [s[:n]] for [n <= len(s)]. *)
Fixpoint slice_to (n : nat) (s : string) : string :=
  match n, s with
  | O, _ => ""
  | S n', String c s' => String c (slice_to n' s')
  | S _, EmptyString => ""
  end.

(** [strings.Split(s, sep)] for a one-byte separator: the pieces between
    the separators, one more than there are separators. *)
Fixpoint Split (sep : ascii) (s : string) : list string :=
  match s with
  | EmptyString => [""]
  | String c s' =>
      if Ascii.eqb c sep then "" :: Split sep s'
      else match Split sep s' with
           | piece :: pieces => String c piece :: pieces
           | [] => [String c ""]
           end
  end.

(** [strings.Join(elems, sep)] *)
Definition Join (elems : list string) (sep : string) : string :=
  String.concat sep elems.

(** *** fmt: the verb [%.3f] *)

Definition decimal (n : N) : string := NilZero.string_of_uint (N.to_uint n).

Definition pad3 (n : N) : string :=
  ((if (n <? 10)%N then "00" else if (n <? 100)%N then "0" else "") ++ decimal n)%string.

(** Thousandths printed with three decimals. *)
Definition fixed3 (thousandths : N) : string :=
  (decimal (thousandths / 1000)%N ++ "." ++ pad3 (thousandths mod 1000)%N)%string.

(** [num / den] rounded to the nearest integer, ties to even, which is how
    strconv rounds the exact decimal expansion of a float. *)
Definition round_half_even (num den : N) : N :=
  let q := (num / den)%N in
  let r := (num mod den)%N in
  match (2 * r ?= den)%N with
  | Lt => q
  | Gt => (q + 1)%N
  | Eq => if N.even q then q else (q + 1)%N
  end.

Definition sign_prefix (s : bool) : string := if s then "-" else "".

(** [fmt.Sprintf("%.3f", x)] *)
Definition Sprintf_3f (x : float64) : string :=
  match x with
  | S754_nan => "NaN"
  | S754_infinity false => "+Inf"
  | S754_infinity true => "-Inf"
  | S754_zero s => (sign_prefix s ++ "0.000")%string
  | S754_finite s m e =>
      (sign_prefix s ++
       fixed3 (match e with
               | Z0 => Npos m * 1000
               | Zpos p => Npos m * 2 ^ Npos p * 1000
               | Zneg p => round_half_even (Npos m * 1000) (2 ^ Npos p)
               end)%N)%string
  end.

(** The float64 literal [0.042]: the binary64 value nearest to 42/1000. *)
Definition f0_042 : float64 := S754_finite false 6052837899185947 (-57).

(** Whether the byte occurs in the string. *)
Fixpoint has_byte (c : ascii) (s : string) : bool :=
  match s with
  | EmptyString => false
  | String c' s' => Ascii.eqb c' c || has_byte c s'
  end.

End Go.

(** ** package sort: [sort.Slice]

    The pattern-defeating quicksort of Go's package sort (zsortfunc.go), on
    a list with the index operations of a slice. *)

Module Sort.

Local Open Scope nat_scope.

Section Pdqsort.
Context {A : Type} (less : A -> A -> bool).

(** [data.Less(i, j)] and [data.Swap(i, j)] on the slice being sorted. An
    index out of range, on which Go panics, does not occur in the calls
    below. *)
Definition Less (data : list A) (i j : nat) : bool :=
  match data !! i, data !! j with
  | Some x, Some y => less x y
  | _, _ => false
  end.

Definition Swap (data : list A) (i j : nat) : list A :=
  match data !! i, data !! j with
  | Some x, Some y => <[j := x]> (<[i := y]> data)
  | _, _ => data
  end.

(** [insertionSort_func]: the inner loop moves [data[j]] left while it is
    less than its left neighbour. *)
Fixpoint shiftLeft (data : list A) (a j : nat) {struct j} : list A :=
  match j with
  | O => data
  | S j' =>
      if (a <? j) && Less data j j' then shiftLeft (Swap data j j') a j' else data
  end.

Definition insertionSort_func (data : list A) (a b : nat) : list A :=
  fold_left (fun data i => shiftLeft data a i) (seq (a + 1) (b - (a + 1))) data.

(** [siftDown_func] and [heapSort_func] *)
Fixpoint siftDown (fuel : nat) (data : list A) (root hi first : nat) : list A :=
  match fuel with
  | O => data
  | S fuel =>
      let child := 2 * root + 1 in
      if hi <=? child then data
      else
        let child :=
          if (child + 1 <? hi) && Less data (first + child) (first + child + 1)
          then child + 1 else child in
        if negb (Less data (first + root) (first + child)) then data
        else siftDown fuel (Swap data (first + root) (first + child)) child hi first
  end.

Definition siftDown_func (data : list A) (lo hi first : nat) : list A :=
  siftDown hi data lo hi first.

Definition heapSort_func (data : list A) (a b : nat) : list A :=
  let first := a in
  let lo := 0 in
  let hi := b - a in
  let data := fold_left (fun data i => siftDown_func data i hi first)
                        (rev (seq 0 ((hi - 1) / 2 + 1))) data in
  fold_left (fun data i => siftDown_func (Swap data first (first + i)) lo i first)
            (rev (seq 0 hi)) data.

Inductive sortedHint := unknownHint | increasingHint | decreasingHint.

(** [choosePivot_func] and its helpers; [swaps] counts the inversions
    seen. *)
Definition order2_func (data : list A) (a b swaps : nat) : nat * nat * nat :=
  if Less data b a then (b, a, swaps + 1) else (a, b, swaps).

Definition median_func (data : list A) (a b c swaps : nat) : nat * nat :=
  let '(a, b, swaps) := order2_func data a b swaps in
  let '(b, c, swaps) := order2_func data b c swaps in
  let '(a, b, swaps) := order2_func data a b swaps in
  (b, swaps).

Definition medianAdjacent_func (data : list A) (a swaps : nat) : nat * nat :=
  median_func data (a - 1) a (a + 1) swaps.

Definition choosePivot_func (data : list A) (a b : nat) : nat * sortedHint :=
  let l := b - a in
  let swaps := 0 in
  let i := a + l / 4 * 1 in
  let j := a + l / 4 * 2 in
  let k := a + l / 4 * 3 in
  let '(j, swaps) :=
    if 8 <=? l then
      let '(i, j, k, swaps) :=
        if 50 <=? l then
          let '(i, swaps) := medianAdjacent_func data i swaps in
          let '(j, swaps) := medianAdjacent_func data j swaps in
          let '(k, swaps) := medianAdjacent_func data k swaps in
          (i, j, k, swaps)
        else (i, j, k, swaps) in
      median_func data i j k swaps
    else (j, swaps) in
  if swaps =? 0 then (j, increasingHint)
  else if swaps =? 12 then (j, decreasingHint)
  else (j, unknownHint).

(** [reverseRange_func] *)
Fixpoint reverseLoop (fuel : nat) (data : list A) (i j : nat) : list A :=
  match fuel with
  | O => data
  | S fuel => if i <? j then reverseLoop fuel (Swap data i j) (i + 1) (j - 1) else data
  end.

Definition reverseRange_func (data : list A) (a b : nat) : list A :=
  reverseLoop (b - a) data a (b - 1).

(** [partialInsertionSort_func]: at most five out-of-order pairs are
    repaired, and none on slices shorter than 50. *)
Fixpoint advance (fuel : nat) (data : list A) (i b : nat) : nat :=
  match fuel with
  | O => i
  | S fuel => if (i <? b) && negb (Less data i (i - 1)) then advance fuel data (i + 1) b else i
  end.

Fixpoint shiftSmaller (data : list A) (j : nat) {struct j} : list A :=
  match j with
  | O => data
  | S j' => if negb (Less data j j') then data else shiftSmaller (Swap data j j') j'
  end.

Fixpoint shiftGreater (fuel : nat) (data : list A) (j b : nat) : list A :=
  match fuel with
  | O => data
  | S fuel =>
      if j <? b then
        if negb (Less data j (j - 1)) then data
        else shiftGreater fuel (Swap data j (j - 1)) (j + 1) b
      else data
  end.

Fixpoint partialSteps (steps : nat) (data : list A) (a b i : nat) : list A * bool :=
  match steps with
  | O => (data, false)
  | S steps =>
      let i := advance (b - i) data i b in
      if i =? b then (data, true)
      else if b - a <? 50 then (data, false)
      else
        let data := Swap data i (i - 1) in
        let data := if 2 <=? i - a then shiftSmaller data (i - 1) else data in
        let data := if 2 <=? b - i then shiftGreater (b - i) data (i + 1) b else data in
        partialSteps steps data a b i
  end.

Definition partialInsertionSort_func (data : list A) (a b : nat) : list A * bool :=
  partialSteps 5 data a b (a + 1).

(** [breakPatterns_func], with the xorshift generator seeded by the
    length. What is proved of [Slice] below holds whatever numbers the
    generator yields: they are reduced into the range before use. *)
Definition xorshift_Next (r : Z) : Z :=
  let r := Z.lxor r (Z.land (Z.shiftl r 13) (2 ^ 64 - 1)%Z) in
  let r := Z.lxor r (Z.shiftr r 7) in
  let r := Z.lxor r (Z.land (Z.shiftl r 17) (2 ^ 64 - 1)%Z) in
  r.

Definition bits_Len (n : nat) : nat :=
  match n with O => O | _ => S (Nat.log2 n) end.

Definition nextPowerOfTwo (length : nat) : Z := Z.shiftl 1 (Z.of_nat (bits_Len length)).

Definition breakPatterns_func (data : list A) (a b : nat) : list A :=
  let length := b - a in
  if 8 <=? length then
    let modulus := nextPowerOfTwo length in
    let idx := a + (length / 4) * 2 - 1 in
    fst (fold_left
           (fun '(data, random) i =>
              let random := xorshift_Next random in
              let other := Z.to_nat (Z.land random (modulus - 1)%Z) in
              let other := if length <=? other then other - length else other in
              (Swap data (idx - 1 + i) (a + other), random))
           (seq 0 3) (data, Z.of_nat length))
  else data.

(** [partition_func] and [partitionEqual_func]: the two scans of each
    turn, then the swap. *)
Fixpoint scanUp (fuel : nat) (p : nat -> bool) (i j : nat) : nat :=
  match fuel with
  | O => i
  | S fuel => if (i <=? j) && p i then scanUp fuel p (i + 1) j else i
  end.

Fixpoint scanDown (fuel : nat) (p : nat -> bool) (i j : nat) : nat :=
  match fuel with
  | O => j
  | S fuel => if (i <=? j) && p j then scanDown fuel p i (j - 1) else j
  end.

Fixpoint partitionLoop (fuel : nat) (data : list A) (a i j : nat) : list A * nat :=
  match fuel with
  | O => (data, j)
  | S fuel =>
      let i := scanUp (S j - i) (fun i => Less data i a) i j in
      let j := scanDown (S j - i) (fun j => negb (Less data j a)) i j in
      if j <? i then (data, j)
      else partitionLoop fuel (Swap data i j) a (i + 1) (j - 1)
  end.

Definition partition_func (data : list A) (a b pivot : nat) : list A * nat * bool :=
  let data := Swap data a pivot in
  let i := a + 1 in
  let j := b - 1 in
  let i := scanUp (S j - i) (fun i => Less data i a) i j in
  let j := scanDown (S j - i) (fun j => negb (Less data j a)) i j in
  if j <? i then (Swap data j a, j, true)
  else
    let data := Swap data i j in
    let '(data, j) := partitionLoop (b - a) data a (i + 1) (j - 1) in
    (Swap data j a, j, false).

Fixpoint partitionEqualLoop (fuel : nat) (data : list A) (a i j : nat) : list A * nat :=
  match fuel with
  | O => (data, i)
  | S fuel =>
      let i := scanUp (S j - i) (fun i => negb (Less data a i)) i j in
      let j := scanDown (S j - i) (fun j => Less data a j) i j in
      if j <? i then (data, i)
      else partitionEqualLoop fuel (Swap data i j) a (i + 1) (j - 1)
  end.

Definition partitionEqual_func (data : list A) (a b pivot : nat) : list A * nat :=
  let data := Swap data a pivot in
  partitionEqualLoop (b - a) data a (a + 1) (b - 1).

(** [pdqsort_func]: the recursive call sorts the smaller side, the loop
    goes on with the other. Every turn shortens [data[a:b]], which
    bounds [fuel]. *)
Fixpoint pdqsort (fuel : nat) (data : list A) (a b limit : nat)
    (wasBalanced wasPartitioned : bool) : list A :=
  match fuel with
  | O => data
  | S fuel =>
      let length := b - a in
      if length <=? 12 then insertionSort_func data a b
      else if limit =? 0 then heapSort_func data a b
      else
        let '(data, limit) :=
          if negb wasBalanced then (breakPatterns_func data a b, limit - 1)
          else (data, limit) in
        let '(pivot, hint) := choosePivot_func data a b in
        let '(data, pivot, hint) :=
          match hint with
          | decreasingHint =>
              (reverseRange_func data a b, (b - 1) - (pivot - a), increasingHint)
          | _ => (data, pivot, hint)
          end in
        let '(data, done) :=
          match hint with
          | increasingHint =>
              if wasBalanced && wasPartitioned then partialInsertionSort_func data a b
              else (data, false)
          | _ => (data, false)
          end in
        if done then data
        else if (0 <? a) && negb (Less data (a - 1) pivot) then
          let '(data, mid) := partitionEqual_func data a b pivot in
          pdqsort fuel data mid b limit wasBalanced wasPartitioned
        else
          let '(data, mid, alreadyPartitioned) := partition_func data a b pivot in
          let leftLen := mid - a in
          let rightLen := b - mid in
          let balanceThreshold := length / 8 in
          if leftLen <? rightLen then
            let data := pdqsort fuel data a mid limit true true in
            pdqsort fuel data (mid + 1) b limit (balanceThreshold <=? leftLen) alreadyPartitioned
          else
            let data := pdqsort fuel data (mid + 1) b limit true true in
            pdqsort fuel data a mid limit (balanceThreshold <=? rightLen) alreadyPartitioned
  end.

(** [sort.Slice] *)
Definition Slice (data : list A) : list A :=
  let n := length data in
  pdqsort (S n) data 0 n (bits_Len n) true true.
End Pdqsort.

(** ** What the sort establishes

    The vocabulary in which the sortedness of [Slice] is stated and proved:
    ranges [data[a:b]] of a slice, and what the loops of the procedures
    above keep true. *)

Section Ranges.
Context {A : Type}.

(** Every element of [data[a:b]] has the property. *)
Definition all_range (P : A -> Prop) (data : list A) (a b : nat) : Prop :=
  forall k x, a <= k < b -> data !! k = Some x -> P x.

(** [data[a:b]] is sorted: no element is less than one before it. *)
Definition sorted_range (less : A -> A -> bool) (data : list A) (a b : nat) : Prop :=
  forall i j x y, a <= i -> i < j -> j < b ->
                  data !! i = Some x -> data !! j = Some y -> less y x = false.

(** An operation on [data[a:b]]: the length and the elements outside the
    range stay, and the range holds no element it did not hold before. *)
Definition frame (a b : nat) (data data' : list A) : Prop :=
  length data' = length data /\
  (forall k, k < a \/ b <= k -> data' !! k = data !! k) /\
  (forall P, all_range P data a b -> all_range P data' a b).
End Ranges.

Section Invariants.
Context {A : Type} (less : A -> A -> bool).

Local Abbreviation le x y := (less y x = false).

(** The state of the inner loop of [insertionSort_func]: the element that
    moves is at [j], on its way left from [i]. *)
Definition moving (data : list A) (a j i : nat) : Prop :=
  sorted_range less data a j /\
  sorted_range less data (j + 1) (i + 1) /\
  (forall k k' x y, a <= k < j -> j < k' <= i ->
                    data !! k = Some x -> data !! k' = Some y -> le x y) /\
  (forall k' xj y, j < k' <= i ->
                   data !! j = Some xj -> data !! k' = Some y -> less xj y = true).

(** The loop may be asked to go below [a], down to [a0]; then what stands
    just before [a] must be a barrier: not greater than anything in the
    range. *)
Definition barrier (data : list A) (a b : nat) : Prop :=
  0 < a -> exists xpred, data !! (a - 1) = Some xpred /\
                         all_range (fun y => le xpred y) data a b.

(** The state of the partition around the pivot value [p], which waits at
    [a]: below [i] everything is less than [p], above [j] nothing is. *)
Definition partitioning (d : list A) (a b : nat) (p : A) (i j : nat) : Prop :=
  b <= length d /\ d !! a = Some p /\
  a + 1 <= i /\ j + 1 <= b /\ i <= j + 1 /\
  all_range (fun x => less x p = true) d (a + 1) i /\
  all_range (fun x => le p x) d (j + 1) b.

(** What the partition has reached when the scans cross at [mid]. *)
Definition partitioned (d : list A) (a b : nat) (p : A) (mid : nat) : Prop :=
  a <= mid < b /\
  all_range (fun x => less x p = true) d (a + 1) (mid + 1) /\
  all_range (fun x => le p x) d (mid + 1) b.

(** The state of the partition into what is not greater than [p] and what
    is greater. *)
Definition partitioningEqual (d : list A) (a b : nat) (p : A) (i j : nat) : Prop :=
  b <= length d /\ d !! a = Some p /\
  a + 1 <= i /\ j + 1 <= b /\ i <= j + 1 /\
  all_range (fun x => le x p) d (a + 1) i /\
  all_range (fun x => less p x = true) d (j + 1) b.

(** [c] is a child of the node [k] of the heap of [heapSort_func]. *)
Definition child (c k : nat) : Prop := c = 2 * k + 1 \/ c = 2 * k + 2.

(** The heap in [data[first : first+hi]], for the nodes from [lo] on: no
    child is greater than its parent. *)
Definition heap_from (d : list A) (first lo hi : nat) : Prop :=
  forall k c x y, lo <= k -> child c k -> c < hi ->
                  d !! (first + k) = Some x -> d !! (first + c) = Some y -> le y x.

(** A heap but for the node [root], whose children are still bounded by its
    parent. *)
Definition semi_heap (d : list A) (first lo hi root : nat) : Prop :=
  (forall k c x y, lo <= k -> k <> root -> child c k -> c < hi ->
                   d !! (first + k) = Some x -> d !! (first + c) = Some y -> le y x) /\
  (forall k c x y, lo <= k -> child root k -> child c root -> c < hi ->
                   d !! (first + k) = Some x -> d !! (first + c) = Some y -> le y x).

(** The state of the second loop of [heapSort_func]: a heap of [n]
    elements, and above it the greatest elements in order. *)
Definition extracting (d : list A) (first hi n : nat) : Prop :=
  heap_from d first 0 n /\
  sorted_range less d (first + n) (first + hi) /\
  (forall k j x y, k < n -> n <= j < hi ->
                   d !! (first + k) = Some x -> d !! (first + j) = Some y -> le x y).
End Invariants.

End Sort.

(** ** package events *)

Module Events.

(** The object an event is attached to. *)
Inductive Object :=
| ObjNode (name : string)
| ObjNodeClaim (name : string)
| ObjPod (namespace name : string).

Record Event := {
  InvolvedObject : Object;
  Type_ : string;
  Reason : string;
  Message : string;
  DedupeValues : list string
}.

Definition InsufficientCapacityError : string := "InsufficientCapacityError".
Definition EventTypeWarning : string := "Warning".

End Events.

(** ** package disruption *)

Module Disruption.
Import Go Events.

(** *** The API objects the package reads *)

(** [corev1.Pod], reduced to its object key. *)
Record Pod := { Pod_Namespace : string; Pod_Name : string }.

Record Node := { Node_Name : string; Node_Labels : gmap string string }.

(** A status condition; [LastTransitionTime] is an instant, and
    [time.Time.Before] is [<] on instants. *)
Record Condition := { Status : string; LastTransitionTime : Z }.

Definition ConditionTypeDrifted : string := "Drifted".

Record NodeClaim := {
  NodeClaim_Name : string;
  StatusConditions : gmap string Condition;
  (** [Spec.TerminationGracePeriod], a [*metav1.Duration] *)
  TerminationGracePeriod : option Z
}.

Record NodePool := { NodePool_Name : string }.

Record Offering := {
  Offering_CapacityType : string;
  Offering_Zone : string;
  Price : float64
}.

Record InstanceType := {
  InstanceType_Name : string;
  Offerings : list Offering
}.

(** [state.StateNode]: [NodeClaim] is a pointer that is nil for nodes
    karpenter does not manage. *)
Record StateNode := {
  SN_Node : Node;
  SN_NodeClaim : option NodeClaim
}.

(** [scheduling.NodeClaim], a replacement node specification. *)
Record SchedulingNodeClaim := {
  InstanceTypeOptions : list InstanceType;
  Pods : list Pod
}.

(** [scheduling.Results] *)
Record Results := {
  NewNodeClaims : list SchedulingNodeClaim;
  PodErrors : list (Pod * error)
}.

(** [scheduling.Results{}] *)
Definition Results_zero : Results := {| NewNodeClaims := []; PodErrors := [] |}.

(** [v1.DisruptionReason] is a string type. *)
Definition DisruptionReason : Type := string.
Definition DisruptionReasonDrifted : DisruptionReason := "Drifted".

Definition GracefulDisruptionClass : string := "graceful".
Definition EventualDisruptionClass : string := "eventual".

(** *** types.go *)

Record Candidate := {
  Candidate_StateNode : StateNode;
  instanceType : option InstanceType;
  nodePool : NodePool;
  zone : string;
  capacityType : string;
  disruptionCost : float64;
  reschedulablePods : list Pod
}.

Record Command := {
  candidates : list Candidate;
  replacements : list SchedulingNodeClaim
}.

(** [Command{}] *)
Definition Command_zero : Command := {| candidates := []; replacements := [] |}.

Inductive Decision := NoOpDecision | ReplaceDecision | DeleteDecision.

(** [func (c Command) Decision() Decision]: a [switch] whose cases are
    tried in order. *)
Definition Command_Decision (c : Command) : Decision :=
  if (0 <? length (candidates c))%nat && (0 <? length (replacements c))%nat
  then ReplaceDecision
  else if (0 <? length (candidates c))%nat && (length (replacements c) =? 0)%nat
  then DeleteDecision
  else NoOpDecision.

(** The three-way classification written as a function of the two lengths
    alone. *)
Definition decision_of_sizes (ncandidates nreplacements : nat) : Decision :=
  match ncandidates, nreplacements with
  | O, _ => NoOpDecision
  | S _, O => DeleteDecision
  | S _, S _ => ReplaceDecision
  end.

(** Modelled from the spec: [state.IsPodBlockEvictionError] (package state
    is not among the sources): whether the error is, or wraps, a blocking-pod
    eviction error. *)
Fixpoint IsPodBlockEvictionError (e : error) : bool :=
  match e with
  | PodBlockEvictionError _ => true
  | wrapError _ inner => IsPodBlockEvictionError inner
  | errorString _ | errCandidateDeleting => false
  end.

(** Modelled from the spec: [state.IgnorePodBlockEvictionError] (package
    state is not among the sources). A blocking-pod eviction error is
    downgraded to no error, "treated as if no pods block eviction"; any
    other error is kept, as the comment at the call in [NewCandidate] says. *)
Definition IgnorePodBlockEvictionError (err : option error) : option error :=
  match err with
  | Some e => if IsPodBlockEvictionError e then None else Some e
  | None => None
  end.

(** [lo.Ternary] *)
Definition Ternary {A} (c : bool) (a b : A) : A := if c then a else b.

(** What [NewCandidate] needs from the packages around it: the methods of
    [state.StateNode], the orchestration queue, the cost model, the pod
    predicates and the event constructors. *)
Record CandidateDeps := {
  Queue : Type;
  Clock : Type;
  KubeClient : Type;
  PDBLimits : Type;
  ValidateNodeDisruptable : StateNode -> option error;
  ValidatePodsDisruptable : StateNode -> KubeClient -> PDBLimits -> list Pod * option error;
  ProviderID : StateNode -> string;
  Labels : StateNode -> gmap string string;
  Utilization : StateNode -> float64;
  DeepCopy : StateNode -> StateNode;
  HasAny : Queue -> string -> bool;
  IsReschedulable : Pod -> bool;
  ReschedulingCost : list Pod -> float64;
  LifetimeRemaining : Clock -> NodePool -> option NodeClaim -> float64;
  Sentence : string -> string;
  Quote : string -> string;
  Blocked : Node -> option NodeClaim -> string -> list Event
}.

Definition NodePoolLabelKey : string := "karpenter.sh/nodepool".
Definition CapacityTypeLabelKey : string := "karpenter.sh/capacity-type".
Definition LabelInstanceTypeStable : string := "node.kubernetes.io/instance-type".
Definition LabelTopologyZone : string := "topology.kubernetes.io/zone".

(** The result of a call of [NewCandidate]: the events it published and
    either the returned pair or a nil-pointer panic. *)
Inductive Returned :=
| Return (c : option Candidate) (err : option error)
| Panic.

Definition label (labels : gmap string string) (key : string) : string :=
  default "" (labels !! key).

Definition NewCandidate (D : CandidateDeps)
    (kubeClient : KubeClient D) (clk : Clock D) (node : StateNode)
    (pdbs : PDBLimits D) (nodePoolMap : gmap string NodePool)
    (nodePoolToInstanceTypesMap : gmap string (gmap string InstanceType))
    (queue : Queue D) (disruptionClass : string)
    : list Event * Returned :=
  match ValidateNodeDisruptable D node with
  | Some err =>
      ((match SN_NodeClaim node with
        | Some _ => Blocked D (SN_Node node) (SN_NodeClaim node) (Sentence D (Error err))
        | None => []
        end),
       Return None (Some err))
  | None =>
  if HasAny D queue (ProviderID D node)
  then ([], Return None (Some (errorString "candidate is already being disrupted")))
  else
  let nodePoolName := label (Labels D node) NodePoolLabelKey in
  match nodePoolMap !! nodePoolName, nodePoolToInstanceTypesMap !! nodePoolName with
  | None, _ | _, None =>
      (Blocked D (SN_Node node) (SN_NodeClaim node)
               ("NodePool " ++ Quote D nodePoolName ++ " not found")%string,
       Return None (Some (errorString ("nodepool " ++ Quote D nodePoolName ++ " not found")%string)))
  | Some nodePool, Some instanceTypeMap =>
  let instanceType := instanceTypeMap !! label (Labels D node) LabelInstanceTypeStable in
  let '(pods, err) := ValidatePodsDisruptable D node kubeClient pdbs in
  let candidate :=
    {| Candidate_StateNode := DeepCopy D node;
       instanceType := instanceType;
       nodePool := nodePool;
       capacityType := label (Labels D node) CapacityTypeLabelKey;
       zone := label (Labels D node) LabelTopologyZone;
       reschedulablePods := List.filter (IsReschedulable D) pods;
       disruptionCost :=
         fmul (fmul (ReschedulingCost D pods)
                    (LifetimeRemaining D clk nodePool (SN_NodeClaim node)))
              (Utilization D node) |} in
  match err with
  | None => ([], Return (Some candidate) None)
  | Some e =>
      match SN_NodeClaim node with
      | None => ([], Panic)
      | Some nodeClaim =>
          let eventualDisruptionCandidate :=
            bool_decide (TerminationGracePeriod nodeClaim <> None)
            && String.eqb disruptionClass EventualDisruptionClass in
          match Ternary eventualDisruptionCandidate (IgnorePodBlockEvictionError err) err with
          | Some _ =>
              (Blocked D (SN_Node node) (SN_NodeClaim node) (Sentence D (Error e)),
               Return None (Some e))
          | None => ([], Return (Some candidate) None)
          end
      end
  end
  end
  end.

(** *** drift.go *)

(** The disruption budget mapping, [map[string]map[v1.DisruptionReason]int]:
    node pool name, then reason, to the remaining number of disruptions.
    Every pool owns its inner map, so the mapping is kept by value. *)
Abbreviation Budgets := (gmap string (gmap DisruptionReason Z)).

(** [m[pool][reason]] read: a missing pool or reason reads as 0. *)
Definition budget (m : Budgets) (pool : string) (reason : DisruptionReason) : Z :=
  default 0 (m !! pool ≫= (fun inner => inner !! reason)).

(** [m[pool][reason]--]. The statement is only reached after the entry was
    read as positive, so the inner map exists; on a nil inner map Go
    would panic, and the mapping is returned as it is. *)
Definition decrement (m : Budgets) (pool : string) (reason : DisruptionReason) : Budgets :=
  match m !! pool with
  | Some inner => <[pool := <[reason := dec (default 0 (inner !! reason))]> inner]> m
  | None => m
  end.

(** Every stored budget is a Go [int]. *)
Definition budgets_are_ints (m : Budgets) : Prop :=
  forall pool inner reason v,
    m !! pool = Some inner -> inner !! reason = Some v -> is_int v.

(** [insertionSort_func] of package sort: each element in turn is moved
    left while it is less than its left neighbour. [sorted_rev] is the
    sorted prefix, last element first. *)
Fixpoint insert_from_right {A} (less : A -> A -> bool) (x : A) (sorted_rev : list A) : list A :=
  match sorted_rev with
  | [] => [x]
  | y :: rest => if less x y then y :: insert_from_right less x rest else x :: sorted_rev
  end.

Definition insertionSort {A} (less : A -> A -> bool) (l : list A) : list A :=
  rev (fold_left (fun sorted_rev x => insert_from_right less x sorted_rev) l []).

(** The sorted prefix of an insertion sort, last element first: nothing is
    less than what comes after it in that order. *)
Definition descending {A} (less : A -> A -> bool) (r : list A) : Prop :=
  StronglySorted (fun a b => less a b = false) r.

(** [sort.SliceStable]: the stable sort of a list by a strict weak order
    is unique; insertion sort computes it. *)
Definition sort_SliceStable {A} (less : A -> A -> bool) (l : list A) : list A :=
  insertionSort less l.

(** What [Drift.ComputeCommand] calls outside the package. [World] is the
    state of the cluster that the kube client, the cluster state and the
    provisioner read; a scheduling simulation may change it. *)
Record DriftDeps := {
  World : Type;
  (** [sort.Slice], which package sort documents as not stable *)
  sort_Slice : (Candidate -> Candidate -> bool) -> list Candidate -> list Candidate;
  (** [nodeutil.GetPods]: the pods bound to the node, or an error *)
  GetPods : World -> Node -> option (list Pod);
  IsDisruptable : Pod -> bool;
  (** [podutil.IsWaitingEviction(p, d.clock)] *)
  IsWaitingEviction : Pod -> bool;
  SimulateScheduling : World -> Candidate -> (Results * option error) * World;
  AllNonPendingPodsScheduled : Results -> bool;
  NonPendingPodSchedulingErrors : Results -> string;
  (** [disruptionevents.Blocked] *)
  DriftBlocked : Node -> option NodeClaim -> string -> list Event
}.

(** The contract of [sort.Slice]: the slice is permuted, and it ends up
    sorted by [less] when [less] is a strict weak order. *)
Definition strict_weak_order {A} (less : A -> A -> bool) : Prop :=
  (forall a, less a a = false) /\
  (forall a b c, less a b = true -> less b c = true -> less a c = true) /\
  (forall a b c, less a b = false -> less b c = false -> less a c = false).

(** No element is less than an earlier one. *)
Definition sorted_by {A} (less : A -> A -> bool) (l : list A) : Prop :=
  forall i j a b, (i < j)%nat -> l !! i = Some a -> l !! j = Some b -> less b a = false.

Definition sort_Slice_permutes (D : DriftDeps) : Prop :=
  forall less l, Permutation l (sort_Slice D less l).

Definition sort_Slice_sorts (D : DriftDeps) : Prop :=
  forall less l, strict_weak_order less -> sorted_by less (sort_Slice D less l).

(** What a call does besides returning: simulations run and events
    published, in order. *)
Inductive Effect :=
| Simulated (c : Candidate)
| Published (evs : list Event).

Definition is_Simulated (e : Effect) : bool :=
  match e with Simulated _ => true | Published _ => false end.

Definition Drift_Reason : DisruptionReason := DisruptionReasonDrifted.
Definition Drift_Class : string := EventualDisruptionClass.
Definition Drift_ConsolidationType : string := "".

(** [StatusConditions().Get(t)] and [IsTrue] (nil-safe). *)
Definition Get (nc : option NodeClaim) (t : string) : option Condition :=
  nc ≫= (fun nc => StatusConditions nc !! t).

Definition IsTrue (c : option Condition) : bool :=
  match c with Some c => String.eqb (Status c) "True" | None => false end.

Definition Drift_ShouldDisrupt (c : Candidate) : bool :=
  IsTrue (Get (SN_NodeClaim (Candidate_StateNode c)) ConditionTypeDrifted).

(** The instant the Drifted condition last changed. [ComputeCommand] gets
    candidates that passed [ShouldDisrupt], which carry the condition;
    without it Go dereferences nil, and the model reads instant 0. *)
Definition driftedSince (c : Candidate) : Z :=
  match Get (SN_NodeClaim (Candidate_StateNode c)) ConditionTypeDrifted with
  | Some cond => LastTransitionTime cond
  | None => 0
  end.

(** The [less] of the first sort (lines 68-71). *)
Definition lessDrifted (a b : Candidate) : bool := (driftedSince a <? driftedSince b)%Z.

Definition nodePoolName (c : Candidate) : string := NodePool_Name (nodePool c).
Definition nodeName (c : Candidate) : string := Node_Name (SN_Node (Candidate_StateNode c)).
Definition nodeClaimOf (c : Candidate) : option NodeClaim := SN_NodeClaim (Candidate_StateNode c).

(** The loop of lines 77-87: the batch of empty candidates, in the order
    visited, and the budgets after the decrements. *)
Fixpoint scanEmpty (m : Budgets) (cands : list Candidate) : list Candidate * Budgets :=
  match cands with
  | [] => ([], m)
  | candidate :: rest =>
      if (0 <? length (reschedulablePods candidate))%nat then scanEmpty m rest
      else if (0 <? budget m (nodePoolName candidate) Drift_Reason)%Z then
        let '(empty, m') := scanEmpty (decrement m (nodePoolName candidate) Drift_Reason) rest in
        (candidate :: empty, m')
      else scanEmpty m rest
  end.

(** The closure [unevictablePods] (lines 96-109). Its cache, keyed by node
    name, memoises the listing for the duration of the call; a failed
    listing counts as [math.MaxInt]. *)
Definition unevictablePods (D : DriftDeps) (w : World D) (candidate : Candidate) : Z :=
  match GetPods D w (SN_Node (Candidate_StateNode candidate)) with
  | None => MaxInt
  | Some pods =>
      Z.of_nat (length (List.filter (fun p => negb (IsDisruptable D p) && IsWaitingEviction D p) pods))
  end.

Definition lessUnevictable (D : DriftDeps) (w : World D) (a b : Candidate) : bool :=
  (unevictablePods D w a <? unevictablePods D w b)%Z.

(** The loop of lines 115-148, and line 149 when it runs to its end. *)
Fixpoint scanCandidates (D : DriftDeps) (m : Budgets) (cands : list Candidate)
    (w : World D) (trace : list Effect)
    : (Command * Results * option error) * (World D * list Effect) :=
  match cands with
  | [] => ((Command_zero, Results_zero, None), (w, trace))
  | candidate :: rest =>
      if (budget m (nodePoolName candidate) Drift_Reason =? 0)%Z
      then scanCandidates D m rest w trace
      else
        let '((results, err), w') := SimulateScheduling D w candidate in
        let trace' := trace ++ [Simulated candidate] in
        match err with
        | Some e =>
            if Is_errCandidateDeleting e
            then scanCandidates D m rest w' trace'
            else ((Command_zero, Results_zero, Some e), (w', trace'))
        | None =>
            if negb (AllNonPendingPodsScheduled D results)
            then scanCandidates D m rest w'
                   (trace' ++ [Published (DriftBlocked D (SN_Node (Candidate_StateNode candidate))
                                            (nodeClaimOf candidate)
                                            (NonPendingPodSchedulingErrors D results))])
            else (({| candidates := [candidate]; replacements := NewNodeClaims results |},
                   results, None), (w', trace'))
        end
  end.

(** What a call of [ComputeCommand] yields: the three returned values, the
    budget mapping as the call leaves it, the world and the effects. *)
Record Outcome (D : DriftDeps) := {
  command : Command;
  results : Results;
  err : option error;
  budgets : Budgets;
  world : World D;
  effects : list Effect
}.
Arguments command {D} _.
Arguments results {D} _.
Arguments err {D} _.
Arguments budgets {D} _.
Arguments world {D} _.
Arguments effects {D} _.

Definition Drift_ComputeCommand (D : DriftDeps) (disruptionBudgetMapping : Budgets)
    (cands : list Candidate) (w : World D) : Outcome D :=
  let sorted := sort_Slice D lessDrifted cands in
  let '(empty, m) := scanEmpty disruptionBudgetMapping sorted in
  if (0 <? length empty)%nat
  then {| command := {| candidates := empty; replacements := [] |};
          results := Results_zero; err := None;
          budgets := m; world := w; effects := [] |}
  else
    let resorted := sort_SliceStable (lessUnevictable D w) sorted in
    let '((cmd, res, e), (w', trace)) := scanCandidates D m resorted w [] in
    {| command := cmd; results := res; err := e;
       budgets := m; world := w'; effects := trace |}.

(** Vocabulary for the statements about [ComputeCommand]. *)

(** A candidate without reschedulable pods. *)
Definition isEmpty (c : Candidate) : bool := (length (reschedulablePods c) =? 0)%nat.

Definition inPool (pool : string) (c : Candidate) : bool := String.eqb (nodePoolName c) pool.

(** How many candidates of the list belong to the pool. *)
Definition countPool (pool : string) (l : list Candidate) : nat :=
  length (List.filter (inPool pool) l).

(** The empty candidates of a list that the budgets on entry pay for: a
    candidate is taken when it is empty and fewer empty candidates of its
    pool came before it than its pool's budget allows. [seen] are the
    candidates already passed. *)
Fixpoint emptyWithinBudget (m : Budgets) (seen cands : list Candidate) : list Candidate :=
  match cands with
  | [] => []
  | c :: rest =>
      (if isEmpty c &&
          (Z.of_nat (countPool (nodePoolName c) (List.filter isEmpty seen))
             <? budget m (nodePoolName c) Drift_Reason)
       then [c] else [])
      ++ emptyWithinBudget m (seen ++ [c]) rest
  end.

(** The budgets midway through the scan for empty candidates, told from
    the budgets on entry [m0] and the candidates already passed. *)
Definition midway (m0 m : Budgets) (seen : list Candidate) : Prop :=
  forall pool,
    budget m pool Drift_Reason =
      let k := Z.of_nat (countPool pool (List.filter isEmpty seen)) in
      let b := budget m0 pool Drift_Reason in
      if k <? b then b - k else Z.min b 0.

Definition noSimulation (trace : list Effect) : Prop :=
  existsb is_Simulated trace = false.

(** The candidates the scan passes over. A candidate is passed over when
    its pool has no budget (line 122), when its simulation says that it is
    being deleted (line 130), or when its simulation leaves pods without
    a place, which is published (lines 136-139). [passOver] goes through
    the candidates as long as each one is passed over and yields the world
    and the effects it ends with; it yields nothing when a candidate ends
    the scan, by another error (line 133) or by being returned
    (line 144). *)
Fixpoint passOver (D : DriftDeps) (m : Budgets) (cands : list Candidate)
    (w : World D) (trace : list Effect) : option (World D * list Effect) :=
  match cands with
  | [] => Some (w, trace)
  | candidate :: rest =>
      if (budget m (nodePoolName candidate) Drift_Reason =? 0)%Z
      then passOver D m rest w trace
      else
        let '((results, err), w') := SimulateScheduling D w candidate in
        match err with
        | Some e =>
            if Is_errCandidateDeleting e
            then passOver D m rest w' (trace ++ [Simulated candidate])
            else None
        | None =>
            if AllNonPendingPodsScheduled D results then None
            else passOver D m rest w'
                   ((trace ++ [Simulated candidate]) ++
                    [Published (DriftBlocked D (SN_Node (Candidate_StateNode candidate))
                                  (nodeClaimOf candidate)
                                  (NonPendingPodSchedulingErrors D results))])
        end
  end.

(** The outcome of a call that goes on to the simulations, told from what
    the scan of the candidates gives. *)
Definition outcomeOf {D : DriftDeps} (m : Budgets)
    (r : (Command * Results * option error) * (World D * list Effect)) : Outcome D :=
  {| command := fst (fst (fst r)); results := snd (fst (fst r)); err := snd (fst r);
     budgets := m; world := fst (snd r); effects := snd (snd r) |}.

(** The three ways the scan ends. *)
Inductive scan_end (D : DriftDeps) (m : Budgets) (cands : list Candidate)
  : Command * Results * option error -> list Effect -> Prop :=
| end_nothing trace :
    scan_end D m cands (Command_zero, Results_zero, None) trace
| end_error e pre c :
    Is_errCandidateDeleting e = false ->
    In c cands ->
    scan_end D m cands (Command_zero, Results_zero, Some e) (pre ++ [Simulated c])
| end_candidate c res pre :
    In c cands ->
    budget m (nodePoolName c) Drift_Reason <> 0 ->
    AllNonPendingPodsScheduled D res = true ->
    scan_end D m cands ({| candidates := [c]; replacements := NewNodeClaims res |}, res, None)
             (pre ++ [Simulated c]).

(** Whether a call returns from the scan for empty candidates (line 91)
    rather than going on to the simulations. *)
Definition tookFastPath (D : DriftDeps) (m : Budgets) (cands : list Candidate) : bool :=
  (0 <? length (fst (scanEmpty m (sort_Slice D lessDrifted cands))))%nat.

(** Oldest drift first. *)
Definition ascending (l : list Candidate) : Prop :=
  forall i j a b, (i < j)%nat -> l !! i = Some a -> l !! j = Some b ->
                  driftedSince a <= driftedSince b.

(** A stable sort: the candidates that drifted at the same instant come
    out in the order they went in. *)
Definition sameInstant (t : Z) (c : Candidate) : bool := driftedSince c =? t.

Definition keeps_ties (cands sorted : list Candidate) : Prop :=
  forall t, List.filter (sameInstant t) sorted = List.filter (sameInstant t) cands.

(** *** consolidation_info.go *)

(** One turn of the loop over the candidates (lines 13-18). [Name] is
    [state.StateNode.Name]. *)
Definition candidateInfo (Name : StateNode -> string) (msg : string) (candidate : Candidate) : string :=
  ((if (0 <? len msg)%nat then msg ++ ", " else msg) ++
   ("Node " ++ NodePool_Name (nodePool candidate) ++ "/" ++
    label (Node_Labels (SN_Node (Candidate_StateNode candidate))) LabelInstanceTypeStable ++ "/" ++
    capacityType candidate ++ "/" ++ Name (Candidate_StateNode candidate)))%string.

(** Line 25 *)
Definition offeringInfo (ito : InstanceType) (msg : string) (offering : Offering) : string :=
  (msg ++ (" " ++ InstanceType_Name ito ++ "/" ++ Offering_CapacityType offering ++ "/" ++
           Offering_Zone offering ++ ":" ++ Sprintf_3f (Price offering) ++ " "))%string.

(** Lines 22-29 *)
Definition replacementInfo (msg : string) (nc : SchedulingNodeClaim) : string :=
  (fold_left (fun msg ito => fold_left (offeringInfo ito) (Offerings ito) msg)
             (InstanceTypeOptions nc) (msg ++ " with offerings: [") ++ " ]")%string.

Definition consolidationMessage (Name : StateNode -> string)
    (cands : list Candidate) (results : Results) (candidatePrice : float64) : string :=
  let msg := fold_left (candidateInfo Name) cands "" in
  if (0 <? length (NewNodeClaims results))%nat
  then fold_left replacementInfo (NewNodeClaims results)
         (msg ++ (" with a total price of " ++ Sprintf_3f candidatePrice ++ " is being replaced"))%string
  else (msg ++ " is underutilized and will be removed without replacement")%string.

(** [s] occurs in [msg]; [msg] ends with [s]. *)
Definition contains (msg s : string) : Prop :=
  exists before after, msg = (before ++ s ++ after)%string.

Definition ends_with (msg s : string) : Prop :=
  exists before, msg = (before ++ s)%string.

(** *** Vocabulary for the statements about the simulations *)

(** The candidates simulated, in the order of the simulations. *)
Definition simulatedOf (trace : list Effect) : list Candidate :=
  flat_map (fun e => match e with Simulated c => [c] | Published _ => [] end) trace.

(** Line 122: the candidate's pool has drift budget left when its entry
    is anything but 0. *)
Definition hasBudget (m : Budgets) (c : Candidate) : bool :=
  negb (budget m (nodePoolName c) Drift_Reason =? 0)%Z.

(** The order of the simulations: fewer pods waiting for eviction first,
    and among equals the older drift first. *)
Definition triedBefore (D : DriftDeps) (w : World D) (a b : Candidate) : Prop :=
  unevictablePods D w a < unevictablePods D w b \/
  (unevictablePods D w a = unevictablePods D w b /\ driftedSince a <= driftedSince b).

(** *** types.go: [Command.LogValues] *)

(** [lo.Reduce] and [lo.Map] of github.com/samber/lo: the callback gets
    the index of the element besides the element. *)
Fixpoint Reduce_from {T R} (accumulator : R -> T -> nat -> R) (i : nat)
    (collection : list T) (agg : R) : R :=
  match collection with
  | [] => agg
  | item :: rest => Reduce_from accumulator (S i) rest (accumulator agg item i)
  end.

Definition Reduce {T R} (collection : list T) (accumulator : R -> T -> nat -> R)
    (initial : R) : R :=
  Reduce_from accumulator 0 collection initial.

Definition Map {T R} (collection : list T) (iteratee : T -> nat -> R) : list R :=
  imap (fun i item => iteratee item i) collection.

(** [klog.ObjectRef], what [klog.KObj] makes of an object. *)
Record ObjectRef := { Ref_Namespace : string; Ref_Name : string }.

(** The values in the map that describes a node: an object reference or
    a string. *)
Inductive LogField :=
| FieldRef (ref : ObjectRef)
| FieldString (s : string).

(** The elements of the [[]any] that [LogValues] returns. *)
Inductive LogValue :=
| LogKey (s : string)
| LogDecision (d : Decision)
| LogInt (n : Z)
| LogNodes (nodes : list (gmap string LogField)).

(** What [LogValues] calls outside the package: [klog.KObj], the labels of
    the state node, [Requirements.Get(key).Has(value)] of a replacement
    and [scheduling.InstanceTypeList]. *)
Record LogDeps := {
  KObj_Node : Node -> ObjectRef;
  KObj_NodeClaim : option NodeClaim -> ObjectRef;
  StateNode_Labels : StateNode -> gmap string string;
  Requirements_Has : SchedulingNodeClaim -> string -> string -> bool;
  InstanceTypeList : list InstanceType -> string
}.

Definition CapacityTypeSpot : string := "spot".
Definition CapacityTypeOnDemand : string := "on-demand".

(** Line 144: the callback drops the value accumulated so far. *)
Definition podCount (c : Command) : Z :=
  Reduce (candidates c)
         (fun (_ : Z) (cd : Candidate) (_ : nat) => Z.of_nat (length (reschedulablePods cd)))
         0.

(** Lines 146-153 *)
Definition candidateNode (L : LogDeps) (candidate : Candidate) (_ : nat)
    : gmap string LogField :=
  {[ "Node" := FieldRef (KObj_Node L (SN_Node (Candidate_StateNode candidate)));
     "NodeClaim" := FieldRef (KObj_NodeClaim L (SN_NodeClaim (Candidate_StateNode candidate)));
     "instance-type" :=
       FieldString (label (StateNode_Labels L (Candidate_StateNode candidate))
                          LabelInstanceTypeStable);
     "capacity-type" :=
       FieldString (label (StateNode_Labels L (Candidate_StateNode candidate))
                          CapacityTypeLabelKey) ]}.

(** Lines 154-163 *)
Definition replacementNode (L : LogDeps) (c : Command)
    (replacement : SchedulingNodeClaim) (_ : nat) : gmap string LogField :=
  let m : gmap string LogField :=
    {[ "capacity-type" :=
         FieldString (Ternary (Requirements_Has L replacement CapacityTypeLabelKey
                                                CapacityTypeSpot)
                              CapacityTypeSpot CapacityTypeOnDemand) ]} in
  if (length (replacements c) =? 1)%nat
  then <["instance-types" :=
           FieldString (InstanceTypeList L (InstanceTypeOptions replacement))]> m
  else m.

Definition Command_LogValues (L : LogDeps) (c : Command) : list LogValue :=
  let podCount := podCount c in
  let candidateNodes := Map (candidates c) (candidateNode L) in
  let replacementNodes := Map (replacements c) (replacementNode L c) in
  [LogKey "decision"; LogDecision (Command_Decision c);
   LogKey "disrupted-node-count"; LogInt (Z.of_nat (length candidateNodes));
   LogKey "replacement-node-count"; LogInt (Z.of_nat (length replacementNodes));
   LogKey "pod-count"; LogInt podCount;
   LogKey "disrupted-nodes"; LogNodes candidateNodes;
   LogKey "replacement-nodes"; LogNodes replacementNodes].

(** The value logged under a key: the element after it. *)
Fixpoint logged (key : string) (values : list LogValue) : option LogValue :=
  match values with
  | LogKey k :: v :: rest => if String.eqb k key then Some v else logged key rest
  | _ => None
  end.

(** The reschedulable pods of a list of candidates, counted. *)
Definition totalPods (cands : list Candidate) : Z :=
  fold_right (fun cd n => Z.of_nat (length (reschedulablePods cd)) + n) 0 cands.

(** *** consolidation_info.go: the parts of the message *)

(** What line 17 prints for a candidate. *)
Definition candidateText (Name : StateNode -> string) (candidate : Candidate) : string :=
  ("Node " ++ NodePool_Name (nodePool candidate) ++ "/" ++
   label (Node_Labels (SN_Node (Candidate_StateNode candidate))) LabelInstanceTypeStable ++ "/" ++
   capacityType candidate ++ "/" ++ Name (Candidate_StateNode candidate))%string.

(** What line 25 prints for an offering of an instance type. *)
Definition offeringText (ito : InstanceType) (offering : Offering) : string :=
  (" " ++ InstanceType_Name ito ++ "/" ++ Offering_CapacityType offering ++ "/" ++
   Offering_Zone offering ++ ":" ++ Sprintf_3f (Price offering) ++ " ")%string.

(** What lines 22-29 print for a new node claim. *)
Definition replacementText (nc : SchedulingNodeClaim) : string :=
  (" with offerings: [" ++
   String.concat "" (flat_map (fun ito => map (offeringText ito) (Offerings ito))
                              (InstanceTypeOptions nc)) ++
   " ]")%string.

End Disruption.

(** ** package provisioning: annotateNodeClaimWithNominatedPods *)

Module Provisioning.
Import Go.

(** Go maps are references. The heap holds the map objects; a field of map
    type holds the address of one, or nil. *)
Abbreviation Heap := (gmap positive (gmap string string)).

(** [v1.NodeClaim], its [Annotations] field. *)
Record NodeClaim := { Annotations : option positive }.

(** The map a field refers to; a nil map reads as empty. *)
Definition deref (h : Heap) (field : option positive) : gmap string string :=
  default ∅ (field ≫= (fun l => h !! l)).

Definition NominatedPodsKey : string := "karpenter.indeed.com/nominated-pods".

(** The four [WriteString] calls of one turn of the loop. *)
Definition writePod (str : string) (pod : Disruption.Pod) : string :=
  (str ++ Disruption.Pod_Namespace pod ++ "/" ++ Disruption.Pod_Name pod ++ ",")%string.

Definition nominatedPodsOf (pods : list Disruption.Pod) : string :=
  let nominatedPods := fold_left writePod pods "" in
  if (4096 <? len nominatedPods)%nat then slice_to 4096 nominatedPods else nominatedPods.

(** [make] allocates a map at an address that is not in use; the [range]
    loop copies the entries, in whatever order. *)
Definition annotateNodeClaimWithNominatedPods
    (n : Disruption.SchedulingNodeClaim) (nodeClaim : NodeClaim) (h : Heap)
    : NodeClaim * Heap :=
  let nominatedPods := nominatedPodsOf (Disruption.Pods n) in
  let annotations : positive := fresh (dom h) in
  let copied := map_fold (fun k v (m : gmap string string) => <[k := v]> m) ∅
                         (deref h (Annotations nodeClaim)) in
  ({| Annotations := Some annotations |},
   <[annotations := <[NominatedPodsKey := nominatedPods]> copied]> h).

(** The value the words "comma-joined list" describe:
    [strings.Join] of the [namespace/name] keys. *)
Definition podKey (pod : Disruption.Pod) : string :=
  (Disruption.Pod_Namespace pod ++ "/" ++ Disruption.Pod_Name pod)%string.

Definition commaJoined (pods : list Disruption.Pod) : string :=
  Join (map podKey pods) ",".

(** The bytes one pod adds to the value: its key and the comma. *)
Definition entryLength (pod : Disruption.Pod) : nat :=
  (len (Disruption.Pod_Namespace pod) + len (Disruption.Pod_Name pod) + 2)%nat.

Definition writtenLength (pods : list Disruption.Pod) : nat :=
  fold_right (fun pod n => (entryLength pod + n)%nat) 0%nat pods.

(** A pod whose namespace and name hold neither a slash nor a comma, as
    the names of Kubernetes objects do. *)
Definition plain (pod : Disruption.Pod) : Prop :=
  has_byte "/" (Disruption.Pod_Namespace pod) = false /\
  has_byte "," (Disruption.Pod_Namespace pod) = false /\
  has_byte "/" (Disruption.Pod_Name pod) = false /\
  has_byte "," (Disruption.Pod_Name pod) = false.

End Provisioning.

(** ** package lifecycle: indeed_events.go *)

Module Lifecycle.
Import Go Events.

Record Requirement := { Key : string; Values : list string }.

Record NodeClaim := {
  Name : string;
  UID : string;
  (** nil or a map *)
  Annotations : option (gmap string string);
  Requirements : list Requirement
}.

Record Pod := { Pod_Namespace : string; Pod_Name : string; Pod_UID : string }.

(** [kubeClient.Get] of a pod *)
Inductive GetResult :=
| Found (pod : Pod)
| NotFound
| Failed (e : error).

(** What the function calls outside the file: [truncateMessage] of the
    package, [strings.TrimSpace] and the kube client. *)
Record Deps := {
  truncateMessage : string -> string;
  TrimSpace : string -> string;
  kubeGet : string -> string -> GetResult
}.

Definition NominatedPodsKey : string := "karpenter.indeed.com/nominated-pods".

(** Both loops over the requirements: the first requirement with this key
    and a value, if any. *)
Definition firstRequirement (key : string) (reqs : list Requirement) : option Requirement :=
  List.find (fun r => String.eqb (Key r) key && (0 <? length (Values r))%nat) reqs.

Definition zoneOf (reqs : list Requirement) : string :=
  match firstRequirement "topology.kubernetes.io/zone" reqs with
  | Some r => List.hd "" (Values r)
  | None => "any az"
  end.

Definition instanceTypesOf (reqs : list Requirement) : string :=
  match firstRequirement "node.kubernetes.io/instance-type" reqs with
  | Some r => Join (Values r) ","
  | None => ""
  end.

Definition nodeClaimEvent (X : Deps) (nodeClaim : NodeClaim) (errText : string) : Event :=
  {| InvolvedObject := ObjNodeClaim (Name nodeClaim);
     Type_ := EventTypeWarning;
     Reason := InsufficientCapacityError;
     Message := ("NodeClaim " ++ Name nodeClaim ++ " event: " ++ truncateMessage X errText)%string;
     DedupeValues := [UID nodeClaim] |}.

Definition podEvent (pod : Pod) (instanceTypes awsZone errMsg : string) : Event :=
  {| InvolvedObject := ObjPod (Pod_Namespace pod) (Pod_Name pod);
     Type_ := EventTypeWarning;
     Reason := InsufficientCapacityError;
     Message := ("Pod could not schedule " ++ instanceTypes ++ " in " ++ awsZone ++ ": " ++ errMsg)%string;
     DedupeValues := [(InsufficientCapacityError ++ Pod_UID pod)%string] |}.

(** One turn of the loop over the annotation's entries: the events and
    the errors logged so far, extended. *)
Definition nominatedPod (X : Deps) (instanceTypes awsZone errMsg : string)
    (acc : list Event * list error) (podAndNS : string) : list Event * list error :=
  match Split "/" podAndNS with
  | [ns; name] =>
      match kubeGet X (TrimSpace X ns) (TrimSpace X name) with
      | Found pod => (fst acc ++ [podEvent pod instanceTypes awsZone errMsg], snd acc)
      | NotFound => acc
      | Failed e => (fst acc, snd acc ++ [e])
      end
  | _ => acc
  end.

(** The events returned, and the errors handed to the logger. *)
Definition InsufficientCapacityErrorEvents (X : Deps) (nodeClaim : NodeClaim) (errText : string)
    : list Event * list error :=
  let errMsg := truncateMessage X errText in
  let evnts := [nodeClaimEvent X nodeClaim errText] in
  match Annotations nodeClaim with
  | None => (evnts, [])
  | Some annotations =>
      let nominated := default "" (annotations !! NominatedPodsKey) in
      if String.eqb nominated "" then (evnts, [])
      else
        let awsZone := zoneOf (Requirements nodeClaim) in
        let instanceTypes := instanceTypesOf (Requirements nodeClaim) in
        fold_left (nominatedPod X instanceTypes awsZone errMsg) (Split "," nominated) (evnts, [])
  end.

(** An entry of the form [namespace/name]: exactly one slash. *)
Definition well_formed_entry (entry : string) : bool :=
  (length (Split "/" entry) =? 2)%nat.

(** What the loop over the entries does with one of them: nothing unless
    it has the form [namespace/name], and then it asks the cluster for the
    pod, both parts trimmed. *)
Definition lookupEntry (X : Deps) (entry : string) : option GetResult :=
  match Split "/" entry with
  | [ns; name] => Some (kubeGet X (TrimSpace X ns) (TrimSpace X name))
  | _ => None
  end.

(** The pods the cluster has among the entries, and the errors of the
    other lookups, not-found apart; both in the order of the entries. *)
Definition foundPods (X : Deps) (entries : list string) : list Pod :=
  flat_map (fun entry => match lookupEntry X entry with
                         | Some (Found pod) => [pod]
                         | _ => []
                         end) entries.

Definition failedLookups (X : Deps) (entries : list string) : list error :=
  flat_map (fun entry => match lookupEntry X entry with
                         | Some (Failed e) => [e]
                         | _ => []
                         end) entries.

(** The entries of the annotation: none when the node claim has no
    annotations or the value is empty, and the pieces between the commas
    otherwise. *)
Definition nominatedEntries (nodeClaim : NodeClaim) : list string :=
  match Annotations nodeClaim with
  | None => []
  | Some annotations =>
      let nominated := default "" (annotations !! NominatedPodsKey) in
      if String.eqb nominated "" then [] else Split "," nominated
  end.

(** The lookup of a pod of the scheduler, by its namespace and name as
    the loop trims them. *)
Definition lookupPod (X : Deps) (pod : Disruption.Pod) : GetResult :=
  kubeGet X (TrimSpace X (Disruption.Pod_Namespace pod)) (TrimSpace X (Disruption.Pod_Name pod)).

End Lifecycle.

(** ** Sample clusters *)

Module Samples.
Import Go Events Disruption.

Definition web : Pod := {| Pod_Namespace := "default"; Pod_Name := "web" |}.

(** A candidate on node [name] of pool [pool] that drifted at [t]. *)
Definition candidate (name pool : string) (t : Z) (pods : list Pod) : Candidate :=
  {| Candidate_StateNode :=
       {| SN_Node := {| Node_Name := name; Node_Labels := ∅ |};
          SN_NodeClaim :=
            Some {| NodeClaim_Name := name;
                    StatusConditions :=
                      {[ ConditionTypeDrifted :=
                           {| Status := "True"; LastTransitionTime := t |} ]};
                    TerminationGracePeriod := None |} |};
     instanceType := None;
     nodePool := {| NodePool_Name := pool |};
     zone := "";
     capacityType := "";
     disruptionCost := S754_zero false;
     reschedulablePods := pods |}.

Definition replacement : SchedulingNodeClaim :=
  {| InstanceTypeOptions := []; Pods := [web] |}.

(** Four simulators: every pod finds a place on one new node; the
    candidate is being deleted; the simulation fails; a pod finds no
    place. *)
Definition schedules (c : Candidate) : Results * option error :=
  ({| NewNodeClaims := [replacement]; PodErrors := [] |}, None).
Definition deleting (c : Candidate) : Results * option error :=
  (Results_zero, Some errCandidateDeleting).
Definition failing (c : Candidate) : Results * option error :=
  (Results_zero, Some (errorString "creating scheduler")).
Definition unschedulable (c : Candidate) : Results * option error :=
  ({| NewNodeClaims := []; PodErrors := [(web, errorString "no instance type fits")] |}, None).

Definition blocked (n : Node) (nc : option NodeClaim) (msg : string) : list Event :=
  [ {| InvolvedObject := ObjNode (Node_Name n);
       Type_ := "Normal";
       Reason := "DisruptionBlocked";
       Message := msg;
       DedupeValues := [Node_Name n] |} ].

(** A cluster whose world does not change, with the given sort and
    simulator. *)
Definition deps (sorter : (Candidate -> Candidate -> bool) -> list Candidate -> list Candidate)
    (simulate : Candidate -> Results * option error) : DriftDeps :=
  {| World := unit;
     sort_Slice := sorter;
     GetPods := fun _ _ => Some [];
     IsDisruptable := fun _ => true;
     IsWaitingEviction := fun _ => false;
     SimulateScheduling := fun w c => (simulate c, w);
     AllNonPendingPodsScheduled :=
       fun r => match PodErrors r with [] => true | _ => false end;
     NonPendingPodSchedulingErrors := fun _ => "not all pods would schedule";
     DriftBlocked := blocked |}.

(** The budget mapping with one pool. *)
Definition budgetOf (pool : string) (n : Z) : gmap string (gmap DisruptionReason Z) :=
  {[ pool := {[ DisruptionReasonDrifted := n ]} ]}.

(** Thirteen candidates, named by their place in the list; all drifted at
    instant 1 but the last, which drifted at instant 0. *)
Definition thirteen : list Candidate :=
  map (fun name => candidate name "default" 1 [web])
      ["n0"; "n1"; "n2"; "n3"; "n4"; "n5"; "n6"; "n7"; "n8"; "n9"; "n10"; "n11"]
  ++ [candidate "n12" "default" 0 [web]].

(** What [NewCandidate] needs, for a node that passes every check but the
    validation of its pods, which answers [podsResult]. *)
Definition candidateDeps (podsResult : list Pod * option error) : CandidateDeps :=
  {| Queue := unit;
     Clock := unit;
     KubeClient := unit;
     PDBLimits := unit;
     ValidateNodeDisruptable := fun _ => None;
     ValidatePodsDisruptable := fun _ _ _ => podsResult;
     ProviderID := fun n => Node_Name (SN_Node n);
     Labels := fun n => Node_Labels (SN_Node n);
     Utilization := fun _ => S754_zero false;
     DeepCopy := fun n => n;
     HasAny := fun _ _ => false;
     IsReschedulable := fun _ => true;
     ReschedulingCost := fun _ => S754_zero false;
     LifetimeRemaining := fun _ _ _ => S754_zero false;
     Sentence := fun s => s;
     Quote := fun s => s;
     Blocked := blocked |}.

Definition claimWithGracePeriod : NodeClaim :=
  {| NodeClaim_Name := "claim-a";
     StatusConditions := ∅;
     TerminationGracePeriod := Some 3600 |}.

Definition managedNode : StateNode :=
  {| SN_Node := {| Node_Name := "node-a";
                   Node_Labels := {[ NodePoolLabelKey := "default" ]} |};
     SN_NodeClaim := Some claimWithGracePeriod |}.

Definition pdbBlocks : error :=
  PodBlockEvictionError (errorString "pdb default/web prevents pod evictions").

(** The collaborators of [InsufficientCapacityErrorEvents] in a cluster
    without pods. *)
Definition lifecycleDeps : Lifecycle.Deps :=
  {| Lifecycle.truncateMessage := fun s => s;
     Lifecycle.TrimSpace := fun s => s;
     Lifecycle.kubeGet := fun _ _ => Lifecycle.NotFound |}.

(** A cluster that has the pod default/web and no other. *)
Definition webPod : Lifecycle.Pod :=
  {| Lifecycle.Pod_Namespace := "default"; Lifecycle.Pod_Name := "web";
     Lifecycle.Pod_UID := "uid-web" |}.

Definition clusterWithWeb : Lifecycle.Deps :=
  {| Lifecycle.truncateMessage := fun s => s;
     Lifecycle.TrimSpace := fun s => s;
     Lifecycle.kubeGet := fun ns name =>
       if String.eqb ns "default" && String.eqb name "web"
       then Lifecycle.Found webPod else Lifecycle.NotFound |}.

(** The node claim of the lifecycle controller that carries the
    annotations written for [replacement]. *)
Definition nominatedClaim : Lifecycle.NodeClaim :=
  let r := Provisioning.annotateNodeClaimWithNominatedPods
             replacement {| Provisioning.Annotations := None |} ∅ in
  {| Lifecycle.Name := "claim-a"; Lifecycle.UID := "uid-a";
     Lifecycle.Annotations :=
       Some (Provisioning.deref (snd r) (Provisioning.Annotations (fst r)));
     Lifecycle.Requirements := [] |}.

(** A simulator for which the node "a" is being deleted and every other
    simulation fails. *)
Definition deletingFirst (c : Candidate) : Results * option error :=
  if String.eqb (nodeName c) "a" then deleting c else failing c.

End Samples.

(** * Properties *)

(** ** Command.Decision *)

Section DecisionProperties.
Import Disruption.

Lemma Command_Decision_sizes (c : Command) :
  Command_Decision c = decision_of_sizes (length (candidates c)) (length (replacements c)).
Proof.
  unfold Command_Decision.
  destruct (candidates c), (replacements c); reflexivity.
Qed.

(** C6: [Decision] is replace exactly when candidates and replacements are
    both non-empty, delete exactly when there are candidates and no
    replacements, and no-op in every other case, that is whenever there
    are no candidates, with or without replacements. It is computed from
    the two lengths alone: the [Command] record has no field for it. *)
Theorem Command_Decision_spec (c : Command) :
  (Command_Decision c = ReplaceDecision <-> candidates c <> [] /\ replacements c <> []) /\
  (Command_Decision c = DeleteDecision <-> candidates c <> [] /\ replacements c = []) /\
  (Command_Decision c = NoOpDecision <->
     ~ (candidates c <> [] /\ replacements c <> []) /\
     ~ (candidates c <> [] /\ replacements c = [])) /\
  (candidates c = [] -> Command_Decision c = NoOpDecision) /\
  Command_Decision c = decision_of_sizes (length (candidates c)) (length (replacements c)) /\
  (forall c' : Command,
      length (candidates c') = length (candidates c) ->
      length (replacements c') = length (replacements c) ->
      Command_Decision c' = Command_Decision c).
Proof.
  split; [|split; [|split; [|split; [|split]]]].
  1-3: unfold Command_Decision;
       destruct (candidates c), (replacements c); simpl; intuition congruence.
  - intros H. rewrite Command_Decision_sizes, H. reflexivity.
  - apply Command_Decision_sizes.
  - intros c' H1 H2. rewrite !Command_Decision_sizes. congruence.
Qed.

End DecisionProperties.

(** ** NewCandidate *)

Section NewCandidateProperties.
Import Go Events Disruption.

(** C4: when the validation of the pods fails with a blocking-pod eviction
    error, [NewCandidate] still returns a candidate, with no error and no
    event, exactly when the disruption class is eventual and the node
    claim has a termination grace period; otherwise it publishes the
    blocked event and returns the validation error and no candidate. *)
Theorem NewCandidate_blocking_pod_error
    (D : CandidateDeps) (kubeClient : KubeClient D) (clk : Clock D)
    (node : StateNode) (pdbs : PDBLimits D)
    (nodePoolMap : gmap string NodePool)
    (nodePoolToInstanceTypesMap : gmap string (gmap string InstanceType))
    (queue : Queue D) (disruptionClass : string)
    (pool : NodePool) (instanceTypeMap : gmap string InstanceType)
    (pods : list Pod) (e : error) (nodeClaim : NodeClaim) :
  ValidateNodeDisruptable D node = None ->
  HasAny D queue (ProviderID D node) = false ->
  nodePoolMap !! label (Labels D node) NodePoolLabelKey = Some pool ->
  nodePoolToInstanceTypesMap !! label (Labels D node) NodePoolLabelKey = Some instanceTypeMap ->
  ValidatePodsDisruptable D node kubeClient pdbs = (pods, Some e) ->
  IsPodBlockEvictionError e = true ->
  SN_NodeClaim node = Some nodeClaim ->
  let r := NewCandidate D kubeClient clk node pdbs nodePoolMap
             nodePoolToInstanceTypesMap queue disruptionClass in
  let downgraded :=
    disruptionClass = EventualDisruptionClass /\ TerminationGracePeriod nodeClaim <> None in
  ((exists c, snd r = Return (Some c) None) <-> downgraded) /\
  (downgraded ->
     fst r = [] /\
     exists c, snd r = Return (Some c) None /\
               nodePool c = pool /\
               reschedulablePods c = List.filter (IsReschedulable D) pods) /\
  (~ downgraded ->
     r = (Blocked D (SN_Node node) (Some nodeClaim) (Sentence D (Error e)),
          Return None (Some e))).
Proof.
  intros Hnode Hqueue Hpool Hitm Hpods Hblock Hclaim r downgraded.
  subst r downgraded. unfold NewCandidate.
  rewrite Hnode, Hqueue, Hpool, Hitm, Hpods, Hclaim. cbn [IgnorePodBlockEvictionError].
  rewrite Hblock. unfold Ternary.
  destruct (String.eqb_spec disruptionClass EventualDisruptionClass) as [Hc | Hc];
    destruct (TerminationGracePeriod nodeClaim) as [tgp |] eqn:Htgp.
  - rewrite bool_decide_eq_true_2 by discriminate. simpl.
    split; [|split].
    + split; [intros _; split; [assumption | discriminate] | eauto].
    + intros _. split; [reflexivity |]. eexists. split; [reflexivity |]. split; reflexivity.
    + intros H. exfalso. apply H. split; [assumption | discriminate].
  - rewrite bool_decide_eq_false_2 by (intros H; apply H; reflexivity). simpl.
    split; [|split].
    + split; [intros [c Hc']; discriminate | intros [_ H]; congruence].
    + intros [_ H]; congruence.
    + reflexivity.
  - rewrite andb_false_r. simpl.
    split; [|split].
    + split; [intros [c Hc']; discriminate | intros [H _]; congruence].
    + intros [H _]; congruence.
    + reflexivity.
  - rewrite andb_false_r. simpl.
    split; [|split].
    + split; [intros [c Hc']; discriminate | intros [H _]; congruence].
    + intros [H _]; congruence.
    + reflexivity.
Qed.

End NewCandidateProperties.

(** ** consolidationMessage *)

Section MessageProperties.
Import Go Events Disruption.

Local Open Scope string_scope.

Lemma string_app_assoc (a b c : string) : (a ++ b) ++ c = a ++ (b ++ c).
Proof.
  induction a as [| ch a IH]; [reflexivity |].
  change (String ch ((a ++ b) ++ c) = String ch (a ++ (b ++ c))). now rewrite IH.
Qed.

Lemma string_app_nil_r (a : string) : a ++ "" = a.
Proof.
  induction a as [| ch a IH]; [reflexivity |].
  change (String ch (a ++ "") = String ch a). now rewrite IH.
Qed.

(** A loop that only appends leaves what was there in front. *)
Lemma fold_left_appends {A} (f : string -> A -> string) (l : list A) :
  (forall msg a, exists more, f msg a = msg ++ more) ->
  forall msg, exists more, fold_left f l msg = msg ++ more.
Proof.
  intros Hf. induction l as [| a l IH]; intros msg; simpl.
  - exists "". now rewrite string_app_nil_r.
  - destruct (Hf msg a) as [m1 ->]. destruct (IH (msg ++ m1)) as [m2 ->].
    exists (m1 ++ m2). apply string_app_assoc.
Qed.

Lemma offeringInfo_appends ito msg offering :
  exists more, offeringInfo ito msg offering = msg ++ more.
Proof. unfold offeringInfo. eauto. Qed.

Lemma replacementInfo_appends msg nc :
  exists more, replacementInfo msg nc = msg ++ more.
Proof.
  unfold replacementInfo.
  destruct (fold_left_appends
              (fun msg ito => fold_left (offeringInfo ito) (Offerings ito) msg)
              (InstanceTypeOptions nc)) with (msg := msg ++ " with offerings: [")
    as [more Hmore].
  - intros m ito. apply fold_left_appends. intros. apply offeringInfo_appends.
  - rewrite Hmore. exists (" with offerings: [" ++ more ++ " ]").
    now rewrite !string_app_assoc.
Qed.

(** C8: with at least one replacement the message names the total price
    to three decimals, so with the candidate price 0.042 it contains
    "total price of 0.042"; without replacements it ends with the note
    that the node is removed without replacement. *)
Theorem consolidationMessage_spec
    (Name : StateNode -> string) (cands : list Candidate) (results : Results) :
  (NewNodeClaims results <> [] ->
     (forall candidatePrice,
         contains (consolidationMessage Name cands results candidatePrice)
                  ("total price of " ++ Sprintf_3f candidatePrice)) /\
     contains (consolidationMessage Name cands results f0_042) "total price of 0.042") /\
  (NewNodeClaims results = [] ->
     forall candidatePrice,
       ends_with (consolidationMessage Name cands results candidatePrice)
                 " is underutilized and will be removed without replacement").
Proof.
  assert (Hgen : NewNodeClaims results <> [] -> forall candidatePrice,
             contains (consolidationMessage Name cands results candidatePrice)
                      ("total price of " ++ Sprintf_3f candidatePrice)).
  { intros Hne price. unfold consolidationMessage, contains.
    destruct (NewNodeClaims results) as [| nc ncs] eqn:Hncs; [congruence |].
    cbn [length Nat.ltb Nat.leb].
    destruct (fold_left_appends replacementInfo (nc :: ncs) replacementInfo_appends
                (fold_left (candidateInfo Name) cands "" ++
                 " with a total price of " ++ Sprintf_3f price ++ " is being replaced"))
      as [more ->].
    exists (fold_left (candidateInfo Name) cands "" ++ " with a "),
           (" is being replaced" ++ more).
    rewrite !string_app_assoc. reflexivity. }
  split.
  - intros Hne. split; [exact (Hgen Hne) |].
    exact (Hgen Hne f0_042).
  - intros Hnil price. unfold consolidationMessage, ends_with.
    rewrite Hnil. cbn [length Nat.ltb Nat.leb]. eauto.
Qed.

End MessageProperties.

(** ** annotateNodeClaimWithNominatedPods *)

Section AnnotateProperties.
Import Go Provisioning.

Lemma copy_loop (m : gmap string string) :
  map_fold (fun k v (acc : gmap string string) => <[k := v]> acc) ∅ m = m.
Proof.
  apply (map_fold_weak_ind (fun acc m => acc = m)); [reflexivity |].
  intros k v m' acc _ ->. reflexivity.
Qed.

Lemma len_slice_to (n : nat) (s : string) : (len (slice_to n s) <= n)%nat.
Proof.
  unfold len. revert s. induction n as [| n IH]; intros s; [simpl; lia |].
  destruct s as [| c s]; simpl; [lia |]. specialize (IH s). lia.
Qed.

Lemma len_nominatedPodsOf (pods : list Disruption.Pod) :
  (len (nominatedPodsOf pods) <= 4096)%nat.
Proof.
  unfold nominatedPodsOf.
  destruct (4096 <? len (fold_left writePod pods ""))%nat eqn:Hlen.
  - apply len_slice_to.
  - apply Nat.ltb_ge in Hlen. exact Hlen.
Qed.

(** C9, as the code has it: the call makes the node claim refer to a newly
    allocated map that holds the old annotations and, under the key
    "karpenter.indeed.com/nominated-pods", the pods' keys written as
    [namespace/name] each followed by a comma, cut to at most 4096 bytes;
    every other key keeps its value, and no map that existed before the
    call is changed. *)
Theorem annotateNodeClaimWithNominatedPods_spec
    (n : Disruption.SchedulingNodeClaim) (nodeClaim : NodeClaim) (h : Heap) :
  let r := annotateNodeClaimWithNominatedPods n nodeClaim h in
  let value := nominatedPodsOf (Disruption.Pods n) in
  let written := fold_left writePod (Disruption.Pods n) "" in
  (exists l, Annotations (fst r) = Some l /\ h !! l = None) /\
  deref (snd r) (Annotations (fst r))
    = <[NominatedPodsKey := value]> (deref h (Annotations nodeClaim)) /\
  deref (snd r) (Annotations (fst r)) !! NominatedPodsKey = Some value /\
  (forall k, k <> NominatedPodsKey ->
     deref (snd r) (Annotations (fst r)) !! k = deref h (Annotations nodeClaim) !! k) /\
  (forall l, is_Some (h !! l) -> snd r !! l = h !! l) /\
  (len value <= 4096)%nat /\
  value = (if (4096 <? len written)%nat then slice_to 4096 written else written).
Proof.
  intros r value written. subst r value written.
  unfold annotateNodeClaimWithNominatedPods. cbn [fst snd Annotations].
  rewrite copy_loop.
  pose proof (is_fresh (dom h)) as Hfresh.
  assert (Hnone : h !! fresh (dom h) = None) by (apply not_elem_of_dom; exact Hfresh).
  assert (Hderef : deref (<[fresh (dom h) :=
                              <[NominatedPodsKey := nominatedPodsOf (Disruption.Pods n)]>
                                (deref h (Annotations nodeClaim))]> h)
                         (Some (fresh (dom h)))
                   = <[NominatedPodsKey := nominatedPodsOf (Disruption.Pods n)]>
                       (deref h (Annotations nodeClaim))).
  { unfold deref at 1. cbn. rewrite lookup_insert_eq. reflexivity. }
  split; [eauto |]. split; [exact Hderef |]. rewrite Hderef.
  split; [apply lookup_insert_eq |].
  split; [intros k Hk; apply lookup_insert_ne; congruence |].
  split.
  - intros l [x Hl]. apply lookup_insert_ne. congruence.
  - split; [apply len_nominatedPodsOf | reflexivity].
Qed.

(** C9 as worded fails: for the one pod default/web the annotation is
    "default/web," with its closing comma, which is not the comma-joined
    list "default/web". *)
Lemma annotate_value_is_not_comma_joined :
  let pods := [ {| Disruption.Pod_Namespace := "default"; Disruption.Pod_Name := "web" |} ] in
  let n := {| Disruption.InstanceTypeOptions := []; Disruption.Pods := pods |} in
  let r := annotateNodeClaimWithNominatedPods n {| Annotations := None |} ∅ in
  deref (snd r) (Annotations (fst r)) !! NominatedPodsKey = Some "default/web," /\
  slice_to 4096 (commaJoined pods) = "default/web" /\
  deref (snd r) (Annotations (fst r)) !! NominatedPodsKey
    <> Some (slice_to 4096 (commaJoined pods)).
Proof.
  cbv zeta. vm_compute. split; [reflexivity |]. split; [reflexivity |].
  intros H; inversion H.
Qed.

End AnnotateProperties.

(** ** InsufficientCapacityErrorEvents *)

Section CapacityEventProperties.
Import Go Events Lifecycle.

Variable X : Deps.
Variables instanceTypes awsZone errMsg : string.

Lemma nominatedPod_malformed acc entry :
  well_formed_entry entry = false ->
  nominatedPod X instanceTypes awsZone errMsg acc entry = acc.
Proof.
  unfold well_formed_entry, nominatedPod. intros H.
  destruct (Split "/" entry) as [| a [| b [| c l]]]; try reflexivity.
  discriminate H.
Qed.

Lemma nominatedPod_extends acc entry :
  exists more, fst (nominatedPod X instanceTypes awsZone errMsg acc entry) = fst acc ++ more.
Proof.
  unfold nominatedPod.
  destruct (Split "/" entry) as [| a [| b [| c l]]];
    try (exists []; now rewrite app_nil_r).
  destruct (kubeGet X (TrimSpace X a) (TrimSpace X b)); cbn [fst].
  - eauto.
  - exists []; now rewrite app_nil_r.
  - exists []; now rewrite app_nil_r.
Qed.

Lemma nominatedPods_extend entries : forall acc,
  exists more,
    fst (fold_left (nominatedPod X instanceTypes awsZone errMsg) entries acc) = fst acc ++ more.
Proof.
  induction entries as [| entry entries IH]; intros acc; cbn [fold_left].
  - exists []; now rewrite app_nil_r.
  - destruct (IH (nominatedPod X instanceTypes awsZone errMsg acc entry)) as [m2 ->].
    destruct (nominatedPod_extends acc entry) as [m1 ->].
    exists (m1 ++ m2). now rewrite app_assoc.
Qed.

Lemma nominatedPods_skip_malformed entries : forall acc,
  fold_left (nominatedPod X instanceTypes awsZone errMsg) entries acc
  = fold_left (nominatedPod X instanceTypes awsZone errMsg)
              (List.filter well_formed_entry entries) acc.
Proof.
  induction entries as [| entry entries IH]; intros acc; cbn [fold_left List.filter].
  - reflexivity.
  - destruct (well_formed_entry entry) eqn:Hwf; cbn [fold_left].
    + apply IH.
    + rewrite nominatedPod_malformed by exact Hwf. apply IH.
Qed.

End CapacityEventProperties.

Section CapacityEventTheorem.
Import Go Events Lifecycle.

(** C10: the list returned is never empty; its first event is attached to
    the node claim and carries the truncated error message. Events for
    pods follow only when the nominated-pods annotation is there and not
    empty, and an entry of the annotation that does not have exactly one
    slash adds no event and logs no error: the result is the one computed
    from the well-formed entries alone. *)
Theorem InsufficientCapacityErrorEvents_spec
    (X : Deps) (nodeClaim : NodeClaim) (errText : string) :
  let r := InsufficientCapacityErrorEvents X nodeClaim errText in
  let first := nodeClaimEvent X nodeClaim errText in
  (exists podEvents, fst r = first :: podEvents) /\
  InvolvedObject first = ObjNodeClaim (Name nodeClaim) /\
  Message first
    = ("NodeClaim " ++ Name nodeClaim ++ " event: " ++ truncateMessage X errText)%string /\
  (Annotations nodeClaim = None -> r = ([first], [])) /\
  (forall annotations,
      Annotations nodeClaim = Some annotations ->
      default "" (annotations !! NominatedPodsKey) = "" -> r = ([first], [])) /\
  (forall annotations,
      Annotations nodeClaim = Some annotations ->
      default "" (annotations !! NominatedPodsKey) <> "" ->
      r = fold_left (nominatedPod X (instanceTypesOf (Requirements nodeClaim))
                                  (zoneOf (Requirements nodeClaim))
                                  (truncateMessage X errText))
                    (List.filter well_formed_entry
                       (Split "," (default "" (annotations !! NominatedPodsKey))))
                    ([first], [])) /\
  (forall instanceTypes awsZone errMsg acc entry,
      well_formed_entry entry = false ->
      nominatedPod X instanceTypes awsZone errMsg acc entry = acc).
Proof.
  intros r first. subst r first. unfold InsufficientCapacityErrorEvents.
  split; [| split; [reflexivity | split; [reflexivity |]]].
  - destruct (Annotations nodeClaim) as [annotations |]; [| cbn; eauto].
    destruct (String.eqb (default "" (annotations !! NominatedPodsKey)) "");
      [cbn; eauto |].
    match goal with
    | |- context [fold_left (nominatedPod X ?a ?b ?c) ?l ?acc] =>
        destruct (nominatedPods_extend X a b c l acc) as [more ->]
    end.
    cbn. eauto.
  - split; [intros ->; reflexivity |].
    split; [| split].
    + intros annotations -> Hempty. rewrite Hempty. reflexivity.
    + intros annotations -> Hne.
      destruct (String.eqb_spec (default "" (annotations !! NominatedPodsKey)) "") as [He | _];
        [contradiction |].
      apply nominatedPods_skip_malformed.
    + intros. now apply nominatedPod_malformed.
Qed.

End CapacityEventTheorem.

(** ** The budget mapping *)

Section BudgetProperties.
Import Go Disruption.

Lemma wrap_int (z : Z) : is_int z -> wrap z = z.
Proof.
  unfold is_int, wrap, MinInt, MaxInt. intros H.
  rewrite Z.mod_small by lia. lia.
Qed.

Lemma is_int_wrap (z : Z) : is_int (wrap z).
Proof.
  unfold is_int, wrap, MinInt, MaxInt.
  pose proof (Z.mod_pos_bound (z + 2 ^ 63) (2 ^ 64)). lia.
Qed.

Lemma budget_is_int (m : Budgets) pool reason :
  budgets_are_ints m -> is_int (budget m pool reason).
Proof.
  intros Hm. unfold budget.
  destruct (m !! pool) as [inner |] eqn:Hp; cbn; [| unfold is_int, MinInt, MaxInt; lia].
  destruct (inner !! reason) as [v |] eqn:Hr; cbn; [eauto |].
  unfold is_int, MinInt, MaxInt; lia.
Qed.

(** A positive entry is there to be written. *)
Lemma budget_positive_inner (m : Budgets) pool reason :
  0 < budget m pool reason -> exists inner, m !! pool = Some inner.
Proof.
  unfold budget. destruct (m !! pool); cbn; [eauto | lia].
Qed.

Lemma budget_decrement_same (m : Budgets) pool reason :
  budgets_are_ints m -> 0 < budget m pool reason ->
  budget (decrement m pool reason) pool reason = budget m pool reason - 1.
Proof.
  intros Hm Hpos. pose proof (budget_is_int m pool reason Hm) as Hint.
  destruct (budget_positive_inner _ _ _ Hpos) as [inner Hin].
  unfold decrement, budget in *. rewrite Hin in *. cbn in *.
  rewrite lookup_insert_eq. cbn. rewrite lookup_insert_eq. cbn.
  unfold dec. apply wrap_int. unfold is_int, MinInt, MaxInt in *. lia.
Qed.

Lemma budget_decrement_other (m : Budgets) pool reason pool' reason' :
  pool' <> pool \/ reason' <> reason ->
  budget (decrement m pool reason) pool' reason' = budget m pool' reason'.
Proof.
  intros Hne. unfold decrement, budget.
  destruct (m !! pool) as [inner |] eqn:Hin; [| reflexivity].
  destruct (decide (pool' = pool)) as [-> | Hp].
  - rewrite lookup_insert_eq, Hin. cbn.
    destruct Hne as [Hne | Hne]; [congruence |].
    rewrite lookup_insert_ne by congruence. reflexivity.
  - rewrite lookup_insert_ne by congruence. reflexivity.
Qed.

Lemma budgets_are_ints_decrement (m : Budgets) pool reason :
  budgets_are_ints m -> budgets_are_ints (decrement m pool reason).
Proof.
  intros Hm p inner r v Hp Hr. unfold decrement in Hp.
  destruct (m !! pool) as [inner0 |] eqn:Hin; [| eauto].
  destruct (decide (p = pool)) as [-> | Hne].
  - rewrite lookup_insert_eq in Hp. injection Hp as <-.
    destruct (decide (r = reason)) as [-> | Hr'].
    + rewrite lookup_insert_eq in Hr. injection Hr as <-. apply is_int_wrap.
    + rewrite lookup_insert_ne in Hr by congruence. eauto.
  - rewrite lookup_insert_ne in Hp by congruence. eauto.
Qed.

End BudgetProperties.

(** ** The scan for empty candidates *)

Section ScanEmptyProperties.
Import Go Disruption.

Lemma has_pods_not_empty (c : Candidate) :
  (0 <? length (reschedulablePods c))%nat = negb (isEmpty c).
Proof. unfold isEmpty. destruct (reschedulablePods c); reflexivity. Qed.

Lemma isEmpty_nil (c : Candidate) : isEmpty c = true <-> reschedulablePods c = [].
Proof. unfold isEmpty. destruct (reschedulablePods c); cbn; split; congruence. Qed.

Lemma inPool_true pool c : inPool pool c = true <-> nodePoolName c = pool.
Proof. unfold inPool. apply String.eqb_eq. Qed.

Lemma countPool_cons pool c l :
  countPool pool (c :: l) = ((if inPool pool c then 1 else 0) + countPool pool l)%nat.
Proof. unfold countPool. cbn. destruct (inPool pool c); reflexivity. Qed.

Lemma countPool_app pool l1 l2 :
  countPool pool (l1 ++ l2) = (countPool pool l1 + countPool pool l2)%nat.
Proof. unfold countPool. rewrite List.filter_app, length_app. reflexivity. Qed.

(** One unfolding of the loop, by the three cases of its body. *)
Lemma scanEmpty_cons (m : Budgets) c rest :
  scanEmpty m (c :: rest) =
    if isEmpty c && (0 <? budget m (nodePoolName c) Drift_Reason)
    then (c :: fst (scanEmpty (decrement m (nodePoolName c) Drift_Reason) rest),
          snd (scanEmpty (decrement m (nodePoolName c) Drift_Reason) rest))
    else scanEmpty m rest.
Proof.
  cbn [scanEmpty]. rewrite has_pods_not_empty.
  destruct (isEmpty c); cbn; [| reflexivity].
  destruct (0 <? budget m (nodePoolName c) Drift_Reason); [| reflexivity].
  destruct (scanEmpty _ rest); reflexivity.
Qed.

Lemma scanEmpty_ints l : forall m,
  budgets_are_ints m -> budgets_are_ints (snd (scanEmpty m l)).
Proof.
  induction l as [| c rest IH]; intros m Hm; [exact Hm |].
  rewrite scanEmpty_cons.
  destruct (isEmpty c && _); cbn [snd]; [| eauto].
  apply IH; apply budgets_are_ints_decrement; exact Hm.
Qed.

(** What the scan takes from a pool is what it takes off its budget. *)
Lemma scanEmpty_budget l : forall m pool,
  budgets_are_ints m ->
  budget (snd (scanEmpty m l)) pool Drift_Reason
  = budget m pool Drift_Reason - Z.of_nat (countPool pool (fst (scanEmpty m l))).
Proof.
  induction l as [| c rest IH]; intros m pool Hm.
  - cbn. unfold countPool. cbn. lia.
  - rewrite scanEmpty_cons.
    destruct (isEmpty c && (0 <? budget m (nodePoolName c) Drift_Reason)) eqn:Htake;
      cbn [fst snd]; [| eauto].
    apply andb_true_iff in Htake as [_ Hpos]. apply Z.ltb_lt in Hpos.
    rewrite IH by (apply budgets_are_ints_decrement; exact Hm).
    rewrite countPool_cons.
    destruct (inPool pool c) eqn:Hin.
    + apply inPool_true in Hin. subst pool.
      rewrite budget_decrement_same by assumption. lia.
    + rewrite budget_decrement_other; [lia |].
      left. intros ->. unfold inPool in Hin. rewrite String.eqb_refl in Hin. discriminate.
Qed.

Lemma scanEmpty_other_reasons l : forall m pool reason,
  reason <> Drift_Reason ->
  budget (snd (scanEmpty m l)) pool reason = budget m pool reason.
Proof.
  induction l as [| c rest IH]; intros m pool reason Hr; [reflexivity |].
  rewrite scanEmpty_cons.
  destruct (isEmpty c && _); cbn [snd]; [| eauto].
  rewrite IH by assumption. apply budget_decrement_other. right. assumption.
Qed.

(** A scan that takes nothing writes nothing. *)
Lemma scanEmpty_nothing l : forall m,
  fst (scanEmpty m l) = [] -> snd (scanEmpty m l) = m.
Proof.
  induction l as [| c rest IH]; intros m; [reflexivity |].
  rewrite scanEmpty_cons.
  destruct (isEmpty c && _); cbn [fst snd]; [discriminate | apply IH].
Qed.

Lemma scanEmpty_takes_empty l : forall m,
  Forall (fun c => isEmpty c = true /\ In c l) (fst (scanEmpty m l)).
Proof.
  induction l as [| c rest IH]; intros m; [constructor |].
  rewrite scanEmpty_cons.
  destruct (isEmpty c && (0 <? budget m (nodePoolName c) Drift_Reason)) eqn:Htake;
    cbn [fst].
  - apply andb_true_iff in Htake as [He _].
    constructor; [split; [assumption | left; reflexivity] |].
    eapply Forall_impl; [apply IH |]. cbn. intros x [? ?]. split; [assumption | right; assumption].
  - eapply Forall_impl; [apply IH |]. cbn. intros x [? ?]. split; [assumption | right; assumption].
Qed.

(** An empty candidate whose pool has budget on entry makes the batch
    non-empty. *)
Lemma scanEmpty_finds l : forall m c,
  In c l -> isEmpty c = true -> 0 < budget m (nodePoolName c) Drift_Reason ->
  fst (scanEmpty m l) <> [].
Proof.
  induction l as [| c0 rest IH]; intros m c Hin He Hpos; [destruct Hin |].
  rewrite scanEmpty_cons.
  destruct (isEmpty c0 && (0 <? budget m (nodePoolName c0) Drift_Reason)) eqn:Htake;
    cbn [fst]; [discriminate |].
  destruct Hin as [-> | Hin].
  - rewrite He in Htake. cbn in Htake. apply Z.ltb_ge in Htake. lia.
  - eauto.
Qed.

(** How many candidates of a pool the scan takes: as many as the pool has
    empty candidates, up to its budget. *)
Lemma scanEmpty_count l : forall m pool,
  budgets_are_ints m ->
  Z.of_nat (countPool pool (fst (scanEmpty m l)))
  = Z.max 0 (Z.min (budget m pool Drift_Reason)
                   (Z.of_nat (countPool pool (List.filter isEmpty l)))).
Proof.
  induction l as [| c rest IH]; intros m pool Hm.
  - cbn. unfold countPool. cbn. lia.
  - rewrite scanEmpty_cons. cbn [List.filter].
    destruct (isEmpty c) eqn:He; cbn [andb]; [| apply IH; exact Hm].
    rewrite countPool_cons.
    destruct (0 <? budget m (nodePoolName c) Drift_Reason) eqn:Hpos; cbn [fst].
    + apply Z.ltb_lt in Hpos. rewrite countPool_cons, !Nat2Z.inj_add.
      rewrite IH by (apply budgets_are_ints_decrement; exact Hm).
      destruct (inPool pool c) eqn:Hin.
      * apply inPool_true in Hin. subst pool.
        rewrite budget_decrement_same by assumption. lia.
      * rewrite budget_decrement_other; [lia |].
        left. intros ->. unfold inPool in Hin. rewrite String.eqb_refl in Hin. discriminate.
    + apply Z.ltb_ge in Hpos. rewrite Nat2Z.inj_add, IH by assumption.
      destruct (inPool pool c) eqn:Hin; [| lia].
      apply inPool_true in Hin. subst pool. lia.
Qed.

End ScanEmptyProperties.

Section ScanEmptyWithinBudget.
Import Go Disruption.

Variable m0 : Budgets.

Lemma midway_start : midway m0 m0 [].
Proof.
  intros pool. cbv zeta.
  change (countPool pool (List.filter isEmpty [])) with 0%nat.
  change (Z.of_nat 0) with 0.
  destruct (0 <? budget m0 pool Drift_Reason) eqn:H;
    [apply Z.ltb_lt in H | apply Z.ltb_ge in H]; lia.
Qed.

Lemma seen_snoc pool seen c :
  Z.of_nat (countPool pool (List.filter isEmpty (seen ++ [c])))
  = Z.of_nat (countPool pool (List.filter isEmpty seen))
    + (if isEmpty c && inPool pool c then 1 else 0).
Proof.
  rewrite List.filter_app, countPool_app, Nat2Z.inj_add. f_equal.
  cbn [List.filter]. destruct (isEmpty c); cbn [andb]; [| reflexivity].
  rewrite countPool_cons. change (countPool pool []) with 0%nat.
  destruct (inPool pool c); reflexivity.
Qed.

Lemma scanEmpty_within_budget l : forall m seen,
  budgets_are_ints m -> midway m0 m seen ->
  fst (scanEmpty m l) = emptyWithinBudget m0 seen l.
Proof.
  induction l as [| c rest IH]; intros m seen Hm Hmid; [reflexivity |].
  rewrite scanEmpty_cons. cbn [emptyWithinBudget].
  pose proof (Hmid (nodePoolName c)) as Hc. cbv zeta in Hc.
  assert (Hsame : (0 <? budget m (nodePoolName c) Drift_Reason)
                  = (Z.of_nat (countPool (nodePoolName c) (List.filter isEmpty seen))
                     <? budget m0 (nodePoolName c) Drift_Reason)).
  { rewrite Hc.
    destruct (_ <? budget m0 (nodePoolName c) Drift_Reason) eqn:H;
      [apply Z.ltb_lt in H; apply Z.ltb_lt | apply Z.ltb_ge in H; apply Z.ltb_ge]; lia. }
  rewrite <- Hsame.
  destruct (isEmpty c) eqn:He; cbn [andb].
  - destruct (0 <? budget m (nodePoolName c) Drift_Reason) eqn:Hpos; cbn [fst app].
    + f_equal. apply IH; [apply budgets_are_ints_decrement; exact Hm |].
      apply Z.ltb_lt in Hpos.
      intros pool. cbv zeta. rewrite seen_snoc, He. cbn [andb].
      pose proof (Hmid pool) as Hp. cbv zeta in Hp.
      destruct (inPool pool c) eqn:Hin.
      * apply inPool_true in Hin. subst pool.
        rewrite budget_decrement_same by assumption. rewrite Hp in *.
        destruct (_ <? budget m0 (nodePoolName c) Drift_Reason) eqn:H1;
          [apply Z.ltb_lt in H1 | apply Z.ltb_ge in H1; lia].
        destruct (_ + 1 <? budget m0 (nodePoolName c) Drift_Reason) eqn:H2;
          [apply Z.ltb_lt in H2 | apply Z.ltb_ge in H2]; lia.
      * rewrite budget_decrement_other, Z.add_0_r; [exact Hp |].
        left. intros ->. unfold inPool in Hin. rewrite String.eqb_refl in Hin. discriminate.
    + apply IH; [exact Hm |].
      apply Z.ltb_ge in Hpos.
      intros pool. cbv zeta. rewrite seen_snoc, He. cbn [andb].
      pose proof (Hmid pool) as Hp. cbv zeta in Hp.
      destruct (inPool pool c) eqn:Hin; [| rewrite Z.add_0_r; exact Hp].
      apply inPool_true in Hin. subst pool. rewrite Hp in *.
      destruct (_ <? budget m0 (nodePoolName c) Drift_Reason) eqn:H1;
        [apply Z.ltb_lt in H1; lia | apply Z.ltb_ge in H1].
      destruct (_ + 1 <? budget m0 (nodePoolName c) Drift_Reason) eqn:H2;
        [apply Z.ltb_lt in H2 | apply Z.ltb_ge in H2]; lia.
  - cbn [app]. apply IH; [exact Hm |].
    intros pool. cbv zeta. rewrite seen_snoc, He. cbn [andb]. rewrite Z.add_0_r.
    apply Hmid.
Qed.

End ScanEmptyWithinBudget.

(** ** The scan with the scheduling simulation *)

Section ScanCandidatesProperties.
Import Go Events Disruption.

Variable D : DriftDeps.
Variable m : Budgets.

(** A candidate whose pool has no budget left is passed over. *)
Lemma scanCandidates_skip c rest w trace :
  budget m (nodePoolName c) Drift_Reason = 0 ->
  scanCandidates D m (c :: rest) w trace = scanCandidates D m rest w trace.
Proof. intros H. cbn [scanCandidates]. rewrite H. reflexivity. Qed.

(** The simulation reports that the candidate is being deleted: the scan
    goes on with the next candidate. *)
Lemma scanCandidates_deleting c rest w trace res e w' :
  budget m (nodePoolName c) Drift_Reason <> 0 ->
  SimulateScheduling D w c = ((res, Some e), w') ->
  Is_errCandidateDeleting e = true ->
  scanCandidates D m (c :: rest) w trace
  = scanCandidates D m rest w' (trace ++ [Simulated c]).
Proof.
  intros Hb Hsim Hdel. cbn [scanCandidates].
  apply Z.eqb_neq in Hb. rewrite Hb, Hsim, Hdel. reflexivity.
Qed.

(** Any other simulation error ends the scan at once. *)
Lemma scanCandidates_fatal c rest w trace res e w' :
  budget m (nodePoolName c) Drift_Reason <> 0 ->
  SimulateScheduling D w c = ((res, Some e), w') ->
  Is_errCandidateDeleting e = false ->
  scanCandidates D m (c :: rest) w trace
  = ((Command_zero, Results_zero, Some e), (w', trace ++ [Simulated c])).
Proof.
  intros Hb Hsim Hdel. cbn [scanCandidates].
  apply Z.eqb_neq in Hb. rewrite Hb, Hsim, Hdel. reflexivity.
Qed.

Lemma scanCandidates_all_skipped cands w trace :
  Forall (fun c => budget m (nodePoolName c) Drift_Reason = 0) cands ->
  scanCandidates D m cands w trace = ((Command_zero, Results_zero, None), (w, trace)).
Proof.
  induction 1 as [| c rest Hc _ IH]; [reflexivity |].
  rewrite scanCandidates_skip by exact Hc. exact IH.
Qed.

Lemma scan_end_cons c cands r trace : scan_end D m cands r trace -> scan_end D m (c :: cands) r trace.
Proof.
  destruct 1; [constructor | constructor 2 | constructor 3]; auto; right; assumption.
Qed.

Lemma scanCandidates_end cands : forall w trace,
  scan_end D m cands (fst (scanCandidates D m cands w trace))
           (snd (snd (scanCandidates D m cands w trace))).
Proof.
  induction cands as [| c rest IH]; intros w trace; [constructor |].
  cbn [scanCandidates].
  destruct (budget m (nodePoolName c) Drift_Reason =? 0) eqn:Hb;
    [apply scan_end_cons, IH |].
  apply Z.eqb_neq in Hb.
  destruct (SimulateScheduling D w c) as [[res [e |]] w'].
  - destruct (Is_errCandidateDeleting e) eqn:Hdel; [apply scan_end_cons, IH |].
    cbn [fst snd]. constructor 2; [assumption | left; reflexivity].
  - destruct (AllNonPendingPodsScheduled D res) eqn:Hall; cbn [negb];
      [| apply scan_end_cons, IH].
    cbn [fst snd]. constructor 3; [left; reflexivity | assumption | assumption].
Qed.

(** The scan only adds to the effects. *)
Lemma scanCandidates_trace cands : forall w trace,
  exists more, snd (snd (scanCandidates D m cands w trace)) = trace ++ more.
Proof.
  induction cands as [| c rest IH]; intros w trace; [exists []; now rewrite app_nil_r |].
  cbn [scanCandidates].
  destruct (budget m (nodePoolName c) Drift_Reason =? 0); [apply IH |].
  destruct (SimulateScheduling D w c) as [[res [e |]] w'].
  - destruct (Is_errCandidateDeleting e).
    + destruct (IH w' (trace ++ [Simulated c])) as [more ->].
      rewrite <- app_assoc. eauto.
    + cbn [snd]. eauto.
  - destruct (AllNonPendingPodsScheduled D res); cbn [negb snd]; [eauto |].
    match goal with
    | |- context [scanCandidates D m rest w' ?t] => destruct (IH w' t) as [more ->]
    end.
    rewrite <- !app_assoc. eauto.
Qed.

(** The scan, once it has passed over the first candidates, is the scan
    of the others from where that left the world and the effects. *)
Lemma scanCandidates_passOver before : forall rest w trace w1 t1,
  passOver D m before w trace = Some (w1, t1) ->
  scanCandidates D m (before ++ rest) w trace = scanCandidates D m rest w1 t1.
Proof.
  induction before as [| c before IH]; intros rest w trace w1 t1 Hpass;
    cbn [passOver] in Hpass.
  - injection Hpass as <- <-. reflexivity.
  - cbn [app scanCandidates].
    destruct (budget m (nodePoolName c) Drift_Reason =? 0); [apply IH, Hpass |].
    destruct (SimulateScheduling D w c) as [[res [e |]] w'].
    + destruct (Is_errCandidateDeleting e); [apply IH, Hpass | discriminate].
    + destruct (AllNonPendingPodsScheduled D res); [discriminate |].
      cbn [negb]. apply IH, Hpass.
Qed.

Lemma passOver_snoc before : forall c w trace w1 t1 w2 t2,
  passOver D m before w trace = Some (w1, t1) ->
  passOver D m [c] w1 t1 = Some (w2, t2) ->
  passOver D m (before ++ [c]) w trace = Some (w2, t2).
Proof.
  induction before as [| c0 before IH]; intros c w trace w1 t1 w2 t2 Hpass Hc;
    cbn [passOver app] in Hpass |- *.
  - injection Hpass as <- <-. exact Hc.
  - destruct (budget m (nodePoolName c0) Drift_Reason =? 0); [eapply IH; eassumption |].
    destruct (SimulateScheduling D w c0) as [[res [e |]] w'].
    + destruct (Is_errCandidateDeleting e); [eapply IH; eassumption | discriminate].
    + destruct (AllNonPendingPodsScheduled D res); [discriminate | eapply IH; eassumption].
Qed.

(** When every simulation says that the candidate is being deleted, all
    the candidates are passed over. *)
Lemma scanCandidates_all_deleting cands : forall w trace,
  Forall (fun c => forall w', exists res e w'',
                     SimulateScheduling D w' c = ((res, Some e), w'') /\
                     Is_errCandidateDeleting e = true) cands ->
  fst (scanCandidates D m cands w trace) = (Command_zero, Results_zero, None).
Proof.
  induction cands as [| c rest IH]; intros w trace Hall; [reflexivity |].
  inversion Hall as [| ? ? Hc Hrest]; subst. cbn [scanCandidates].
  destruct (budget m (nodePoolName c) Drift_Reason =? 0); [apply IH, Hrest |].
  destruct (Hc w) as (res & e & w'' & -> & ->). apply IH, Hrest.
Qed.

End ScanCandidatesProperties.

(** ** Insertion sort *)

Section InsertionSortProperties.
Import Disruption.

Context {A : Type} (less : A -> A -> bool).

Lemma insert_from_right_perm x r : Permutation (x :: r) (insert_from_right less x r).
Proof.
  induction r as [| y r IH]; cbn; [reflexivity |].
  destruct (less x y); [| reflexivity].
  rewrite perm_swap. constructor. exact IH.
Qed.

Lemma insertion_loop_perm l : forall r,
  Permutation (rev l ++ r)
              (fold_left (fun sorted_rev x => insert_from_right less x sorted_rev) l r).
Proof.
  induction l as [| x l IH]; intros r; cbn [fold_left rev]; [reflexivity |].
  rewrite <- IH, <- app_assoc. cbn [app].
  apply Permutation_app_head, insert_from_right_perm.
Qed.

Lemma insertionSort_perm l : Permutation l (insertionSort less l).
Proof.
  unfold insertionSort. rewrite <- Permutation_rev.
  rewrite <- insertion_loop_perm, app_nil_r. apply Permutation_rev.
Qed.

Hypothesis Hless : strict_weak_order less.

Lemma less_asym a b : less a b = true -> less b a = false.
Proof.
  destruct Hless as (Hirr & Htrans & _). intros Hab.
  destruct (less b a) eqn:Hba; [| reflexivity].
  rewrite <- (Hirr a). symmetry. eauto.
Qed.

Lemma insert_from_right_descending x r :
  descending less r -> descending less (insert_from_right less x r).
Proof.
  destruct Hless as (Hirr & Htrans & Hneg).
  induction 1 as [| y r Hr IH Hy]; cbn.
  - repeat constructor.
  - destruct (less x y) eqn:Hxy.
    + constructor; [exact IH |].
      apply Forall_forall. intros z Hz.
      rewrite <- insert_from_right_perm in Hz.
      apply elem_of_cons in Hz as [-> | Hz]; [apply less_asym; exact Hxy |].
      rewrite Forall_forall in Hy. auto.
    + constructor; [constructor; assumption |].
      constructor; [exact Hxy |].
      rewrite Forall_forall in Hy |- *. intros z Hz. eapply Hneg; eauto.
Qed.

Lemma insertion_loop_descending l : forall r,
  descending less r ->
  descending less (fold_left (fun sorted_rev x => insert_from_right less x sorted_rev) l r).
Proof.
  induction l as [| x l IH]; intros r Hr; cbn [fold_left]; [exact Hr |].
  apply IH, insert_from_right_descending, Hr.
Qed.

Lemma descending_rev_sorted r : descending less r -> sorted_by less (rev r).
Proof.
  induction 1 as [| y r Hr IH Hy]; cbn [rev]; intros i j a b Hij Ha Hb.
  - rewrite lookup_nil in Ha. discriminate.
  - pose proof (lookup_lt_Some _ _ _ Hb) as Hj. rewrite length_app in Hj. cbn in Hj.
    destruct (decide (j < length (rev r))%nat) as [Hlt | Hge].
    + rewrite lookup_app_l in Ha, Hb by lia. exact (IH i j a b Hij Ha Hb).
    + rewrite lookup_app_l in Ha by lia. rewrite lookup_app_r in Hb by lia.
      replace (j - length (rev r))%nat with 0%nat in Hb by lia.
      cbn in Hb. injection Hb as <-.
      rewrite Forall_forall in Hy. apply Hy.
      apply list_elem_of_lookup_2 in Ha.
      apply list_elem_of_In. apply list_elem_of_In, in_rev in Ha. exact Ha.
Qed.

Lemma insertionSort_sorted l : sorted_by less (insertionSort less l).
Proof.
  unfold insertionSort. apply descending_rev_sorted, insertion_loop_descending.
  constructor.
Qed.

End InsertionSortProperties.

(** ** Drift.ComputeCommand *)

Section ComputeCommandProperties.
Import Go Events Disruption.

Variable D : DriftDeps.

Lemma filter_Permutation {A} (p : A -> bool) (l l' : list A) :
  Permutation l l' -> Permutation (List.filter p l) (List.filter p l').
Proof.
  induction 1 as [| x l l' _ IH | x y l | l l' l'' _ IH1 _ IH2]; cbn.
  - constructor.
  - destruct (p x); [constructor |]; exact IH.
  - destruct (p x), (p y); try reflexivity. apply perm_swap.
  - etransitivity; eassumption.
Qed.

Lemma countPool_Permutation pool l l' :
  Permutation l l' -> countPool pool l = countPool pool l'.
Proof. intros H. unfold countPool. apply Permutation_length, filter_Permutation, H. Qed.

(** A list of candidates of one pool is counted whole. *)
Lemma countPool_all pool l :
  Forall (fun c => nodePoolName c = pool) l -> countPool pool l = length l.
Proof.
  induction 1 as [| c l Hc _ IH]; [reflexivity |].
  rewrite countPool_cons, IH. apply inPool_true in Hc. rewrite Hc. reflexivity.
Qed.

(** The return of line 91. *)
Lemma ComputeCommand_fast_path m cands w :
  tookFastPath D m cands = true ->
  Drift_ComputeCommand D m cands w =
    {| command := {| candidates := fst (scanEmpty m (sort_Slice D lessDrifted cands));
                     replacements := [] |};
       results := Results_zero; err := None;
       budgets := snd (scanEmpty m (sort_Slice D lessDrifted cands));
       world := w; effects := [] |}.
Proof.
  unfold tookFastPath, Drift_ComputeCommand. intros H.
  destruct (scanEmpty m (sort_Slice D lessDrifted cands)) as [empty m'].
  cbn [fst snd] in *. rewrite H. reflexivity.
Qed.

(** The returns of lines 133, 144 and 149: the budgets are those on entry. *)
Lemma ComputeCommand_simulation_path m cands w :
  tookFastPath D m cands = false ->
  let resorted := sort_SliceStable (lessUnevictable D w) (sort_Slice D lessDrifted cands) in
  let r := scanCandidates D m resorted w [] in
  Drift_ComputeCommand D m cands w =
    {| command := fst (fst (fst r)); results := snd (fst (fst r)); err := snd (fst r);
       budgets := m; world := fst (snd r); effects := snd (snd r) |}.
Proof.
  unfold tookFastPath, Drift_ComputeCommand. intros H. cbv zeta.
  pose proof (scanEmpty_nothing (sort_Slice D lessDrifted cands) m) as Hm.
  destruct (scanEmpty m (sort_Slice D lessDrifted cands)) as [empty m'].
  cbn [fst snd] in *. rewrite H.
  assert (empty = []) as -> by (destruct empty; [reflexivity | discriminate]).
  rewrite Hm by reflexivity.
  destruct (scanCandidates D m _ w []) as [[[cmd res] e] [w' trace]]. reflexivity.
Qed.

Lemma tookFastPath_false m cands :
  tookFastPath D m cands = false ->
  fst (scanEmpty m (sort_Slice D lessDrifted cands)) = [].
Proof.
  unfold tookFastPath.
  destruct (fst (scanEmpty m (sort_Slice D lessDrifted cands))); [reflexivity | discriminate].
Qed.

Lemma tookFastPath_true m cands :
  tookFastPath D m cands = true <->
  fst (scanEmpty m (sort_Slice D lessDrifted cands)) <> [].
Proof.
  unfold tookFastPath.
  destruct (fst (scanEmpty m (sort_Slice D lessDrifted cands))); cbn; split;
    congruence.
Qed.

Hypothesis Hperm : sort_Slice_permutes D.

Lemma resorted_Permutation w cands :
  Permutation cands
    (sort_SliceStable (lessUnevictable D w) (sort_Slice D lessDrifted cands)).
Proof.
  unfold sort_SliceStable. rewrite <- insertionSort_perm. apply Hperm.
Qed.

Lemma fast_path_when_budget m cands c :
  In c cands -> reschedulablePods c = [] ->
  0 < budget m (nodePoolName c) Drift_Reason ->
  tookFastPath D m cands = true.
Proof.
  intros Hin He Hpos. apply tookFastPath_true.
  apply scanEmpty_finds with (c := c); [| apply isEmpty_nil; exact He | exact Hpos].
  eapply Permutation_in; [apply Hperm | exact Hin].
Qed.

(** A call that goes on to the simulations and passes over the first
    candidates of the sorted list does what the scan of the others does
    from there. *)
Lemma ComputeCommand_after_passOver m cands w before rest w1 t1 :
  tookFastPath D m cands = false ->
  sort_SliceStable (lessUnevictable D w) (sort_Slice D lessDrifted cands) = before ++ rest ->
  passOver D m before w [] = Some (w1, t1) ->
  Drift_ComputeCommand D m cands w = outcomeOf m (scanCandidates D m rest w1 t1).
Proof.
  intros Hfast Hsplit Hpass.
  rewrite ComputeCommand_simulation_path by exact Hfast. cbv zeta.
  rewrite Hsplit, (scanCandidates_passOver D m before rest w [] w1 t1 Hpass). reflexivity.
Qed.

(** The candidate that the scan reaches and whose simulation places all
    the pods is returned, alone, with the new node claims of that
    simulation. *)
Lemma ComputeCommand_returns m cands w before c after w1 t1 res w2 :
  tookFastPath D m cands = false ->
  sort_SliceStable (lessUnevictable D w) (sort_Slice D lessDrifted cands)
    = before ++ c :: after ->
  passOver D m before w [] = Some (w1, t1) ->
  budget m (nodePoolName c) Drift_Reason <> 0 ->
  SimulateScheduling D w1 c = ((res, None), w2) ->
  AllNonPendingPodsScheduled D res = true ->
  Drift_ComputeCommand D m cands w
  = {| command := {| candidates := [c]; replacements := NewNodeClaims res |};
       results := res; err := None; budgets := m; world := w2;
       effects := t1 ++ [Simulated c] |}.
Proof.
  intros Hfast Hsplit Hpass Hb Hsim Hall.
  rewrite (ComputeCommand_after_passOver m cands w before (c :: after) w1 t1 Hfast Hsplit Hpass).
  cbn [scanCandidates]. apply Z.eqb_neq in Hb. rewrite Hb, Hsim, Hall. reflexivity.
Qed.

(** The candidate that the scan reaches and whose simulation fails, but
    for its being deleted, ends the call with that error. *)
Lemma ComputeCommand_aborts m cands w before c after w1 t1 res e w2 :
  tookFastPath D m cands = false ->
  sort_SliceStable (lessUnevictable D w) (sort_Slice D lessDrifted cands)
    = before ++ c :: after ->
  passOver D m before w [] = Some (w1, t1) ->
  budget m (nodePoolName c) Drift_Reason <> 0 ->
  SimulateScheduling D w1 c = ((res, Some e), w2) ->
  Is_errCandidateDeleting e = false ->
  Drift_ComputeCommand D m cands w
  = {| command := Command_zero; results := Results_zero; err := Some e;
       budgets := m; world := w2; effects := t1 ++ [Simulated c] |}.
Proof.
  intros Hfast Hsplit Hpass Hb Hsim Hdel.
  rewrite (ComputeCommand_after_passOver m cands w before (c :: after) w1 t1 Hfast Hsplit Hpass).
  rewrite (scanCandidates_fatal D m c after w1 t1 res e w2 Hb Hsim Hdel). reflexivity.
Qed.

(** The scan that passes over every candidate ends with the empty
    command. *)
Lemma ComputeCommand_exhausts m cands w w1 t1 :
  tookFastPath D m cands = false ->
  passOver D m (sort_SliceStable (lessUnevictable D w) (sort_Slice D lessDrifted cands)) w []
    = Some (w1, t1) ->
  Drift_ComputeCommand D m cands w
  = {| command := Command_zero; results := Results_zero; err := None;
       budgets := m; world := w1; effects := t1 |}.
Proof.
  intros Hfast Hpass.
  rewrite (ComputeCommand_after_passOver m cands w _ [] w1 t1 Hfast
             (eq_sym (app_nil_r _)) Hpass).
  reflexivity.
Qed.

Lemma passOver_deleting m c w1 t1 res e w2 :
  SimulateScheduling D w1 c = ((res, Some e), w2) ->
  Is_errCandidateDeleting e = true ->
  passOver D m [c] w1 t1
  = Some (if (budget m (nodePoolName c) Drift_Reason =? 0)%Z then (w1, t1)
          else (w2, t1 ++ [Simulated c])).
Proof.
  intros Hsim Hdel. cbn [passOver].
  destruct (budget m (nodePoolName c) Drift_Reason =? 0); [reflexivity |].
  rewrite Hsim, Hdel. reflexivity.
Qed.

End ComputeCommandProperties.

(** ** sort.Slice permutes the slice *)

Section SlicePermutes.
Import Sort.

Context {A : Type} (less : A -> A -> bool).

Lemma Swap_perm (data : list A) i j : Permutation (Swap data i j) data.
Proof.
  unfold Swap.
  destruct (data !! i) as [x |] eqn:Hi; [| reflexivity].
  destruct (data !! j) as [y |] eqn:Hj; [| reflexivity].
  apply Permutation_insert_swap; assumption.
Qed.

Lemma fold_left_perm {B} (f : list A -> B -> list A) (steps : list B) :
  (forall data b, Permutation (f data b) data) ->
  forall data, Permutation (fold_left f steps data) data.
Proof.
  intros Hf. induction steps as [| b steps IH]; intros data; cbn; [reflexivity |].
  rewrite IH. apply Hf.
Qed.

Lemma shiftLeft_perm j : forall data a, Permutation (shiftLeft less data a j) data.
Proof.
  induction j as [| j IH]; intros data a; cbn [shiftLeft]; [reflexivity |].
  destruct ((a <? S j)%nat && Less less data (S j) j); [| reflexivity].
  rewrite IH. apply Swap_perm.
Qed.

Lemma insertionSort_func_perm data a b : Permutation (insertionSort_func less data a b) data.
Proof.
  unfold insertionSort_func. apply fold_left_perm. intros. apply shiftLeft_perm.
Qed.

Lemma siftDown_perm fuel : forall data root hi first,
  Permutation (siftDown less fuel data root hi first) data.
Proof.
  induction fuel as [| fuel IH]; intros data root hi first; cbn [siftDown]; [reflexivity |].
  destruct (hi <=? 2 * root + 1)%nat; [reflexivity |].
  destruct (negb _); [reflexivity |].
  rewrite IH. apply Swap_perm.
Qed.

Lemma heapSort_func_perm data a b : Permutation (heapSort_func less data a b) data.
Proof.
  unfold heapSort_func, siftDown_func.
  rewrite fold_left_perm; [apply fold_left_perm |].
  - intros. apply siftDown_perm.
  - intros. rewrite siftDown_perm. apply Swap_perm.
Qed.

Lemma reverseRange_func_perm (data : list A) a b :
  Permutation (reverseRange_func data a b) data.
Proof.
  unfold reverseRange_func. generalize (b - a)%nat as fuel, (b - 1)%nat as j.
  intros fuel. revert data a.
  induction fuel as [| fuel IH]; intros data i j; cbn [reverseLoop]; [reflexivity |].
  destruct (i <? j)%nat; [| reflexivity].
  rewrite IH. apply Swap_perm.
Qed.

Lemma shiftSmaller_perm j : forall data, Permutation (shiftSmaller less data j) data.
Proof.
  induction j as [| j IH]; intros data; cbn [shiftSmaller]; [reflexivity |].
  destruct (negb _); [reflexivity |].
  rewrite IH. apply Swap_perm.
Qed.

Lemma shiftGreater_perm fuel : forall data j b,
  Permutation (shiftGreater less fuel data j b) data.
Proof.
  induction fuel as [| fuel IH]; intros data j b; cbn [shiftGreater]; [reflexivity |].
  destruct (j <? b)%nat; [| reflexivity].
  destruct (negb _); [reflexivity |].
  rewrite IH. apply Swap_perm.
Qed.

Lemma partialInsertionSort_func_perm data a b :
  Permutation (fst (partialInsertionSort_func less data a b)) data.
Proof.
  unfold partialInsertionSort_func. generalize 5%nat as steps, (a + 1)%nat as i.
  intros steps. revert data.
  induction steps as [| steps IH]; intros data i; cbn [partialSteps]; [reflexivity |].
  destruct (_ =? b)%nat; [reflexivity |].
  destruct (b - a <? 50)%nat; [reflexivity |].
  rewrite IH.
  transitivity (Swap data (advance less (b - i) data i b) (advance less (b - i) data i b - 1));
    [| apply Swap_perm].
  destruct (2 <=? b - _)%nat; [rewrite shiftGreater_perm |];
    (destruct (2 <=? _ - a)%nat; [rewrite shiftSmaller_perm |]); reflexivity.
Qed.

Lemma breakPatterns_func_perm (data : list A) a b :
  Permutation (breakPatterns_func data a b) data.
Proof.
  unfold breakPatterns_func. destruct (8 <=? b - a)%nat; [| reflexivity].
  generalize (seq 0 3) as steps, (Z.of_nat (b - a)) as random.
  intros steps. revert data.
  induction steps as [| i steps IH]; intros data random; cbn [fold_left fst]; [reflexivity |].
  rewrite IH. apply Swap_perm.
Qed.

Lemma partitionLoop_perm fuel : forall data a i j,
  Permutation (fst (partitionLoop less fuel data a i j)) data.
Proof.
  induction fuel as [| fuel IH]; intros data a i j; cbn [partitionLoop fst]; [reflexivity |].
  destruct (_ <? _)%nat; [reflexivity |].
  rewrite IH. apply Swap_perm.
Qed.

Lemma partition_func_perm data a b pivot :
  Permutation (fst (fst (partition_func less data a b pivot))) data.
Proof.
  unfold partition_func.
  destruct (_ <? _)%nat; cbn [fst].
  - rewrite !Swap_perm. reflexivity.
  - match goal with
    | |- context [partitionLoop less ?f ?d ?x ?y ?z] =>
        pose proof (partitionLoop_perm f d x y z) as H;
        destruct (partitionLoop less f d x y z) as [d' j']
    end.
    cbn [fst] in *. rewrite Swap_perm, H, !Swap_perm. reflexivity.
Qed.

Lemma partitionEqual_func_perm data a b pivot :
  Permutation (fst (partitionEqual_func less data a b pivot)) data.
Proof.
  unfold partitionEqual_func.
  transitivity (Swap data a pivot); [| apply Swap_perm].
  generalize (Swap data a pivot) as d, (b - a)%nat as fuel, (a + 1)%nat as i, (b - 1)%nat as j.
  intros d fuel. revert d.
  induction fuel as [| fuel IH]; intros d i j; cbn [partitionEqualLoop fst]; [reflexivity |].
  destruct (_ <? _)%nat; [reflexivity |].
  rewrite IH. apply Swap_perm.
Qed.

Lemma pdqsort_perm fuel : forall data a b limit wasBalanced wasPartitioned,
  Permutation (pdqsort less fuel data a b limit wasBalanced wasPartitioned) data.
Proof.
  induction fuel as [| fuel IH]; intros data a b limit wasBalanced wasPartitioned;
    cbn [pdqsort]; [reflexivity |].
  destruct (b - a <=? 12)%nat; [apply insertionSort_func_perm |].
  destruct (limit =? 0)%nat; [apply heapSort_func_perm |].
  set (broken := if negb wasBalanced then (breakPatterns_func data a b, (limit - 1)%nat)
                 else (data, limit)).
  assert (Hbroken : Permutation (fst broken) data).
  { subst broken. destruct (negb wasBalanced); cbn [fst];
      [apply breakPatterns_func_perm | reflexivity]. }
  destruct broken as [data1 limit1]. cbn [fst] in Hbroken.
  destruct (choosePivot_func less data1 a b) as [pivot hint].
  set (oriented := match hint with
                   | decreasingHint =>
                       (reverseRange_func data1 a b, (b - 1 - (pivot - a))%nat, increasingHint)
                   | _ => (data1, pivot, hint)
                   end).
  assert (Horiented : Permutation (fst (fst oriented)) data1).
  { subst oriented. destruct hint; cbn [fst]; try reflexivity.
    apply reverseRange_func_perm. }
  destruct oriented as [[data2 pivot2] hint2]. cbn [fst] in Horiented.
  set (partial := match hint2 with
                  | increasingHint =>
                      if wasBalanced && wasPartitioned
                      then partialInsertionSort_func less data2 a b
                      else (data2, false)
                  | _ => (data2, false)
                  end).
  assert (Hpartial : Permutation (fst partial) data2).
  { subst partial. destruct hint2; cbn [fst]; try reflexivity.
    destruct (wasBalanced && wasPartitioned); [| reflexivity].
    apply partialInsertionSort_func_perm. }
  destruct partial as [data3 done]. cbn [fst] in Hpartial.
  assert (H3 : Permutation data3 data)
    by (rewrite Hpartial, Horiented, Hbroken; reflexivity).
  destruct done; [exact H3 |].
  destruct ((0 <? a)%nat && negb (Less less data3 (a - 1) pivot2)).
  - pose proof (partitionEqual_func_perm data3 a b pivot2) as Hp.
    destruct (partitionEqual_func less data3 a b pivot2) as [data4 mid]. cbn [fst] in Hp.
    rewrite IH, Hp. exact H3.
  - pose proof (partition_func_perm data3 a b pivot2) as Hp.
    destruct (partition_func less data3 a b pivot2) as [[data4 mid] already].
    cbn [fst] in Hp.
    destruct (mid - a <? b - mid)%nat; rewrite !IH, Hp; exact H3.
Qed.

Lemma Slice_perm (data : list A) : Permutation data (Slice less data).
Proof. unfold Slice. symmetry. apply pdqsort_perm. Qed.

End SlicePermutes.

(** ** sort.Slice sorts the slice *)

Section SliceSorts.
Import Sort Disruption.
Local Open Scope nat_scope.

Context {A : Type} (less : A -> A -> bool).
Hypothesis Hless : strict_weak_order less.

Local Abbreviation le x y := (less y x = false).
Local Abbreviation moving := (Sort.moving less).
Local Abbreviation barrier := (Sort.barrier less).
Local Abbreviation partitioning := (Sort.partitioning less).
Local Abbreviation partitioned := (Sort.partitioned less).
Local Abbreviation partitioningEqual := (Sort.partitioningEqual less).
Local Abbreviation heap_from := (Sort.heap_from less).
Local Abbreviation semi_heap := (Sort.semi_heap less).
Local Abbreviation extracting := (Sort.extracting less).

Lemma le_refl x : le x x.
Proof. apply Hless. Qed.

Lemma le_trans x y z : le x y -> le y z -> le x z.
Proof. destruct Hless as (_ & _ & H). intros Hxy Hyz. eapply H; eauto. Qed.

Lemma less_le x y : less x y = true -> le x y.
Proof.
  destruct Hless as (Hirr & Htrans & _). intros Hxy.
  destruct (less y x) eqn:Hyx; [| reflexivity].
  rewrite <- (Hirr x). symmetry. eauto.
Qed.

Lemma less_le_trans x y z : less x y = true -> le y z -> less x z = true.
Proof.
  destruct Hless as (_ & _ & H). intros Hxy Hyz.
  destruct (less x z) eqn:Hxz; [reflexivity |].
  rewrite <- Hxy. symmetry. eapply H; eauto.
Qed.

Lemma le_less_trans x y z : le x y -> less y z = true -> less x z = true.
Proof.
  destruct Hless as (_ & _ & H). intros Hxy Hyz.
  destruct (less x z) eqn:Hxz; [reflexivity |].
  rewrite <- Hyz. symmetry. eapply H; eauto.
Qed.

(** *** Less and Swap *)

Lemma Less_lookup (data : list A) i j x y :
  data !! i = Some x -> data !! j = Some y -> Less less data i j = less x y.
Proof. unfold Less. intros -> ->. reflexivity. Qed.

Lemma Swap_length (data : list A) i j : length (Swap data i j) = length data.
Proof.
  unfold Swap. destruct (data !! i), (data !! j); try reflexivity.
  rewrite !length_insert. reflexivity.
Qed.

Lemma Swap_lookup (data : list A) i j k :
  i < length data -> j < length data ->
  Swap data i j !! k =
    if decide (k = j) then data !! i else if decide (k = i) then data !! j else data !! k.
Proof.
  intros Hi Hj. unfold Swap.
  destruct (lookup_lt_is_Some_2 data i Hi) as [x Hx].
  destruct (lookup_lt_is_Some_2 data j Hj) as [y Hy].
  rewrite Hx, Hy.
  destruct (decide (k = j)) as [-> | Hkj].
  - rewrite list_lookup_insert_eq by (rewrite length_insert; lia). reflexivity.
  - rewrite list_lookup_insert_ne by congruence.
    destruct (decide (k = i)) as [-> | Hki].
    + rewrite list_lookup_insert_eq by lia. reflexivity.
    + rewrite list_lookup_insert_ne by congruence. reflexivity.
Qed.

Lemma frame_refl a b (data : list A) : frame a b data data.
Proof. repeat split; auto. Qed.

Lemma frame_trans a b (d1 d2 d3 : list A) :
  frame a b d1 d2 -> frame a b d2 d3 -> frame a b d1 d3.
Proof.
  intros (L1 & O1 & P1) (L2 & O2 & P2). repeat split.
  - congruence.
  - intros k Hk. rewrite O2, O1 by exact Hk. reflexivity.
  - intros P HP. apply P2, P1, HP.
Qed.

Lemma frame_weaken a b a' b' (d d' : list A) :
  a' <= a -> b <= b' -> frame a b d d' -> frame a' b' d d'.
Proof.
  intros Ha Hb (L & O & P). repeat split.
  - exact L.
  - intros k Hk. apply O. lia.
  - intros Q HQ k x Hk Hx.
    destruct (decide (a <= k < b)) as [Hin | Hout].
    + apply (P Q) with (k := k); [| exact Hin | exact Hx].
      intros k0 x0 Hk0 Hx0. apply (HQ k0 x0); [lia | exact Hx0].
    + rewrite O in Hx by lia. apply (HQ k x); [lia | exact Hx].
Qed.

Lemma frame_Swap a b (data : list A) i j :
  a <= i < b -> a <= j < b -> b <= length data -> frame a b data (Swap data i j).
Proof.
  intros Hi Hj Hb. repeat split.
  - apply Swap_length.
  - intros k Hk. rewrite Swap_lookup by lia.
    repeat (destruct (decide _); try lia). reflexivity.
  - intros P HP k x Hk Hx. rewrite Swap_lookup in Hx by lia.
    destruct (decide (k = j)); [exact (HP i x Hi Hx) |].
    destruct (decide (k = i)); [exact (HP j x Hj Hx) |].
    exact (HP k x Hk Hx).
Qed.

(** *** insertionSort_func *)

Lemma moving_done (data : list A) a j i :
  a <= j <= i ->
  moving data a j i ->
  (forall xp xj, a < j -> data !! (j - 1) = Some xp -> data !! j = Some xj -> le xp xj) ->
  sorted_range less data a (i + 1).
Proof.
  intros Hj (Hpre & Hpost & Hcross & Hstrict) Hstop p q x y Hp Hpq Hq Hx Hy.
  destruct (decide (q < j)) as [Hqj | Hqj]; [eapply (Hpre p q); eauto; lia |].
  destruct (decide (j < p)) as [Hjp | Hjp]; [eapply (Hpost p q); eauto; lia |].
  destruct (decide (p = j)) as [-> | Hpj].
  - apply less_le. eapply (Hstrict q); eauto. lia.
  - destruct (decide (q = j)) as [-> | Hqj'].
    + destruct (lookup_lt_is_Some_2 data (j - 1)) as [xp Hxp];
        [apply lookup_lt_Some in Hy; lia |].
      apply le_trans with xp; [| apply Hstop; auto; lia].
      destruct (decide (p = j - 1)) as [-> | Hne]; [rewrite Hx in Hxp; injection Hxp as ->; apply le_refl |].
      eapply (Hpre p (j - 1)); eauto; lia.
    + eapply (Hcross p q); eauto; lia.
Qed.

Lemma barrier_frame (d d' : list A) a b : frame a b d d' -> barrier d a b -> barrier d' a b.
Proof.
  intros (_ & Ho & Hp) Hbar Ha. destruct (Hbar Ha) as (xpred & Hx & Hall).
  exists xpred. split; [rewrite Ho by lia; exact Hx | apply Hp, Hall].
Qed.

Lemma barrier_weaken (d : list A) a b b' : b' <= b -> barrier d a b -> barrier d a b'.
Proof.
  intros Hb Hbar Ha. destruct (Hbar Ha) as (xpred & Hx & Hall).
  exists xpred. split; [exact Hx |]. intros k x Hk. apply Hall. lia.
Qed.

Lemma shiftLeft_sorted j : forall (data : list A) a0 a i,
  a0 <= a -> a <= j <= i -> i < length data ->
  moving data a j i ->
  (a0 < a -> barrier data a (i + 1)) ->
  frame a (i + 1) data (shiftLeft less data a0 j) /\
  sorted_range less (shiftLeft less data a0 j) a (i + 1).
Proof.
  induction j as [| j IH]; intros data a0 a i Ha0 Hj Hi Hmov Hbar.
  - cbn [shiftLeft]. split; [apply frame_refl |].
    apply (moving_done data a 0 i); [lia | exact Hmov | intros; lia].
  - cbn [shiftLeft].
    destruct (lookup_lt_is_Some_2 data (S j)) as [xj Hxj]; [lia |].
    destruct (lookup_lt_is_Some_2 data j) as [xp Hxp]; [lia |].
    rewrite (Less_lookup data (S j) j xj xp Hxj Hxp).
    destruct ((a0 <? S j) && less xj xp) eqn:Hcond.
    + apply andb_true_iff in Hcond as [Ha Hlt]. apply Nat.ltb_lt in Ha.
      assert (Haj : a <= j).
      { destruct (decide (a <= j)) as [? | Hn]; [assumption | exfalso].
        assert (a = S j) by lia. subst a.
        destruct (Hbar ltac:(lia) ltac:(lia)) as (xpred & Hpred & Hall).
        replace (S j - 1) with j in Hpred by lia.
        rewrite Hxp in Hpred. injection Hpred as <-.
        specialize (Hall (S j) xj ltac:(lia) Hxj). cbn in Hall. congruence. }
      destruct Hmov as (Hpre & Hpost & Hcross & Hstrict).
      assert (Hsw : forall k, Swap data (S j) j !! k =
                if decide (k = j) then Some xj
                else if decide (k = S j) then Some xp else data !! k).
      { intros k. rewrite Swap_lookup by lia. rewrite Hxj, Hxp. reflexivity. }
      assert (Hfs : frame a (i + 1) data (Swap data (S j) j)) by (apply frame_Swap; lia).
      destruct (IH (Swap data (S j) j) a0 a i) as [Hf Hs].
      * lia.
      * lia.
      * rewrite Swap_length. lia.
      * repeat split.
        -- intros p q x y Hp Hpq Hq Hx Hy. rewrite Hsw in Hx, Hy.
           repeat (destruct (decide _) in Hx; try lia).
           repeat (destruct (decide _) in Hy; try lia).
           eapply (Hpre p q); eauto; lia.
        -- intros p q x y Hp Hpq Hq Hx Hy. rewrite Hsw in Hx, Hy.
           destruct (decide (p = j)); [lia |].
           destruct (decide (q = j)); [lia |].
           destruct (decide (q = S j)); [lia |].
           destruct (decide (p = S j)) as [-> | Hne].
           ++ injection Hx as <-. eapply (Hcross j q); eauto; lia.
           ++ eapply (Hpost p q); eauto; lia.
        -- intros k k' x y Hk Hk' Hx Hy. rewrite Hsw in Hx, Hy.
           destruct (decide (k = j)); [lia |].
           destruct (decide (k = S j)); [lia |].
           destruct (decide (k' = j)); [lia |].
           destruct (decide (k' = S j)) as [-> | Hne].
           ++ injection Hy as <-. eapply (Hpre k j); eauto; lia.
           ++ eapply (Hcross k k'); eauto; lia.
        -- intros k' x y Hk' Hx Hy. rewrite Hsw in Hx, Hy.
           destruct (decide (j = j)); [| lia]. injection Hx as <-.
           destruct (decide (k' = j)); [lia |].
           destruct (decide (k' = S j)) as [-> | Hne].
           ++ injection Hy as <-. exact Hlt.
           ++ eapply (Hstrict k'); eauto; lia.
      * intros Hlt0. eapply barrier_frame; [exact Hfs | apply Hbar, Hlt0].
      * split; [| exact Hs].
        eapply frame_trans; [exact Hfs | exact Hf].
    + split; [apply frame_refl |].
      apply (moving_done data a (S j) i); [lia | exact Hmov |].
      intros xp' xj' Ha Hxp' Hxj'.
      replace (S j - 1) with j in Hxp' by lia.
      rewrite Hxp in Hxp'. rewrite Hxj in Hxj'. injection Hxp' as <-. injection Hxj' as <-.
      apply andb_false_iff in Hcond as [Hc | Hc]; [apply Nat.ltb_ge in Hc; lia | exact Hc].
Qed.

Lemma insertionSort_func_sorted (data : list A) a b :
  a <= b <= length data ->
  frame a b data (insertionSort_func less data a b) /\
  sorted_range less (insertionSort_func less data a b) a b.
Proof.
  intros Hab. unfold insertionSort_func.
  assert (Hloop : forall n (d : list A) i,
            i + n = b \/ (n = 0 /\ b <= i) -> a < i \/ n = 0 ->
            length d = length data ->
            frame a b data d -> sorted_range less d a (Nat.min i b) ->
            let d' := fold_left (fun d i => shiftLeft less d a i) (seq i n) d in
            frame a b data d' /\ sorted_range less d' a b).
  { induction n as [| n IHn]; intros d i Hn Hi Hlen Hf Hs; cbn [seq fold_left].
    - split; [exact Hf |]. replace (Nat.min i b) with b in Hs by lia. exact Hs.
    - destruct Hn as [Hn | [Hn _]]; [| lia]. destruct Hi as [Hi | Hi]; [| lia].
      replace (Nat.min i b) with i in Hs by lia.
      destruct (shiftLeft_sorted i d a a i) as [Hf' Hs']; [lia | lia | lia | | lia |].
      { unfold Sort.moving, sorted_range. split; [exact Hs |]. split; [intros; lia |].
        split; intros; lia. }
      apply IHn.
      + left. lia.
      + left. lia.
      + destruct Hf' as [-> _]. exact Hlen.
      + eapply frame_trans; [exact Hf |]. eapply frame_weaken; [| | exact Hf']; lia.
      + replace (Nat.min (S i) b) with (i + 1) by lia. exact Hs'. }
  destruct (decide (a + 1 <= b)) as [Hlt | Hge].
  - apply Hloop; [left; lia | left; lia | reflexivity | apply frame_refl |].
    intros p q x y Hp Hpq Hq. lia.
  - replace (b - (a + 1)) with 0 by lia. cbn. split; [apply frame_refl |].
    intros p q x y Hp Hpq Hq. lia.
Qed.

(** *** The scans of the partitions *)

Lemma scanUp_spec (p : nat -> bool) fuel : forall i j,
  i <= j + 1 -> j + 1 - i <= fuel ->
  let i' := scanUp fuel p i j in
  i <= i' <= j + 1 /\
  (forall k, i <= k < i' -> p k = true) /\
  (i' <= j -> p i' = false).
Proof.
  induction fuel as [| fuel IH]; intros i j Hij Hfuel; cbn [scanUp].
  - repeat split; intros; lia.
  - destruct (i <=? j) eqn:Hle; cbn [andb].
    + apply Nat.leb_le in Hle. destruct (p i) eqn:Hp.
      * destruct (IH (i + 1) j) as (Hr & Hall & Hstop); [lia | lia |].
        cbv zeta in *. repeat split; try lia; [| exact Hstop].
        intros k Hk. destruct (decide (k = i)) as [-> | Hne]; [exact Hp | apply Hall; lia].
      * repeat split; intros; try lia; assumption.
    + apply Nat.leb_gt in Hle. repeat split; intros; lia.
Qed.

Lemma scanDown_spec (p : nat -> bool) fuel : forall i j,
  1 <= i -> i <= j + 1 -> j + 1 - i <= fuel ->
  let j' := scanDown fuel p i j in
  i <= j' + 1 /\ j' <= j /\
  (forall k, j' < k <= j -> p k = true) /\
  (i <= j' -> p j' = false).
Proof.
  induction fuel as [| fuel IH]; intros i j Hi Hij Hfuel; cbn [scanDown].
  - repeat split; intros; lia.
  - destruct (i <=? j) eqn:Hle; cbn [andb].
    + apply Nat.leb_le in Hle. destruct (p j) eqn:Hp.
      * destruct (IH i (j - 1)) as (Hr1 & Hr2 & Hall & Hstop); [lia | lia | lia |].
        cbv zeta in *. repeat split; try lia; [| exact Hstop].
        intros k Hk. destruct (decide (k = j)) as [-> | Hne]; [exact Hp | apply Hall; lia].
      * repeat split; intros; try lia; assumption.
    + apply Nat.leb_gt in Hle. repeat split; intros; lia.
Qed.

(** *** partition_func *)

Lemma partition_round (d : list A) a b p i j :
  partitioning d a b p i j ->
  let i' := scanUp (S j - i) (fun i => Less less d i a) i j in
  let j' := scanDown (S j - i') (fun j => negb (Less less d j a)) i' j in
  (j' < i' /\ partitioned d a b p j') \/
  (i' <= j' /\ a + 1 <= i' /\ i' < j' /\ j' < b /\ j' - i' <= j - i /\
   partitioning (Swap d i' j') a b p (i' + 1) (j' - 1)).
Proof.
  intros (Hb & Hp & Hi & Hj & Hij & Hlow & Hhigh) i' j'.
  destruct (scanUp_spec (fun i => Less less d i a) (S j - i) i j) as (Hi' & Hup & Hupstop);
    [lia | lia |]. fold i' in Hi', Hup, Hupstop.
  destruct (scanDown_spec (fun j => negb (Less less d j a)) (S j - i') i' j)
    as (Hj1 & Hj2 & Hdown & Hdownstop); [lia | lia | lia |].
  fold j' in Hj1, Hj2, Hdown, Hdownstop.
  assert (HLess : forall k x, k < b -> d !! k = Some x -> Less less d k a = less x p).
  { intros k x _ Hx. apply Less_lookup; assumption. }
  assert (Hlow' : all_range (fun x => less x p = true) d (a + 1) i').
  { intros k x Hk Hx. destruct (decide (k < i)); [apply (Hlow k x); [lia | exact Hx] |].
    rewrite <- (HLess k x) by (exact Hx || lia). apply Hup. lia. }
  assert (Hhigh' : all_range (fun x => le p x) d (j' + 1) b).
  { intros k x Hk Hx. destruct (decide (j < k)); [apply (Hhigh k x); [lia | exact Hx] |].
    rewrite <- (HLess k x) by (exact Hx || lia).
    apply negb_true_iff. apply Hdown. lia. }
  destruct (decide (j' < i')) as [Hcross | Hnot].
  - left. split; [exact Hcross |]. split; [lia |].
    replace (j' + 1) with i' by lia. split; [exact Hlow' |].
    replace i' with (j' + 1) by lia. exact Hhigh'.
  - right.
    destruct (lookup_lt_is_Some_2 d i') as [xi Hxi]; [lia |].
    destruct (lookup_lt_is_Some_2 d j') as [xj Hxj]; [lia |].
    assert (Hxi' : less xi p = false).
    { rewrite <- (HLess i' xi) by (exact Hxi || lia). apply Hupstop. lia. }
    assert (Hxj' : less xj p = true).
    { rewrite <- (HLess j' xj) by (exact Hxj || lia).
      apply negb_false_iff. apply Hdownstop. lia. }
    assert (Hne : i' <> j').
    { intros Heq. rewrite Heq in Hxi. rewrite Hxi in Hxj. injection Hxj as ->. congruence. }
    assert (Hsw : forall k, Swap d i' j' !! k =
              if decide (k = j') then Some xi
              else if decide (k = i') then Some xj else d !! k).
    { intros k. rewrite Swap_lookup by lia. rewrite Hxi, Hxj. reflexivity. }
    repeat split; try lia.
    + rewrite Swap_length. exact Hb.
    + rewrite Hsw. repeat (destruct (decide _); try lia). exact Hp.
    + intros k x Hk Hx. rewrite Hsw in Hx.
      destruct (decide (k = j')); [lia |].
      destruct (decide (k = i')); [injection Hx as <-; exact Hxj' |].
      apply (Hlow' k x); [lia | exact Hx].
    + intros k x Hk Hx. rewrite Hsw in Hx.
      destruct (decide (k = j')); [injection Hx as <-; exact Hxi' |].
      destruct (decide (k = i')); [lia |].
      apply (Hhigh' k x); [lia | exact Hx].
Qed.

Lemma partitionLoop_spec fuel : forall (d : list A) a b p i j,
  partitioning d a b p i j -> j + 1 - i < fuel ->
  frame (a + 1) b d (fst (partitionLoop less fuel d a i j)) /\
  partitioned (fst (partitionLoop less fuel d a i j)) a b p
              (snd (partitionLoop less fuel d a i j)).
Proof.
  induction fuel as [| fuel IH]; intros d a b p i j Hinv Hfuel; [lia |].
  cbn [partitionLoop].
  destruct (partition_round d a b p i j Hinv) as [[Hcross Hdone] | (Hle & Hi' & Hlt & Hj' & Hm & Hinv')].
  - apply Nat.ltb_lt in Hcross. rewrite Hcross. cbn [fst snd].
    split; [apply frame_refl | exact Hdone].
  - assert (Hno : (scanDown (S j - scanUp (S j - i) (fun i => Less less d i a) i j)
                      (fun j => negb (Less less d j a))
                      (scanUp (S j - i) (fun i => Less less d i a) i j) j
                    <? scanUp (S j - i) (fun i => Less less d i a) i j) = false)
      by (apply Nat.ltb_ge; exact Hle).
    rewrite Hno.
    destruct (IH _ a b p _ _ Hinv') as [Hf Hd]; [lia |].
    split; [| exact Hd].
    eapply frame_trans; [| exact Hf].
    apply frame_Swap; [lia | lia |]. apply Hinv.
Qed.

Lemma partition_func_spec (data : list A) a b pivot p :
  a < b <= length data -> a <= pivot < b -> data !! pivot = Some p ->
  let r := partition_func less data a b pivot in
  let d' := fst (fst r) in
  let mid := snd (fst r) in
  frame a b data d' /\
  a <= mid < b /\
  d' !! mid = Some p /\
  all_range (fun x => less x p = true) d' a mid /\
  all_range (fun x => le p x) d' (mid + 1) b.
Proof.
  intros Hab Hpivot Hp. cbv zeta. unfold partition_func.
  set (d0 := Swap data a pivot).
  assert (Hf0 : frame a b data d0) by (apply frame_Swap; lia).
  assert (Hlen0 : length d0 = length data) by apply Swap_length.
  assert (Hpa : d0 !! a = Some p).
  { subst d0. rewrite Swap_lookup by lia.
    destruct (decide (a = pivot)) as [<- | Hne]; [exact Hp |].
    destruct (decide (a = a)); [| lia].
    destruct (lookup_lt_is_Some_2 data a) as [xa Hxa]; [lia |]. exact Hp. }
  assert (Hinv : partitioning d0 a b p (a + 1) (b - 1)).
  { repeat split; try lia; try exact Hpa; intros k x Hk; lia. }
  (* the last swap *)
  assert (Hfinal : forall (d : list A) mid,
            frame (a + 1) b d0 d -> partitioned d a b p mid ->
            frame a b data (Swap d mid a) /\
            a <= mid < b /\
            Swap d mid a !! mid = Some p /\
            all_range (fun x => less x p = true) (Swap d mid a) a mid /\
            all_range (fun x => le p x) (Swap d mid a) (mid + 1) b).
  { intros d mid Hf (Hmid & Hlow & Hhigh).
    assert (Hlen : length d = length data) by (destruct Hf as [-> _]; exact Hlen0).
    assert (Hda : d !! a = Some p).
    { destruct Hf as (_ & Ho & _). rewrite Ho by lia. exact Hpa. }
    destruct (lookup_lt_is_Some_2 d mid) as [xm Hxm]; [lia |].
    assert (Hsw : forall k, Swap d mid a !! k =
              if decide (k = a) then Some xm
              else if decide (k = mid) then Some p else d !! k).
    { intros k. rewrite Swap_lookup by lia. rewrite Hxm, Hda. reflexivity. }
    split.
    { eapply frame_trans; [exact Hf0 |]. eapply frame_trans.
      - eapply frame_weaken; [| | exact Hf]; lia.
      - apply frame_Swap; lia. }
    split; [exact Hmid |]. split.
    { rewrite Hsw. destruct (decide (mid = a)) as [-> | Hne].
      - rewrite Hda in Hxm. congruence.
      - destruct (decide (mid = mid)); [reflexivity | lia]. }
    split.
    - intros k x Hk Hx. rewrite Hsw in Hx.
      destruct (decide (k = a)) as [-> | Hne].
      + injection Hx as <-. apply (Hlow mid xm); [lia | exact Hxm].
      + destruct (decide (k = mid)); [lia |]. apply (Hlow k x); [lia | exact Hx].
    - intros k x Hk Hx. rewrite Hsw in Hx.
      destruct (decide (k = a)); [lia |]. destruct (decide (k = mid)); [lia |].
      apply (Hhigh k x); [lia | exact Hx]. }
  destruct (partition_round d0 a b p (a + 1) (b - 1) Hinv)
    as [[Hcross Hdone] | (Hle & Hi' & Hlt & Hj' & Hm & Hinv')].
  - apply Nat.ltb_lt in Hcross. rewrite Hcross. cbn [fst snd].
    apply Hfinal; [apply frame_refl | exact Hdone].
  - assert (Hno : (scanDown (S (b - 1) - scanUp (S (b - 1) - (a + 1)) (fun i => Less less d0 i a) (a + 1) (b - 1))
                      (fun j => negb (Less less d0 j a))
                      (scanUp (S (b - 1) - (a + 1)) (fun i => Less less d0 i a) (a + 1) (b - 1)) (b - 1)
                    <? scanUp (S (b - 1) - (a + 1)) (fun i => Less less d0 i a) (a + 1) (b - 1)) = false)
      by (apply Nat.ltb_ge; exact Hle).
    rewrite Hno.
    match goal with
    | |- context [partitionLoop less ?f ?d ?x ?y ?z] =>
        destruct (partitionLoop_spec f d x b p y z Hinv') as [Hf Hd]; [lia |];
        destruct (partitionLoop less f d x y z) as [d2 j2]
    end.
    cbn [fst snd] in *.
    apply Hfinal; [| exact Hd].
    eapply frame_trans; [| exact Hf]. apply frame_Swap; lia.
Qed.

(** *** partitionEqual_func *)

Lemma partitionEqual_round (d : list A) a b p i j :
  partitioningEqual d a b p i j ->
  let i' := scanUp (S j - i) (fun i => negb (Less less d a i)) i j in
  let j' := scanDown (S j - i') (fun j => Less less d a j) i' j in
  (j' < i' /\ a + 1 <= i' <= b /\
   all_range (fun x => le x p) d (a + 1) i' /\
   all_range (fun x => less p x = true) d i' b) \/
  (i' <= j' /\ a + 1 <= i' /\ i' < j' /\ j' < b /\ j' - i' <= j - i /\
   partitioningEqual (Swap d i' j') a b p (i' + 1) (j' - 1)).
Proof.
  intros (Hb & Hp & Hi & Hj & Hij & Hlow & Hhigh) i' j'.
  destruct (scanUp_spec (fun i => negb (Less less d a i)) (S j - i) i j)
    as (Hi' & Hup & Hupstop); [lia | lia |]. fold i' in Hi', Hup, Hupstop.
  destruct (scanDown_spec (fun j => Less less d a j) (S j - i') i' j)
    as (Hj1 & Hj2 & Hdown & Hdownstop); [lia | lia | lia |].
  fold j' in Hj1, Hj2, Hdown, Hdownstop.
  assert (HLess : forall k x, d !! k = Some x -> Less less d a k = less p x).
  { intros k x Hx. apply Less_lookup; assumption. }
  assert (Hlow' : all_range (fun x => le x p) d (a + 1) i').
  { intros k x Hk Hx. destruct (decide (k < i)); [apply (Hlow k x); [lia | exact Hx] |].
    rewrite <- (HLess k x) by exact Hx. apply negb_true_iff. apply Hup. lia. }
  assert (Hhigh' : all_range (fun x => less p x = true) d (j' + 1) b).
  { intros k x Hk Hx. destruct (decide (j < k)); [apply (Hhigh k x); [lia | exact Hx] |].
    rewrite <- (HLess k x) by exact Hx. apply Hdown. lia. }
  destruct (decide (j' < i')) as [Hcross | Hnot].
  - left. split; [exact Hcross |]. split; [lia |]. split; [exact Hlow' |].
    replace i' with (j' + 1) by lia. exact Hhigh'.
  - right.
    destruct (lookup_lt_is_Some_2 d i') as [xi Hxi]; [lia |].
    destruct (lookup_lt_is_Some_2 d j') as [xj Hxj]; [lia |].
    assert (Hxi' : less p xi = true).
    { rewrite <- (HLess i' xi) by exact Hxi. apply negb_false_iff. apply Hupstop. lia. }
    assert (Hxj' : less p xj = false).
    { rewrite <- (HLess j' xj) by exact Hxj. apply Hdownstop. lia. }
    assert (Hne : i' <> j').
    { intros Heq. rewrite Heq in Hxi. rewrite Hxi in Hxj. injection Hxj as ->. congruence. }
    assert (Hsw : forall k, Swap d i' j' !! k =
              if decide (k = j') then Some xi
              else if decide (k = i') then Some xj else d !! k).
    { intros k. rewrite Swap_lookup by lia. rewrite Hxi, Hxj. reflexivity. }
    repeat split; try lia.
    + rewrite Swap_length. exact Hb.
    + rewrite Hsw. repeat (destruct (decide _); try lia). exact Hp.
    + intros k x Hk Hx. rewrite Hsw in Hx.
      destruct (decide (k = j')); [lia |].
      destruct (decide (k = i')); [injection Hx as <-; exact Hxj' |].
      apply (Hlow' k x); [lia | exact Hx].
    + intros k x Hk Hx. rewrite Hsw in Hx.
      destruct (decide (k = j')); [injection Hx as <-; exact Hxi' |].
      destruct (decide (k = i')); [lia |].
      apply (Hhigh' k x); [lia | exact Hx].
Qed.

Lemma partitionEqualLoop_spec fuel : forall (d : list A) a b p i j,
  partitioningEqual d a b p i j -> j + 1 - i < fuel ->
  let d' := fst (partitionEqualLoop less fuel d a i j) in
  let mid := snd (partitionEqualLoop less fuel d a i j) in
  frame (a + 1) b d d' /\ a + 1 <= mid <= b /\
  all_range (fun x => le x p) d' (a + 1) mid /\
  all_range (fun x => less p x = true) d' mid b.
Proof.
  induction fuel as [| fuel IH]; intros d a b p i j Hinv Hfuel; [lia |].
  cbn [partitionEqualLoop].
  destruct (partitionEqual_round d a b p i j Hinv)
    as [(Hcross & Hmid & Hlow & Hhigh) | (Hle & Hi' & Hlt & Hj' & Hm & Hinv')].
  - apply Nat.ltb_lt in Hcross. rewrite Hcross. cbn [fst snd].
    split; [apply frame_refl |]. split; [exact Hmid |]. split; assumption.
  - assert (Hno : (scanDown (S j - scanUp (S j - i) (fun i => negb (Less less d a i)) i j)
                      (fun j => Less less d a j)
                      (scanUp (S j - i) (fun i => negb (Less less d a i)) i j) j
                    <? scanUp (S j - i) (fun i => negb (Less less d a i)) i j) = false)
      by (apply Nat.ltb_ge; exact Hle).
    rewrite Hno.
    destruct (IH _ a b p _ _ Hinv') as (Hf & Hmid & Hlow & Hhigh); [lia |].
    cbv zeta. split; [| split; [exact Hmid | split; assumption]].
    eapply frame_trans; [| exact Hf].
    apply frame_Swap; [lia | lia |]. apply Hinv.
Qed.

Lemma partitionEqual_func_spec (data : list A) a b pivot p :
  a < b <= length data -> a <= pivot < b -> data !! pivot = Some p ->
  let d' := fst (partitionEqual_func less data a b pivot) in
  let mid := snd (partitionEqual_func less data a b pivot) in
  frame a b data d' /\ a + 1 <= mid <= b /\
  all_range (fun x => le x p) d' a mid /\
  all_range (fun x => less p x = true) d' mid b.
Proof.
  intros Hab Hpivot Hp. cbv zeta. unfold partitionEqual_func.
  set (d0 := Swap data a pivot).
  assert (Hf0 : frame a b data d0) by (apply frame_Swap; lia).
  assert (Hlen0 : length d0 = length data) by apply Swap_length.
  assert (Hpa : d0 !! a = Some p).
  { subst d0. rewrite Swap_lookup by lia.
    destruct (decide (a = pivot)) as [<- | Hne]; [exact Hp |].
    destruct (decide (a = a)); [| lia]. exact Hp. }
  assert (Hinv : partitioningEqual d0 a b p (a + 1) (b - 1)).
  { repeat split; try lia; try exact Hpa; intros k x Hk; lia. }
  destruct (partitionEqualLoop_spec (b - a) d0 a b p (a + 1) (b - 1) Hinv)
    as (Hf & Hmid & Hlow & Hhigh); [lia |].
  cbv zeta in *.
  split; [| split; [exact Hmid | split; [| exact Hhigh]]].
  - eapply frame_trans; [exact Hf0 |]. eapply frame_weaken; [| | exact Hf]; lia.
  - intros k x Hk Hx. destruct (decide (k = a)) as [-> | Hne].
    + destruct Hf as (_ & Ho & _). rewrite Ho in Hx by lia.
      rewrite Hpa in Hx. injection Hx as <-. apply le_refl.
    + apply (Hlow k x); [lia | exact Hx].
Qed.

(** *** reverseRange_func and breakPatterns_func *)

Lemma reverseRange_func_frame (data : list A) a b :
  a <= b <= length data -> frame a b data (reverseRange_func data a b).
Proof.
  intros Hab. unfold reverseRange_func.
  assert (Hloop : forall fuel (d : list A) i j,
            a <= i -> j < b \/ j <= i -> length d = length data ->
            frame a b d (reverseLoop fuel d i j)).
  { induction fuel as [| fuel IH]; intros d i j Hi Hj Hlen; cbn [reverseLoop];
      [apply frame_refl |].
    destruct (i <? j) eqn:Hij; [| apply frame_refl].
    apply Nat.ltb_lt in Hij.
    eapply frame_trans; [apply (frame_Swap a b d i j); lia |].
    apply IH; [lia | lia | rewrite Swap_length; exact Hlen]. }
  apply Hloop; [lia | lia | reflexivity].
Qed.

Lemma nextPowerOfTwo_bound length :
  0 < length -> (0 < nextPowerOfTwo length <= 2 * Z.of_nat length)%Z /\
                exists k, (0 <= k)%Z /\ nextPowerOfTwo length = (2 ^ k)%Z.
Proof.
  intros Hl. unfold nextPowerOfTwo, bits_Len.
  destruct length as [| n]; [lia |].
  rewrite Z.shiftl_1_l.
  pose proof (Nat.log2_spec (S n) ltac:(lia)) as [Hlo _].
  rewrite Nat2Z.inj_succ, Z.pow_succ_r by lia.
  apply Nat2Z.inj_le in Hlo. rewrite Nat2Z.inj_pow in Hlo. cbn [Z.of_nat] in Hlo.
  change (Z.pos 2) with 2%Z in Hlo.
  split; [split; [| lia] | exists (Z.succ (Z.of_nat (Nat.log2 (S n))))].
  - apply Z.mul_pos_pos; [lia |]. apply Z.pow_pos_nonneg; lia.
  - split; [lia |]. rewrite Z.pow_succ_r by lia. reflexivity.
Qed.

Lemma breakPatterns_func_frame (data : list A) a b :
  a <= b <= length data -> frame a b data (breakPatterns_func data a b).
Proof.
  intros Hab. unfold breakPatterns_func.
  destruct (8 <=? b - a) eqn:H8; [| apply frame_refl].
  apply Nat.leb_le in H8.
  destruct (nextPowerOfTwo_bound (b - a)) as [[Hpos Hle] (k & Hk & Hpow)]; [lia |].
  assert (Hloop : forall steps (d : list A) random,
            (forall i, In i steps -> i < 3) -> length d = length data ->
            frame a b d
              (fst (fold_left
                      (fun '(data, random) i =>
                         let random := xorshift_Next random in
                         let other := Z.to_nat (Z.land random (nextPowerOfTwo (b - a) - 1)%Z) in
                         let other := if b - a <=? other then other - (b - a) else other in
                         (Swap data (a + (b - a) / 4 * 2 - 1 - 1 + i) (a + other), random))
                      steps (d, random)))).
  { induction steps as [| i steps IH]; intros d random Hsteps Hlen; cbn [fold_left fst];
      [apply frame_refl |].
    set (r := xorshift_Next random).
    set (o := Z.to_nat (Z.land r (nextPowerOfTwo (b - a) - 1)%Z)).
    assert (Ho : o < 2 * (b - a)).
    { subst o. rewrite Hpow. replace (2 ^ k - 1)%Z with (Z.ones k)
        by (rewrite Z.ones_equiv; lia).
      rewrite Z.land_ones by exact Hk.
      pose proof (Z.mod_pos_bound r (2 ^ k)%Z ltac:(lia)). lia. }
    pose proof (Nat.Div0.div_le_mono 8 (b - a) 4 H8) as Hq. change (8 / 4) with 2 in Hq.
    pose proof (Nat.Div0.mul_div_le (b - a) 4) as Hmul.
    eapply frame_trans;
      [apply (frame_Swap a b d (a + (b - a) / 4 * 2 - 1 - 1 + i)
                (a + (if b - a <=? o then o - (b - a) else o))) | apply IH].
    - specialize (Hsteps i ltac:(left; reflexivity)). lia.
    - destruct (b - a <=? o) eqn:Hc; [apply Nat.leb_le in Hc | apply Nat.leb_gt in Hc]; lia.
    - lia.
    - intros i' Hi'. apply Hsteps. right. exact Hi'.
    - rewrite Swap_length. exact Hlen. }
  apply Hloop; [| reflexivity].
  intros i Hi. apply in_seq in Hi. lia.
Qed.

(** *** partialInsertionSort_func *)

Lemma sorted_range_outside (d d' : list A) lo b a hi :
  frame lo b d d' -> hi <= lo -> sorted_range less d a hi -> sorted_range less d' a hi.
Proof.
  intros (_ & Ho & _) Hhi Hs p q x y Hp Hpq Hq Hx Hy.
  rewrite Ho in Hx, Hy by lia. eapply (Hs p q); eauto.
Qed.

Lemma advance_spec fuel : forall (d : list A) a i b,
  a < i <= b -> b <= length d -> b - i <= fuel ->
  sorted_range less d a i ->
  let i' := advance less fuel d i b in
  i <= i' <= b /\ sorted_range less d a i' /\
  (i' < b -> Less less d i' (i' - 1) = true).
Proof.
  induction fuel as [| fuel IH]; intros d a i b Hi Hb Hfuel Hs; cbn [advance].
  - repeat split; try lia; try exact Hs; intros; lia.
  - destruct (i <? b) eqn:Hlt; cbn [andb].
    + apply Nat.ltb_lt in Hlt.
      destruct (Less less d i (i - 1)) eqn:HL; cbn [negb].
      * repeat split; try lia; try exact Hs; intros _; exact HL.
      * destruct (lookup_lt_is_Some_2 d i) as [x Hx]; [lia |].
        destruct (lookup_lt_is_Some_2 d (i - 1)) as [y Hy]; [lia |].
        rewrite (Less_lookup d i (i - 1) x y Hx Hy) in HL.
        destruct (IH d a (i + 1) b) as (Hr & Hs' & Hstop); [lia | lia | lia | |].
        { intros p q xp xq Hp Hpq Hq Hxp Hxq.
          destruct (decide (q = i)) as [-> | Hne]; [| eapply (Hs p q); eauto; lia].
          rewrite Hx in Hxq. injection Hxq as <-.
          apply le_trans with y; [| exact HL].
          destruct (decide (p = i - 1)) as [-> | Hne];
            [rewrite Hy in Hxp; injection Hxp as <-; apply le_refl |].
          eapply (Hs p (i - 1)); eauto; lia. }
        cbv zeta in *. repeat split; try lia; assumption.
    + apply Nat.ltb_ge in Hlt. repeat split; try lia; try exact Hs; intros; lia.
Qed.

Lemma shiftSmaller_shiftLeft j : forall (d : list A),
  shiftSmaller less d j = shiftLeft less d 0 j.
Proof.
  induction j as [| j IH]; intros d; cbn [shiftSmaller shiftLeft]; [reflexivity |].
  change (0 <? S j) with true. cbn [andb].
  destruct (Less less d (S j) j); cbn [negb]; [apply IH | reflexivity].
Qed.

Lemma shiftGreater_frame fuel : forall (d : list A) lo j b,
  lo < j -> b <= length d -> frame lo b d (shiftGreater less fuel d j b).
Proof.
  induction fuel as [| fuel IH]; intros d lo j b Hj Hb; cbn [shiftGreater];
    [apply frame_refl |].
  destruct (j <? b) eqn:Hlt; [| apply frame_refl].
  apply Nat.ltb_lt in Hlt.
  destruct (negb _); [apply frame_refl |].
  eapply frame_trans; [apply (frame_Swap lo b d j (j - 1)); lia |].
  apply IH; [lia | rewrite Swap_length; exact Hb].
Qed.

Lemma partialSteps_spec steps : forall (d : list A) a b i,
  a < i <= b -> b <= length d ->
  sorted_range less d a i -> barrier d a b ->
  frame a b d (fst (partialSteps less steps d a b i)) /\
  (snd (partialSteps less steps d a b i) = true ->
   sorted_range less (fst (partialSteps less steps d a b i)) a b).
Proof.
  induction steps as [| steps IH]; intros d a b i Hi Hb Hs Hbar; cbn [partialSteps].
  - cbn. split; [apply frame_refl | discriminate].
  - destruct (advance_spec (b - i) d a i b Hi Hb ltac:(lia) Hs) as (Hi' & Hs' & Hstop).
    cbv zeta in Hi', Hs', Hstop.
    set (i' := advance less (b - i) d i b) in *.
    destruct (i' =? b) eqn:Heq.
    { apply Nat.eqb_eq in Heq. rewrite Heq in Hs'. cbn. split; [apply frame_refl | auto]. }
    apply Nat.eqb_neq in Heq.
    destruct (b - a <? 50); [cbn; split; [apply frame_refl | discriminate] |].
    set (d1 := Swap d i' (i' - 1)).
    assert (Hf1 : frame a b d d1) by (apply frame_Swap; lia).
    assert (Hl1 : length d1 = length d) by apply Swap_length.
    set (d2 := if 2 <=? i' - a then shiftSmaller less d1 (i' - 1) else d1).
    assert (H2 : frame a i' d1 d2 /\ sorted_range less d2 a i').
    { subst d2. destruct (2 <=? i' - a) eqn:H2.
      - apply Nat.leb_le in H2. rewrite shiftSmaller_shiftLeft.
        pose proof (shiftLeft_sorted (i' - 1) d1 0 a (i' - 1)) as Hshift.
        replace (i' - 1 + 1) with i' in Hshift by lia.
        apply Hshift; [lia | lia | lia | |].
        + unfold Sort.moving, sorted_range. split; [| split; [| split]]; try (intros; lia).
          intros p q x y Hp Hpq Hq Hx Hy. subst d1.
          rewrite Swap_lookup in Hx, Hy by lia.
          repeat (destruct (decide _) in Hx; try lia).
          repeat (destruct (decide _) in Hy; try lia).
          eapply (Hs' p q); eauto; lia.
        + intros _.
          eapply barrier_weaken; [| eapply barrier_frame; [exact Hf1 | exact Hbar]]. lia.
      - apply Nat.leb_gt in H2. split; [apply frame_refl |].
        intros p q x y Hp Hpq Hq. lia. }
    destruct H2 as [Hf2 Hs2].
    assert (Hl2 : length d2 = length d) by (destruct Hf2 as [-> _]; exact Hl1).
    set (d3 := if 2 <=? b - i' then shiftGreater less (b - i') d2 (i' + 1) b else d2).
    assert (Hf3 : frame i' b d2 d3).
    { subst d3. destruct (2 <=? b - i'); [| apply frame_refl].
      apply shiftGreater_frame; lia. }
    assert (Hf : frame a b d d3).
    { eapply frame_trans; [exact Hf1 |]. eapply frame_trans.
      - eapply frame_weaken; [| | exact Hf2]; lia.
      - eapply frame_weaken; [| | exact Hf3]; lia. }
    destruct (IH d3 a b i') as [Hf' Hs4].
    + lia.
    + destruct Hf3 as [-> _]. lia.
    + eapply sorted_range_outside; [exact Hf3 | lia | exact Hs2].
    + eapply barrier_frame; [exact Hf | exact Hbar].
    + split; [eapply frame_trans; [exact Hf | exact Hf'] | exact Hs4].
Qed.

Lemma partialInsertionSort_func_spec (data : list A) a b :
  a < b <= length data -> barrier data a b ->
  frame a b data (fst (partialInsertionSort_func less data a b)) /\
  (snd (partialInsertionSort_func less data a b) = true ->
   sorted_range less (fst (partialInsertionSort_func less data a b)) a b).
Proof.
  intros Hab Hbar. unfold partialInsertionSort_func.
  apply partialSteps_spec; [lia | lia | | exact Hbar].
  intros p q x y Hp Hpq Hq. lia.
Qed.

(** *** choosePivot_func *)

Lemma median_func_among (data : list A) x y z swaps :
  let m := fst (median_func less data x y z swaps) in m = x \/ m = y \/ m = z.
Proof.
  unfold median_func, order2_func.
  destruct (Less less data y x); destruct (Less less data z _);
    destruct (Less less data _ _); cbn; auto.
Qed.

Lemma choosePivot_func_range (data : list A) a b :
  8 <= b - a -> a <= fst (choosePivot_func less data a b) < b.
Proof.
  intros H8. unfold choosePivot_func.
  apply Nat.leb_le in H8 as H8'. rewrite H8'.
  pose proof (Nat.Div0.div_le_mono 8 (b - a) 4 H8) as Hq. change (8 / 4) with 2 in Hq.
  pose proof (Nat.Div0.mul_div_le (b - a) 4) as Hmul.
  set (q := (b - a) / 4) in *.
  assert (Hres : forall i j k s,
             a <= i < b -> a <= j < b -> a <= k < b ->
             a <= fst (let '(j, swaps) := median_func less data i j k s in
                       if swaps =? 0 then (j, increasingHint)
                       else if swaps =? 12 then (j, decreasingHint) else (j, unknownHint)) < b).
  { intros i j k s Hi Hj Hk.
    pose proof (median_func_among data i j k s) as Hm. cbv zeta in Hm.
    destruct (median_func less data i j k s) as [m s']. cbn [fst] in Hm.
    destruct (s' =? 0); [cbn; lia |]. destruct (s' =? 12); cbn; lia. }
  destruct (50 <=? b - a) eqn:H50.
  - apply Nat.leb_le in H50.
    pose proof (Nat.Div0.div_le_mono 48 (b - a) 4 ltac:(lia)) as Hq'.
    change (48 / 4) with 12 in Hq'. fold q in Hq'.
    unfold medianAdjacent_func.
    pose proof (median_func_among data (a + q * 1 - 1) (a + q * 1) (a + q * 1 + 1) 0) as H1.
    cbv zeta in H1.
    destruct (median_func less data (a + q * 1 - 1) (a + q * 1) (a + q * 1 + 1) 0) as [i s1].
    pose proof (median_func_among data (a + q * 2 - 1) (a + q * 2) (a + q * 2 + 1) s1) as H2.
    cbv zeta in H2.
    destruct (median_func less data (a + q * 2 - 1) (a + q * 2) (a + q * 2 + 1) s1) as [j s2].
    pose proof (median_func_among data (a + q * 3 - 1) (a + q * 3) (a + q * 3 + 1) s2) as H3.
    cbv zeta in H3.
    destruct (median_func less data (a + q * 3 - 1) (a + q * 3) (a + q * 3 + 1) s2) as [k s3].
    cbn [fst] in H1, H2, H3.
    apply Hres; lia.
  - apply Hres; lia.
Qed.

(** *** heapSort_func *)

Lemma siftDown_spec fuel : forall (d : list A) root hi first lo,
  hi <= root + fuel -> lo <= root -> first + hi <= length d ->
  semi_heap d first lo hi root ->
  frame first (first + hi) d (siftDown less fuel d root hi first) /\
  heap_from (siftDown less fuel d root hi first) first lo hi.
Proof.
  induction fuel as [| fuel IH]; intros d root hi first lo Hfuel Hlo Hlen [Hsemi1 Hsemi2].
  - cbn [siftDown]. split; [apply frame_refl |].
    intros k c x y Hk Hc Hchi. apply Hsemi1; auto. unfold child in Hc. lia.
  - cbn [siftDown].
    destruct (hi <=? 2 * root + 1) eqn:Hleaf.
    { apply Nat.leb_le in Hleaf. split; [apply frame_refl |].
      intros k c x y Hk Hc Hchi. apply Hsemi1; auto. unfold child in Hc. lia. }
    apply Nat.leb_gt in Hleaf.
    set (c0 := 2 * root + 1) in *.
    set (c := if (c0 + 1 <? hi) && Less less d (first + c0) (first + c0 + 1)
              then c0 + 1 else c0).
    destruct (lookup_lt_is_Some_2 d (first + root)) as [xr Hxr]; [lia |].
    assert (Hc : child c root /\ c < hi /\
                 forall o xo xc, child o root -> o < hi ->
                                 d !! (first + o) = Some xo -> d !! (first + c) = Some xc ->
                                 le xo xc).
    { subst c. destruct (c0 + 1 <? hi) eqn:H2; cbn [andb].
      - apply Nat.ltb_lt in H2.
        destruct (lookup_lt_is_Some_2 d (first + c0)) as [x0 Hx0]; [lia |].
        destruct (lookup_lt_is_Some_2 d (first + c0 + 1)) as [x1 Hx1]; [lia |].
        rewrite (Less_lookup d _ _ x0 x1 Hx0 Hx1).
        destruct (less x0 x1) eqn:Hl.
        + split; [right; subst c0; lia |]. split; [lia |].
          intros o xo xc Ho Hohi Hxo Hxc.
          replace (first + (c0 + 1)) with (first + c0 + 1) in Hxc by lia.
          rewrite Hx1 in Hxc. injection Hxc as <-.
          destruct Ho as [-> | ->].
          * fold c0 in Hxo. rewrite Hx0 in Hxo. injection Hxo as <-. apply less_le, Hl.
          * replace (first + (2 * root + 2)) with (first + c0 + 1) in Hxo by (subst c0; lia).
            rewrite Hx1 in Hxo. injection Hxo as <-. apply le_refl.
        + split; [left; reflexivity |]. split; [lia |].
          intros o xo xc Ho Hohi Hxo Hxc.
          rewrite Hx0 in Hxc. injection Hxc as <-.
          destruct Ho as [-> | ->].
          * fold c0 in Hxo. rewrite Hx0 in Hxo. injection Hxo as <-. apply le_refl.
          * replace (first + (2 * root + 2)) with (first + c0 + 1) in Hxo by (subst c0; lia).
            rewrite Hx1 in Hxo. injection Hxo as <-. exact Hl.
      - apply Nat.ltb_ge in H2. split; [left; reflexivity |]. split; [lia |].
        intros o xo xc Ho Hohi Hxo Hxc.
        destruct Ho as [-> | ->]; [| subst c0; lia].
        fold c0 in Hxo. rewrite Hxo in Hxc. injection Hxc as <-. apply le_refl. }
    clearbody c. destruct Hc as (Hchild & Hchi & Hmax).
    destruct (lookup_lt_is_Some_2 d (first + c)) as [xc Hxc]; [lia |].
    rewrite (Less_lookup d _ _ xr xc Hxr Hxc).
    assert (Hcr : root < c) by (unfold child in Hchild; lia).
    destruct (less xr xc) eqn:Hl; cbn [negb].
    + (* the child goes up, and the scan goes down with the root *)
      assert (Hsw : forall k, Swap d (first + root) (first + c) !! (first + k) =
                if decide (k = c) then Some xr
                else if decide (k = root) then Some xc else d !! (first + k)).
      { intros k. rewrite Swap_lookup by lia. rewrite Hxr, Hxc.
        destruct (decide (first + k = first + c)), (decide (k = c)); try lia; [reflexivity |].
        destruct (decide (first + k = first + root)), (decide (k = root)); try lia;
          reflexivity. }
      destruct (IH (Swap d (first + root) (first + c)) c hi first lo) as [Hf Hh].
      * lia.
      * lia.
      * rewrite Swap_length. exact Hlen.
      * split.
        -- intros k c' x y Hk Hkc Hc' Hc'hi Hx Hy. rewrite Hsw in Hx, Hy.
           destruct (decide (k = c)); [lia |].
           destruct (decide (k = root)) as [-> | Hkr].
           ++ injection Hx as <-.
              destruct (decide (c' = c)) as [-> | Hne].
              ** injection Hy as <-. apply less_le, Hl.
              ** destruct (decide (c' = root)); [unfold child in Hc'; lia |].
                 eapply Hmax; eauto.
           ++ destruct (decide (c' = c)) as [-> | Hne];
                [unfold child in Hc', Hchild; lia |].
              destruct (decide (c' = root)) as [-> | Hne'].
              ** injection Hy as <-. eapply (Hsemi2 k c); eauto.
              ** eapply (Hsemi1 k c'); eauto.
        -- intros k c' x y Hk Hkc Hc' Hc'hi Hx Hy. rewrite Hsw in Hx, Hy.
           assert (k = root) by (unfold child in Hkc, Hchild; lia). subst k.
           destruct (decide (root = c)); [lia |].
           destruct (decide (root = root)); [| lia]. injection Hx as <-.
           destruct (decide (c' = c)); [unfold child in Hc'; lia |].
           destruct (decide (c' = root)); [unfold child in Hc'; lia |].
           eapply (Hsemi1 c c'); eauto. lia.
      * split; [| exact Hh].
        eapply frame_trans; [| exact Hf].
        apply frame_Swap; lia.
    + split; [apply frame_refl |].
      intros k c' x y Hk Hc' Hc'hi Hx Hy.
      destruct (decide (k = root)) as [-> | Hne]; [| eapply (Hsemi1 k c'); eauto].
      rewrite Hxr in Hx. injection Hx as <-.
      apply le_trans with xc; [eapply Hmax; eauto | exact Hl].
Qed.

Lemma heap_root_is_max (d : list A) first n :
  heap_from d first 0 n -> first + n <= length d ->
  forall k x r, k < n -> d !! (first + k) = Some x -> d !! (first + 0) = Some r -> le x r.
Proof.
  intros Hheap Hlen k. induction k as [k IH] using lt_wf_ind. intros x r Hk Hx Hr.
  destruct k as [| k]; [rewrite Hx in Hr; injection Hr as <-; apply le_refl |].
  set (p := k / 2).
  assert (Hp : child (S k) p).
  { unfold child. subst p. pose proof (Nat.div_mod_eq k 2) as Hd.
    pose proof (Nat.mod_upper_bound k 2 ltac:(lia)). lia. }
  assert (Hpk : p < S k) by (unfold child in Hp; lia).
  destruct (lookup_lt_is_Some_2 d (first + p)) as [xp Hxp]; [lia |].
  apply le_trans with xp.
  - eapply (Hheap p (S k)); eauto; lia.
  - eapply (IH p); eauto. lia.
Qed.

Lemma rev_seq_S n : rev (seq 0 (S n)) = n :: rev (seq 0 n).
Proof. rewrite seq_S, rev_app_distr. reflexivity. Qed.

Lemma build_heap_spec hi first n : forall (d : list A),
  first + hi <= length d -> heap_from d first n hi ->
  let d' := fold_left (fun data i => siftDown_func less data i hi first)
                      (rev (seq 0 n)) d in
  frame first (first + hi) d d' /\ heap_from d' first 0 hi.
Proof.
  induction n as [| n IH]; intros d Hlen Hheap.
  - cbn. split; [apply frame_refl | exact Hheap].
  - rewrite rev_seq_S. cbn [fold_left]. unfold siftDown_func at 2.
    destruct (siftDown_spec hi d n hi first n) as [Hf Hh]; [lia | lia | exact Hlen | |].
    { split.
      - intros k c x y Hk Hne. apply Hheap. lia.
      - intros k c x y Hk Hc. unfold child in Hc. lia. }
    destruct (IH (siftDown less hi d n hi first)) as [Hf' Hh'];
      [destruct Hf as [-> _]; exact Hlen | exact Hh |].
    split; [eapply frame_trans; eassumption | exact Hh'].
Qed.

Lemma extract_spec hi first n : forall (d : list A),
  n <= hi -> first + hi <= length d -> extracting d first hi n ->
  let d' := fold_left (fun data i => siftDown_func less (Swap data first (first + i)) 0 i first)
                      (rev (seq 0 n)) d in
  frame first (first + hi) d d' /\ sorted_range less d' first (first + hi).
Proof.
  induction n as [| n IH]; intros d Hn Hlen (Hheap & Hsorted & Hcross).
  - cbn. split; [apply frame_refl |]. replace (first + 0) with first in Hsorted by lia.
    exact Hsorted.
  - rewrite rev_seq_S. cbn [fold_left]. unfold siftDown_func at 2.
    destruct (lookup_lt_is_Some_2 d (first + 0)) as [r Hr]; [lia |].
    destruct (lookup_lt_is_Some_2 d (first + n)) as [xn Hxn]; [lia |].
    set (d1 := Swap d first (first + n)).
    assert (Hl1 : length d1 = length d) by apply Swap_length.
    assert (Hsw : forall k, d1 !! (first + k) =
              if decide (k = n) then Some r
              else if decide (k = 0) then Some xn else d !! (first + k)).
    { intros k. subst d1. rewrite Swap_lookup by lia.
      replace (first + 0) with first in Hr by lia. rewrite Hr, Hxn.
      destruct (decide (first + k = first + n)), (decide (k = n)); try lia; [reflexivity |].
      destruct (decide (first + k = first)), (decide (k = 0)); try lia; reflexivity. }
    assert (Hmax : forall k x, k < S n -> d !! (first + k) = Some x -> le x r).
    { intros k x Hk Hx. eapply (heap_root_is_max d first (S n)); eauto. lia. }
    destruct (siftDown_spec n d1 0 n first 0) as [Hf Hh]; [lia | lia | lia | |].
    { split.
      - intros k c x y Hk Hne Hc Hcn Hx Hy. rewrite Hsw in Hx, Hy.
        assert (k < c) by (unfold child in Hc; lia).
        repeat (destruct (decide _) in Hx; try lia).
        repeat (destruct (decide _) in Hy; try lia).
        eapply (Hheap k c); eauto; lia.
      - intros k c x y Hk Hc. unfold child in Hc. lia. }
    set (d2 := siftDown less n d1 0 n first) in *.
    assert (Hl2 : length d2 = length d) by (destruct Hf as [-> _]; exact Hl1).
    assert (Hout : forall j, n <= j -> d2 !! (first + j) = d1 !! (first + j)).
    { intros j Hj. destruct Hf as (_ & Ho & _). apply Ho. lia. }
    destruct (IH d2) as [Hf' Hs']; [lia | lia | |].
    { split; [exact Hh |]. split.
      - intros p q x y Hp Hpq Hq Hx Hy.
        replace p with (first + (p - first)) in Hx by lia.
        replace q with (first + (q - first)) in Hy by lia.
        rewrite Hout, Hsw in Hx, Hy by lia.
        destruct (decide (q - first = n)); [lia |].
        destruct (decide (q - first = 0)); [lia |].
        destruct (decide (p - first = n)) as [Hpn | Hpn].
        + injection Hx as <-. eapply (Hcross 0 (q - first)); eauto; lia.
        + destruct (decide (p - first = 0)); [lia |].
          eapply (Hsorted (first + (p - first)) (first + (q - first))); eauto; lia.
      - intros k j x y Hk Hj Hx Hy. rewrite Hout, Hsw in Hy by lia.
        assert (Hall : all_range (fun x => le x y) d1 first (first + n)).
        { intros i xi Hi Hxi. replace i with (first + (i - first)) in Hxi by lia.
          rewrite Hsw in Hxi. destruct (decide (i - first = n)); [lia |].
          destruct (decide (j = n)) as [-> | Hjn].
          - injection Hy as <-.
            destruct (decide (i - first = 0)).
            + injection Hxi as <-. eapply Hmax; eauto.
            + eapply (Hmax (i - first)); eauto. lia.
          - destruct (decide (j = 0)); [lia |].
            destruct (decide (i - first = 0)).
            + injection Hxi as <-. eapply (Hcross n j); eauto; lia.
            + eapply (Hcross (i - first) j); eauto; lia. }
        destruct Hf as (_ & _ & Hp). apply (Hp _ Hall (first + k) x); [lia | exact Hx]. }
    split; [| exact Hs'].
    eapply frame_trans; [apply (frame_Swap first (first + hi) d first (first + n)); lia |].
    eapply frame_trans; [| exact Hf'].
    eapply frame_weaken; [| | exact Hf]; lia.
Qed.

Lemma heapSort_func_sorted (data : list A) a b :
  a <= b <= length data ->
  frame a b data (heapSort_func less data a b) /\
  sorted_range less (heapSort_func less data a b) a b.
Proof.
  intros Hab. unfold heapSort_func.
  destruct (build_heap_spec (b - a) a ((b - a - 1) / 2 + 1) data) as [Hf Hh]; [lia | |].
  { intros k c x y Hk Hc Hcb. exfalso.
    pose proof (Nat.div_mod_eq (b - a - 1) 2) as Hd.
    pose proof (Nat.mod_upper_bound (b - a - 1) 2 ltac:(lia)).
    unfold child in Hc. lia. }
  cbv zeta in Hf, Hh.
  set (d1 := fold_left (fun data i => siftDown_func less data i (b - a) a)
                       (rev (seq 0 ((b - a - 1) / 2 + 1))) data) in *.
  destruct (extract_spec (b - a) a (b - a) d1) as [Hf' Hs];
    [lia | destruct Hf as [-> _]; lia | |].
  { split; [exact Hh |]. split; [intros p q x y Hp Hpq Hq; lia | intros; lia]. }
  cbv zeta in Hf', Hs. replace (a + (b - a)) with b in * by lia.
  split; [eapply frame_trans; eassumption | exact Hs].
Qed.

(** *** pdqsort_func *)

Lemma all_range_outside (P : A -> Prop) (d d' : list A) lo hi x y :
  frame lo hi d d' -> y <= lo \/ hi <= x -> all_range P d x y -> all_range P d' x y.
Proof.
  intros (_ & Ho & _) Hdis Hall k v Hk Hv. rewrite Ho in Hv by lia. eapply Hall; eauto.
Qed.

Lemma sorted_range_apart (d d' : list A) lo hi x y :
  frame lo hi d d' -> y <= lo \/ hi <= x -> sorted_range less d x y -> sorted_range less d' x y.
Proof.
  intros (_ & Ho & _) Hdis Hs p q v w Hp Hpq Hq Hv Hw.
  rewrite Ho in Hv, Hw by lia. eapply (Hs p q); eauto.
Qed.

Lemma barrier_below (d d' : list A) lo hi a b :
  frame lo hi d d' -> a <= b <= lo -> barrier d a b -> barrier d' a b.
Proof.
  intros Hf Hab Hbar Ha. destruct (Hbar Ha) as (xpred & Hx & Hall).
  exists xpred. split.
  - destruct Hf as (_ & Ho & _). rewrite Ho by lia. exact Hx.
  - eapply all_range_outside; [exact Hf | lia | exact Hall].
Qed.

(** Sorted on both sides of the pivot, which separates them. *)
Lemma sorted_around_pivot (d : list A) a b mid p :
  a <= mid < b ->
  d !! mid = Some p ->
  sorted_range less d a mid -> sorted_range less d (mid + 1) b ->
  all_range (fun x => less x p = true) d a mid ->
  all_range (fun x => le p x) d (mid + 1) b ->
  sorted_range less d a b.
Proof.
  intros Hmid Hp Hl Hr Hlow Hhigh i j x y Hi Hij Hj Hx Hy.
  destruct (decide (j < mid)); [eapply (Hl i j); eauto |].
  destruct (decide (mid < i)); [eapply (Hr i j); eauto; lia |].
  destruct (decide (i = mid)) as [-> | Hne].
  - rewrite Hp in Hx. injection Hx as <-. apply (Hhigh j y); [lia | exact Hy].
  - assert (Hxp : less x p = true) by (apply (Hlow i x); [lia | exact Hx]).
    destruct (decide (j = mid)) as [-> | Hne'].
    + rewrite Hp in Hy. injection Hy as <-. apply less_le, Hxp.
    + apply le_trans with p; [apply less_le, Hxp | apply (Hhigh j y); [lia | exact Hy]].
Qed.

Lemma pdqsort_sorted fuel : forall (data : list A) a b limit wasBalanced wasPartitioned,
  b - a < fuel -> a <= b <= length data -> barrier data a b ->
  frame a b data (pdqsort less fuel data a b limit wasBalanced wasPartitioned) /\
  sorted_range less (pdqsort less fuel data a b limit wasBalanced wasPartitioned) a b.
Proof.
  induction fuel as [| fuel IH]; intros data a b limit wasBalanced wasPartitioned
    Hfuel Hab Hbar; [lia |].
  cbn [pdqsort].
  destruct (b - a <=? 12) eqn:H12; [apply insertionSort_func_sorted; exact Hab |].
  apply Nat.leb_gt in H12.
  destruct (limit =? 0); [apply heapSort_func_sorted; exact Hab |].
  set (broken := if negb wasBalanced then (breakPatterns_func data a b, limit - 1)
                 else (data, limit)).
  assert (Hbroken : frame a b data (fst broken)).
  { subst broken. destruct (negb wasBalanced); cbn [fst];
      [apply breakPatterns_func_frame; exact Hab | apply frame_refl]. }
  destruct broken as [data1 limit1]. cbn [fst] in Hbroken.
  pose proof (choosePivot_func_range data1 a b ltac:(lia)) as Hpivot.
  destruct (choosePivot_func less data1 a b) as [pivot hint]. cbn [fst] in Hpivot.
  set (oriented := match hint with
                   | decreasingHint =>
                       (reverseRange_func data1 a b, b - 1 - (pivot - a), increasingHint)
                   | _ => (data1, pivot, hint)
                   end).
  assert (Hl1 : length data1 = length data) by (destruct Hbroken as [-> _]; reflexivity).
  assert (Horiented : frame a b data1 (fst (fst oriented)) /\ a <= snd (fst oriented) < b).
  { subst oriented. destruct hint; cbn [fst snd]; try (split; [apply frame_refl | lia]).
    split; [apply reverseRange_func_frame; lia | lia]. }
  destruct oriented as [[data2 pivot2] hint2]. cbn [fst snd] in Horiented.
  destruct Horiented as [Hf2 Hpivot2].
  assert (Hf02 : frame a b data data2) by (eapply frame_trans; eassumption).
  assert (Hl2 : length data2 = length data) by (destruct Hf02 as [-> _]; reflexivity).
  set (partial := match hint2 with
                  | increasingHint =>
                      if wasBalanced && wasPartitioned
                      then partialInsertionSort_func less data2 a b
                      else (data2, false)
                  | _ => (data2, false)
                  end).
  assert (Hpartial : frame a b data2 (fst partial) /\
                     (snd partial = true -> sorted_range less (fst partial) a b)).
  { subst partial.
    destruct hint2; cbn [fst snd]; try (split; [apply frame_refl | discriminate]).
    destruct (wasBalanced && wasPartitioned);
      [| cbn; split; [apply frame_refl | discriminate]].
    apply partialInsertionSort_func_spec; [lia |].
    eapply barrier_frame; [exact Hf02 | exact Hbar]. }
  destruct partial as [data3 done]. cbn [fst snd] in Hpartial.
  destruct Hpartial as [Hf3 Hdone].
  assert (Hf03 : frame a b data data3) by (eapply frame_trans; eassumption).
  assert (Hl3 : length data3 = length data) by (destruct Hf03 as [-> _]; reflexivity).
  assert (Hbar3 : barrier data3 a b) by (eapply barrier_frame; eassumption).
  destruct done; [split; [exact Hf03 | apply Hdone; reflexivity] |].
  destruct (lookup_lt_is_Some_2 data3 pivot2) as [p Hp]; [lia |].
  destruct ((0 <? a) && negb (Less less data3 (a - 1) pivot2)) eqn:Hequal.
  - (* the pivot is not greater than what stands before the range *)
    apply andb_true_iff in Hequal as [Ha Hnl]. apply Nat.ltb_lt in Ha.
    destruct (Hbar3 Ha) as (xpred & Hxpred & Hall).
    rewrite (Less_lookup data3 _ _ xpred p Hxpred Hp) in Hnl.
    apply negb_true_iff in Hnl.
    assert (Hge : all_range (fun x => le p x) data3 a b).
    { intros k x Hk Hx. apply le_trans with xpred; [exact Hnl | apply (Hall k x Hk Hx)]. }
    destruct (partitionEqual_func_spec data3 a b pivot2 p) as (Hf4 & Hmid & Hlow & Hhigh);
      [lia | lia | exact Hp |].
    cbv zeta in Hf4, Hmid, Hlow, Hhigh.
    destruct (partitionEqual_func less data3 a b pivot2) as [data4 mid].
    cbn [fst snd] in Hf4, Hmid, Hlow, Hhigh.
    assert (Hl4 : length data4 = length data) by (destruct Hf4 as [-> _]; exact Hl3).
    assert (Hge4 : all_range (fun x => le p x) data4 a b) by (apply Hf4, Hge).
    destruct (IH data4 mid b limit1 wasBalanced wasPartitioned) as [Hf5 Hs5]; [lia | lia | |].
    { intros _. destruct (lookup_lt_is_Some_2 data4 (mid - 1)) as [xm Hxm]; [lia |].
      exists xm. split; [exact Hxm |].
      intros k x Hk Hx. apply le_trans with p.
      - apply (Hlow (mid - 1) xm); [lia | exact Hxm].
      - apply less_le. apply (Hhigh k x Hk Hx). }
    set (data5 := pdqsort less fuel data4 mid b limit1 wasBalanced wasPartitioned) in *.
    split.
    { eapply frame_trans; [exact Hf03 |]. eapply frame_trans; [exact Hf4 |].
      eapply frame_weaken; [| | exact Hf5]; lia. }
    assert (Hlow5 : all_range (fun x => le x p) data5 a mid)
      by (eapply all_range_outside; [exact Hf5 | lia | exact Hlow]).
    assert (Hge5 : all_range (fun x => le p x) data5 a b).
    { destruct (frame_weaken mid b a b data4 data5 ltac:(lia) ltac:(lia) Hf5) as (_ & _ & Hp5).
      apply Hp5, Hge4. }
    intros i j x y Hi Hij Hj Hx Hy.
    destruct (decide (mid <= i)); [eapply (Hs5 i j); eauto |].
    destruct (decide (j < mid)).
    + apply le_trans with p; [apply (Hlow5 i x); [lia | exact Hx] |].
      apply (Hge5 j y); [lia | exact Hy].
    + apply le_trans with p; [apply (Hlow5 i x); [lia | exact Hx] |].
      apply (Hge5 j y); [lia | exact Hy].
  - (* the partition around the pivot *)
    clear Hequal.
    destruct (partition_func_spec data3 a b pivot2 p) as (Hf4 & Hmid & Hpm & Hlow & Hhigh);
      [lia | lia | exact Hp |].
    cbv zeta in Hf4, Hmid, Hpm, Hlow, Hhigh.
    destruct (partition_func less data3 a b pivot2) as [[data4 mid] already].
    cbn [fst snd] in Hf4, Hmid, Hpm, Hlow, Hhigh.
    assert (Hl4 : length data4 = length data) by (destruct Hf4 as [-> _]; exact Hl3).
    assert (Hbar4 : barrier data4 a mid).
    { eapply barrier_weaken; [| eapply barrier_frame; [exact Hf4 | exact Hbar3]]. lia. }
    assert (Hbar4' : barrier data4 (mid + 1) b).
    { intros _. exists p. replace (mid + 1 - 1) with mid by lia. split; assumption. }
    destruct (mid - a <? b - mid).
    + destruct (IH data4 a mid limit1 true true) as [HfL HsL]; [lia | lia | exact Hbar4 |].
      set (dL := pdqsort less fuel data4 a mid limit1 true true) in *.
      assert (HlL : length dL = length data) by (destruct HfL as [-> _]; exact Hl4).
      destruct (IH dL (mid + 1) b limit1 ((b - a) / 8 <=? mid - a) already)
        as [HfR HsR]; [lia | lia | |].
      { intros _. exists p. replace (mid + 1 - 1) with mid by lia. split.
        - destruct HfL as (_ & Ho & _). rewrite Ho by lia. exact Hpm.
        - eapply all_range_outside; [exact HfL | lia | exact Hhigh]. }
      set (dR := pdqsort less fuel dL (mid + 1) b limit1 ((b - a) / 8 <=? mid - a) already) in *.
      split.
      { eapply frame_trans; [exact Hf03 |]. eapply frame_trans; [exact Hf4 |].
        eapply frame_trans.
        - eapply frame_weaken; [| | exact HfL]; lia.
        - eapply frame_weaken; [| | exact HfR]; lia. }
      apply (sorted_around_pivot dR a b mid p); [lia | | | exact HsR | |].
      * destruct HfR as (_ & Ho & _). rewrite Ho by lia.
        destruct HfL as (_ & Ho' & _). rewrite Ho' by lia. exact Hpm.
      * eapply sorted_range_apart; [exact HfR | lia | exact HsL].
      * eapply all_range_outside; [exact HfR | lia |]. apply HfL, Hlow.
      * apply HfR. eapply all_range_outside; [exact HfL | lia | exact Hhigh].
    + destruct (IH data4 (mid + 1) b limit1 true true) as [HfR HsR];
        [lia | lia | exact Hbar4' |].
      set (dR := pdqsort less fuel data4 (mid + 1) b limit1 true true) in *.
      assert (HlR : length dR = length data) by (destruct HfR as [-> _]; exact Hl4).
      destruct (IH dR a mid limit1 ((b - a) / 8 <=? b - mid) already)
        as [HfL HsL]; [lia | lia | |].
      { eapply barrier_below; [exact HfR | lia | exact Hbar4]. }
      set (dL := pdqsort less fuel dR a mid limit1 ((b - a) / 8 <=? b - mid) already) in *.
      split.
      { eapply frame_trans; [exact Hf03 |]. eapply frame_trans; [exact Hf4 |].
        eapply frame_trans.
        - eapply frame_weaken; [| | exact HfR]; lia.
        - eapply frame_weaken; [| | exact HfL]; lia. }
      apply (sorted_around_pivot dL a b mid p); [lia | | exact HsL | | |].
      * destruct HfL as (_ & Ho & _). rewrite Ho by lia.
        destruct HfR as (_ & Ho' & _). rewrite Ho' by lia. exact Hpm.
      * eapply sorted_range_apart; [exact HfL | lia | exact HsR].
      * apply HfL. eapply all_range_outside; [exact HfR | lia | exact Hlow].
      * eapply all_range_outside; [exact HfL | lia |]. apply HfR, Hhigh.
Qed.

(** [sort.Slice] sorts: the whole contract. *)
Lemma Slice_sorted (data : list A) : sorted_by less (Slice less data).
Proof.
  unfold Slice.
  destruct (pdqsort_sorted (S (length data)) data 0 (length data)
              (bits_Len (length data)) true true) as [Hf Hs]; [lia | lia | |].
  { intros H. lia. }
  intros i j x y Hij Hx Hy. apply (Hs i j x y); [lia | exact Hij | | exact Hx | exact Hy].
  apply lookup_lt_Some in Hy. destruct Hf as [Hlen _]. lia.
Qed.

End SliceSorts.

Section SampleProperties.
Import Go Events Disruption Samples.

Lemma budgetOf_ints pool n : is_int n -> budgets_are_ints (budgetOf pool n).
Proof.
  intros Hn p inner r v Hp Hr. unfold budgetOf in Hp.
  apply lookup_singleton_Some in Hp as [_ <-].
  apply lookup_singleton_Some in Hr as [_ <-]. exact Hn.
Qed.

Lemma budgetOf_budget pool n : budget (budgetOf pool n) pool Drift_Reason = n.
Proof.
  unfold budget, budgetOf, Drift_Reason, DisruptionReason.
  rewrite lookup_singleton_eq. cbn [mbind option_bind].
  rewrite lookup_singleton_eq. reflexivity.
Qed.

(** The sort of package sort permutes, whatever [less] is. *)
Lemma deps_Slice_permutes simulate :
  sort_Slice_permutes (deps (@Sort.Slice Candidate) simulate).
Proof. intros less l. apply Slice_perm. Qed.

(** ... and it sorts by any [less] that is a strict weak order: Go's
    [sort.Slice] keeps the whole contract that the theorems on
    [ComputeCommand] ask of the sort. *)
Lemma deps_Slice_sorts simulate :
  sort_Slice_sorts (deps (@Sort.Slice Candidate) simulate).
Proof. intros less l Hless. apply Slice_sorted, Hless. Qed.

End SampleProperties.

Section FastPathTheorem.
Import Go Events Disruption.

(** C1: when some candidate without reschedulable pods belongs to a pool
    whose drift budget is positive, the call returns the batch of empty
    candidates: those, in the order visited, that found their pool's
    budget still positive, which are the ones the budgets on entry allow,
    each charged once to its pool. There are no replacements, there is no
    error, and nothing is simulated or published. In particular a pool
    with budget B and more than B empty candidates contributes exactly B
    of them and ends with budget 0; and N empty candidates of one pool
    with a budget B below N give a command of exactly B candidates,
    budget 0 and no simulation. *)
Theorem Drift_ComputeCommand_empty_fast_path
    (D : DriftDeps) (m : Budgets) (cands : list Candidate) (w : World D) :
  budgets_are_ints m ->
  sort_Slice_permutes D ->
  let out := Drift_ComputeCommand D m cands w in
  let sorted := sort_Slice D lessDrifted cands in
  ((exists c, In c cands /\ reschedulablePods c = [] /\
              0 < budget m (nodePoolName c) Drift_Reason) ->
     candidates (command out) = emptyWithinBudget m [] sorted /\
     candidates (command out) = fst (scanEmpty m sorted) /\
     candidates (command out) <> [] /\
     replacements (command out) = [] /\
     results out = Results_zero /\
     err out = None /\
     effects out = [] /\
     world out = w /\
     (forall pool,
         budget (budgets out) pool Drift_Reason
         = budget m pool Drift_Reason
           - Z.of_nat (countPool pool (candidates (command out))))) /\
  (forall pool,
      0 < budget m pool Drift_Reason
        < Z.of_nat (countPool pool (List.filter isEmpty cands)) ->
      Z.of_nat (countPool pool (candidates (command out))) = budget m pool Drift_Reason /\
      budget (budgets out) pool Drift_Reason = 0 /\
      effects out = []) /\
  (forall pool,
      Forall (fun c => nodePoolName c = pool /\ reschedulablePods c = []) cands ->
      0 <= budget m pool Drift_Reason < Z.of_nat (length cands) ->
      Z.of_nat (length (candidates (command out))) = budget m pool Drift_Reason /\
      budget (budgets out) pool Drift_Reason = 0 /\
      noSimulation (effects out)).
Proof.
  intros Hm Hperm out sorted.
  assert (Hfast : tookFastPath D m cands = true ->
            candidates (command out) = fst (scanEmpty m sorted) /\
            replacements (command out) = [] /\ results out = Results_zero /\
            err out = None /\ effects out = [] /\ world out = w /\
            budgets out = snd (scanEmpty m sorted)).
  { intros H. subst out. rewrite ComputeCommand_fast_path by exact H.
    cbn. repeat split; reflexivity. }
  assert (Hcount : forall pool,
            Z.of_nat (countPool pool (fst (scanEmpty m sorted)))
            = Z.max 0 (Z.min (budget m pool Drift_Reason)
                             (Z.of_nat (countPool pool (List.filter isEmpty cands))))).
  { intros pool. rewrite scanEmpty_count by exact Hm.
    rewrite (countPool_Permutation pool (List.filter isEmpty sorted) (List.filter isEmpty cands));
      [reflexivity |].
    apply filter_Permutation. symmetry. apply Hperm. }
  split; [| split].
  - intros (c & Hin & He & Hpos).
    pose proof (fast_path_when_budget D Hperm m cands c Hin He Hpos) as Hf.
    destruct (Hfast Hf) as (Hc & Hr & Hres & Herr & Heff & Hw & Hb).
    rewrite Hc, Hb.
    split; [apply scanEmpty_within_budget; [exact Hm | apply midway_start] |].
    split; [reflexivity |].
    split; [apply tookFastPath_true; exact Hf |].
    repeat (split; [assumption |]).
    intros pool. apply scanEmpty_budget, Hm.
  - intros pool [Hpos Hlt].
    assert (Hf : tookFastPath D m cands = true).
    { apply tookFastPath_true. intros Hnil.
      specialize (Hcount pool). fold sorted in Hnil. rewrite Hnil in Hcount.
      change (countPool pool []) with 0%nat in Hcount. lia. }
    destruct (Hfast Hf) as (Hc & _ & _ & _ & Heff & _ & Hb).
    rewrite Hc, Hb, scanEmpty_budget by exact Hm. rewrite Hcount.
    repeat split; [lia | lia | exact Heff].
  - intros pool Hall [Hlo Hhi].
    assert (Hpool : Forall (fun c => nodePoolName c = pool) cands)
      by (eapply Forall_impl; [exact Hall | cbn; tauto]).
    assert (Hempty : List.filter isEmpty cands = cands).
    { clear -Hall. induction Hall as [| c l [_ Hc] _ IH]; [reflexivity |].
      cbn. apply isEmpty_nil in Hc. rewrite Hc, IH. reflexivity. }
    assert (Htaken : countPool pool (fst (scanEmpty m sorted))
                     = length (fst (scanEmpty m sorted))).
    { apply countPool_all. pose proof (scanEmpty_takes_empty sorted m) as Ht.
      eapply Forall_impl; [exact Ht |]. cbn. intros c [_ Hc].
      apply (Permutation_in _ (Permutation_sym (Hperm lessDrifted cands))) in Hc.
      rewrite Forall_forall in Hpool. apply Hpool, list_elem_of_In, Hc. }
    specialize (Hcount pool). rewrite Hempty, (countPool_all pool cands Hpool) in Hcount.
    destruct (tookFastPath D m cands) eqn:Hf.
    + destruct (Hfast eq_refl) as (Hc & _ & _ & _ & Heff & _ & Hb).
      rewrite Hc, Hb, scanEmpty_budget by exact Hm. rewrite Heff.
      rewrite <- Htaken, Hcount. repeat split; [lia | lia].
    + pose proof (tookFastPath_false D m cands Hf) as Hnil. fold sorted in Hnil.
      rewrite Hnil in Hcount. change (countPool pool []) with 0%nat in Hcount.
      assert (Hzero : budget m pool Drift_Reason = 0) by lia.
      subst out. rewrite ComputeCommand_simulation_path by exact Hf. cbv zeta.
      rewrite scanCandidates_all_skipped.
      * cbn. rewrite Hzero. repeat split; reflexivity.
      * rewrite Forall_forall. intros c Hc.
        apply list_elem_of_In in Hc.
        apply (Permutation_in _ (Permutation_sym (resorted_Permutation D Hperm w cands))) in Hc.
        rewrite Forall_forall in Hpool. rewrite (Hpool c) by (apply list_elem_of_In, Hc).
        exact Hzero.
Qed.

End FastPathTheorem.

Section FastPathWitness.
Import Go Events Disruption Samples.

Lemma Drift_ComputeCommand_empty_fast_path_witness :
  let D := deps (@Sort.Slice Candidate) schedules in
  let m := budgetOf "default" 1 in
  let cands := [candidate "a" "default" 5 []; candidate "b" "default" 3 []] in
  let out := Drift_ComputeCommand D m cands tt in
  Z.of_nat (length (candidates (command out))) = budget m "default" Drift_Reason /\
  budget (budgets out) "default" Drift_Reason = 0 /\
  noSimulation (effects out).
Proof.
  cbv zeta.
  refine (proj2 (proj2 (Drift_ComputeCommand_empty_fast_path
                          (deps (@Sort.Slice Candidate) schedules)
                          (budgetOf "default" 1)
                          [candidate "a" "default" 5 []; candidate "b" "default" 3 []]
                          tt _ _)) "default" _ _).
  - apply budgetOf_ints. unfold is_int, MinInt, MaxInt. lia.
  - apply deps_Slice_permutes.
  - repeat constructor.
  - rewrite budgetOf_budget. cbn. lia.
Defined.

End FastPathWitness.

Section BudgetAccountingTheorem.
Import Go Events Disruption.

(** C3, as the code has it: a call never changes an entry for another
    reason than drift. When it returns the batch of empty candidates, the
    drift entry of every pool is its value on entry minus the number of
    that pool's candidates in the command. When it goes on to the
    simulations, the mapping is left exactly as it was on entry, whether
    candidates were skipped or the command holds a candidate: that one
    candidate is not charged to its pool. *)
Theorem Drift_ComputeCommand_budget_accounting
    (D : DriftDeps) (m : Budgets) (cands : list Candidate) (w : World D) :
  budgets_are_ints m ->
  let out := Drift_ComputeCommand D m cands w in
  (forall pool reason,
      reason <> Drift_Reason -> budget (budgets out) pool reason = budget m pool reason) /\
  (tookFastPath D m cands = true ->
     effects out = [] /\
     forall pool,
       budget (budgets out) pool Drift_Reason
       = budget m pool Drift_Reason - Z.of_nat (countPool pool (candidates (command out)))) /\
  (tookFastPath D m cands = false ->
     budgets out = m /\ (length (candidates (command out)) <= 1)%nat) /\
  (noSimulation (effects out) ->
     forall pool,
       budget (budgets out) pool Drift_Reason
       = budget m pool Drift_Reason - Z.of_nat (countPool pool (candidates (command out)))).
Proof.
  intros Hm out.
  assert (Hslow : tookFastPath D m cands = false ->
            budgets out = m /\ (length (candidates (command out)) <= 1)%nat /\
            (noSimulation (effects out) -> candidates (command out) = [])).
  { intros Hf. subst out. rewrite ComputeCommand_simulation_path by exact Hf. cbv zeta.
    cbn [budgets command effects].
    match goal with
    | |- context [scanCandidates D m ?l w []] =>
        pose proof (scanCandidates_end D m l w []) as Hend;
        destruct (scanCandidates D m l w []) as [[[cmd res] e] [w' trace]]
    end.
    cbn [fst snd] in *. split; [reflexivity |].
    inversion Hend; subst; cbn; split; try lia; try reflexivity.
    intros Hno. unfold noSimulation in Hno. rewrite existsb_app in Hno.
    cbn in Hno. rewrite orb_true_r in Hno. discriminate. }
  assert (Hfast : tookFastPath D m cands = true ->
            effects out = [] /\
            forall pool,
              budget (budgets out) pool Drift_Reason
              = budget m pool Drift_Reason
                - Z.of_nat (countPool pool (candidates (command out)))).
  { intros Hf. subst out. rewrite ComputeCommand_fast_path by exact Hf.
    cbn [budgets command effects candidates]. split; [reflexivity |].
    intros pool. apply scanEmpty_budget, Hm. }
  split; [| split; [exact Hfast | split]].
  - intros pool reason Hr. destruct (tookFastPath D m cands) eqn:Hf.
    + subst out. rewrite ComputeCommand_fast_path by exact Hf. cbn [budgets].
      apply scanEmpty_other_reasons, Hr.
    + destruct (Hslow eq_refl) as [-> _]. reflexivity.
  - intros Hf. destruct (Hslow Hf) as (? & ? & _). split; assumption.
  - intros Hno pool. destruct (tookFastPath D m cands) eqn:Hf.
    + apply Hfast. reflexivity.
    + destruct (Hslow eq_refl) as (-> & _ & Hnil). rewrite (Hnil Hno).
      change (countPool pool []) with 0%nat. lia.
Qed.

Import Samples.

Lemma Drift_ComputeCommand_budget_accounting_witness :
  let D := deps (@Sort.Slice Candidate) schedules in
  let m := budgetOf "default" 1 in
  let cands := [candidate "a" "default" 5 [web]] in
  let out := Drift_ComputeCommand D m cands tt in
  budgets out = m /\ (length (candidates (command out)) <= 1)%nat.
Proof.
  cbv zeta.
  refine (proj1 (proj2 (proj2 (Drift_ComputeCommand_budget_accounting
                                 (deps (@Sort.Slice Candidate) schedules)
                                 (budgetOf "default" 1)
                                 [candidate "a" "default" 5 [web]] tt _))) _).
  - apply budgetOf_ints. unfold is_int, MinInt, MaxInt. lia.
  - vm_compute. reflexivity.
Defined.

(** C3 as worded fails on the simulation path: a candidate with a pod,
    a budget of 1 for its pool and a simulation that places the pod give
    a command with that candidate, and the budget is still 1, not 0. *)
Lemma simulated_candidate_is_not_charged :
  let D := deps (@Sort.Slice Candidate) schedules in
  let m := budgetOf "default" 1 in
  let c := candidate "a" "default" 5 [web] in
  let out := Drift_ComputeCommand D m [c] tt in
  err out = None /\
  candidates (command out) = [c] /\
  countPool "default" (candidates (command out)) = 1%nat /\
  budget m "default" Drift_Reason = 1 /\
  budget (budgets out) "default" Drift_Reason = 1 /\
  budget (budgets out) "default" Drift_Reason
    <> budget m "default" Drift_Reason
       - Z.of_nat (countPool "default" (candidates (command out))).
Proof.
  cbv zeta. vm_compute. repeat split; try reflexivity. discriminate.
Qed.

End BudgetAccountingTheorem.

Section SimulationErrorTheorem.
Import Go Events Disruption.

Lemma sort_singleton (D : DriftDeps) (c : Candidate) less :
  sort_Slice_permutes D -> sort_Slice D less [c] = [c].
Proof. intros Hperm. apply Permutation_length_1_inv, Hperm. Qed.

(** C5: in the scan with the simulation, a candidate whose simulation
    reports that it is being deleted is passed over and the scan goes on
    with the next candidate, so a call that reaches this scan with that
    candidate alone, or with candidates that are all being deleted,
    returns the no-op command and no error; any other simulation error
    ends the scan at once, and the call returns that error with the empty
    command and the empty results, the failed simulation being the last
    thing it did. Both are stated of the scan and of the call: of the
    call, for the candidate that the scan reaches after it has passed over
    the candidates before it in the sorted list. *)
Theorem Drift_ComputeCommand_simulation_errors (D : DriftDeps) (m : Budgets) :
  (forall c rest w trace res e w',
      budget m (nodePoolName c) Drift_Reason <> 0 ->
      SimulateScheduling D w c = ((res, Some e), w') ->
      Is_errCandidateDeleting e = true ->
      scanCandidates D m (c :: rest) w trace
      = scanCandidates D m rest w' (trace ++ [Simulated c])) /\
  (forall c rest w trace res e w',
      budget m (nodePoolName c) Drift_Reason <> 0 ->
      SimulateScheduling D w c = ((res, Some e), w') ->
      Is_errCandidateDeleting e = false ->
      scanCandidates D m (c :: rest) w trace
      = ((Command_zero, Results_zero, Some e), (w', trace ++ [Simulated c]))) /\
  (forall c w res e w',
      sort_Slice_permutes D ->
      tookFastPath D m [c] = false ->
      SimulateScheduling D w c = ((res, Some e), w') ->
      Is_errCandidateDeleting e = true ->
      let out := Drift_ComputeCommand D m [c] w in
      command out = Command_zero /\ err out = None /\
      Command_Decision (command out) = NoOpDecision /\
      budgets out = m) /\
  (forall cands w e,
      let out := Drift_ComputeCommand D m cands w in
      err out = Some e ->
      command out = Command_zero /\ results out = Results_zero /\
      Is_errCandidateDeleting e = false /\
      budgets out = m /\
      exists before c, effects out = before ++ [Simulated c]) /\
  (forall cands w before c after w1 t1 res e w2,
      tookFastPath D m cands = false ->
      sort_SliceStable (lessUnevictable D w) (sort_Slice D lessDrifted cands)
        = before ++ c :: after ->
      passOver D m before w [] = Some (w1, t1) ->
      budget m (nodePoolName c) Drift_Reason <> 0 ->
      SimulateScheduling D w1 c = ((res, Some e), w2) ->
      Is_errCandidateDeleting e = false ->
      Drift_ComputeCommand D m cands w
      = {| command := Command_zero; results := Results_zero; err := Some e;
           budgets := m; world := w2; effects := t1 ++ [Simulated c] |}) /\
  (forall cands w before c after w1 t1 res e w2,
      tookFastPath D m cands = false ->
      sort_SliceStable (lessUnevictable D w) (sort_Slice D lessDrifted cands)
        = before ++ c :: after ->
      passOver D m before w [] = Some (w1, t1) ->
      budget m (nodePoolName c) Drift_Reason <> 0 ->
      SimulateScheduling D w1 c = ((res, Some e), w2) ->
      Is_errCandidateDeleting e = true ->
      passOver D m (before ++ [c]) w [] = Some (w2, t1 ++ [Simulated c]) /\
      Drift_ComputeCommand D m cands w
      = outcomeOf m (scanCandidates D m after w2 (t1 ++ [Simulated c]))) /\
  (forall cands w,
      sort_Slice_permutes D ->
      tookFastPath D m cands = false ->
      Forall (fun c => forall w', exists res e w'',
                         SimulateScheduling D w' c = ((res, Some e), w'') /\
                         Is_errCandidateDeleting e = true) cands ->
      let out := Drift_ComputeCommand D m cands w in
      command out = Command_zero /\ results out = Results_zero /\ err out = None /\
      Command_Decision (command out) = NoOpDecision /\
      budgets out = m).
Proof.
  split; [apply scanCandidates_deleting |].
  split; [apply scanCandidates_fatal |].
  assert (Hcall_abort : forall cands w before c after w1 t1 res e w2,
      tookFastPath D m cands = false ->
      sort_SliceStable (lessUnevictable D w) (sort_Slice D lessDrifted cands)
        = before ++ c :: after ->
      passOver D m before w [] = Some (w1, t1) ->
      budget m (nodePoolName c) Drift_Reason <> 0 ->
      SimulateScheduling D w1 c = ((res, Some e), w2) ->
      Is_errCandidateDeleting e = false ->
      Drift_ComputeCommand D m cands w
      = {| command := Command_zero; results := Results_zero; err := Some e;
           budgets := m; world := w2; effects := t1 ++ [Simulated c] |})
    by (intros; eapply ComputeCommand_aborts; eassumption).
  assert (Hcall_deleting : forall cands w before c after w1 t1 res e w2,
      tookFastPath D m cands = false ->
      sort_SliceStable (lessUnevictable D w) (sort_Slice D lessDrifted cands)
        = before ++ c :: after ->
      passOver D m before w [] = Some (w1, t1) ->
      budget m (nodePoolName c) Drift_Reason <> 0 ->
      SimulateScheduling D w1 c = ((res, Some e), w2) ->
      Is_errCandidateDeleting e = true ->
      passOver D m (before ++ [c]) w [] = Some (w2, t1 ++ [Simulated c]) /\
      Drift_ComputeCommand D m cands w
      = outcomeOf m (scanCandidates D m after w2 (t1 ++ [Simulated c]))).
  { intros cands w before c after w1 t1 res e w2 Hfast Hsplit Hpass Hb Hsim Hdel.
    assert (Hpass' : passOver D m (before ++ [c]) w [] = Some (w2, t1 ++ [Simulated c])).
    { eapply passOver_snoc; [exact Hpass |].
      rewrite (passOver_deleting D m c w1 t1 res e w2 Hsim Hdel).
      apply Z.eqb_neq in Hb. rewrite Hb. reflexivity. }
    split; [exact Hpass' |].
    apply (ComputeCommand_after_passOver D m cands w (before ++ [c]) after); [exact Hfast | | exact Hpass'].
    rewrite Hsplit, <- app_assoc. reflexivity. }
  assert (Hcall_all : forall cands w,
      sort_Slice_permutes D ->
      tookFastPath D m cands = false ->
      Forall (fun c => forall w', exists res e w'',
                         SimulateScheduling D w' c = ((res, Some e), w'') /\
                         Is_errCandidateDeleting e = true) cands ->
      let out := Drift_ComputeCommand D m cands w in
      command out = Command_zero /\ results out = Results_zero /\ err out = None /\
      Command_Decision (command out) = NoOpDecision /\
      budgets out = m).
  { intros cands w Hperm Hfast Hall out. subst out.
    rewrite ComputeCommand_simulation_path by exact Hfast. cbv zeta.
    cbn [command results err budgets].
    rewrite scanCandidates_all_deleting; [cbn; repeat split; reflexivity |].
    apply List.Forall_forall. intros c Hc. rewrite List.Forall_forall in Hall. apply Hall.
    apply (Permutation_in _ (Permutation_sym (resorted_Permutation D Hperm w cands))), Hc. }
  split; [| split; [| split; [exact Hcall_abort | split; [exact Hcall_deleting | exact Hcall_all]]]].
  - intros c w res e w' Hperm Hf Hsim Hdel out.
    subst out. rewrite ComputeCommand_simulation_path by exact Hf. cbv zeta.
    rewrite sort_singleton by exact Hperm.
    change (sort_SliceStable (lessUnevictable D w) [c]) with [c].
    cbn [command err budgets].
    destruct (Z.eq_dec (budget m (nodePoolName c) Drift_Reason) 0) as [Hz | Hnz].
    + rewrite scanCandidates_skip by exact Hz. cbn. repeat split; reflexivity.
    + rewrite (scanCandidates_deleting D m c [] w [] res e w' Hnz Hsim Hdel).
      cbn. repeat split; reflexivity.
  - intros cands w e out Herr.
    destruct (tookFastPath D m cands) eqn:Hf.
    + subst out. rewrite ComputeCommand_fast_path in Herr by exact Hf. discriminate.
    + subst out. rewrite ComputeCommand_simulation_path in * by exact Hf. cbv zeta in *.
      cbn [command results err budgets effects] in *.
      match goal with
      | |- context [scanCandidates D m ?l w []] =>
          pose proof (scanCandidates_end D m l w []) as Hend;
          destruct (scanCandidates D m l w []) as [[[cmd res] e'] [w' trace]]
      end.
      cbn [fst snd] in *. subst e'.
      inversion Hend; subst. repeat split; eauto.
Qed.

Import Samples.

Lemma Drift_ComputeCommand_simulation_errors_witness :
  let D := deps (@Sort.Slice Candidate) deleting in
  let m := budgetOf "default" 1 in
  let out := Drift_ComputeCommand D m [candidate "a" "default" 5 [web]] tt in
  let first := candidate "a" "default" 3 [web] in
  let second := candidate "b" "default" 5 [web] in
  (command out = Command_zero /\ err out = None /\
   Command_Decision (command out) = NoOpDecision /\
   budgets out = m) /\
  Drift_ComputeCommand (deps (@Sort.Slice Candidate) deletingFirst) (budgetOf "default" 2)
                       [first; second] tt
  = Build_Outcome (deps (@Sort.Slice Candidate) deletingFirst)
      Command_zero Results_zero (Some (errorString "creating scheduler"))
      (budgetOf "default" 2) tt ([Simulated first] ++ [Simulated second]).
Proof.
  cbv zeta. split.
  - refine (proj1 (proj2 (proj2 (Drift_ComputeCommand_simulation_errors
                                   (deps (@Sort.Slice Candidate) deleting)
                                   (budgetOf "default" 1))))
                  (candidate "a" "default" 5 [web]) tt Results_zero errCandidateDeleting tt
                  _ _ _ _).
    + apply deps_Slice_permutes.
    + vm_compute. reflexivity.
    + reflexivity.
    + reflexivity.
  - refine (proj1 (proj2 (proj2 (proj2 (proj2 (Drift_ComputeCommand_simulation_errors
                                                 (deps (@Sort.Slice Candidate) deletingFirst)
                                                 (budgetOf "default" 2))))))
                  [candidate "a" "default" 3 [web]; candidate "b" "default" 5 [web]] tt
                  [candidate "a" "default" 3 [web]] (candidate "b" "default" 5 [web]) []
                  tt [Simulated (candidate "a" "default" 3 [web])]
                  Results_zero (errorString "creating scheduler") tt
                  _ _ _ _ _ eq_refl).
    + vm_compute. reflexivity.
    + vm_compute. reflexivity.
    + vm_compute. reflexivity.
    + vm_compute. discriminate.
    + vm_compute. reflexivity.
Defined.

(** A simulation that fails on the first of two candidates: the error comes
    back with the empty command, and the second candidate is not simulated. *)
Example fatal_error_aborts_the_scan :
  let D := deps (@Sort.Slice Candidate) failing in
  let first := candidate "a" "default" 3 [web] in
  let second := candidate "b" "default" 5 [web] in
  let out := Drift_ComputeCommand D (budgetOf "default" 2) [first; second] tt in
  err out = Some (errorString "creating scheduler") /\
  command out = Command_zero /\
  effects out = [Simulated first].
Proof. cbv zeta. vm_compute. repeat split; reflexivity. Qed.

End SimulationErrorTheorem.

Section OneCandidateTheorem.
Import Go Events Disruption.

(** C7, as the code has it: a command returned from the scan with the
    simulation holds at most one candidate. It holds exactly one when a
    candidate's simulation places all its pods (line 144), and then the
    replacements are the simulation's new node claims; it holds none when
    the scan ends without such a candidate or with an error. A command
    with more than one candidate comes from the batch of empty
    candidates. The three ends are also stated from the simulations to
    the command: the candidate that the scan reaches, after passing over
    the candidates before it, and whose simulation places all the pods is
    the one candidate of the command; the scan that passes over all the
    candidates, and the one that meets an error, return none. *)
Theorem Drift_ComputeCommand_simulation_path_candidates
    (D : DriftDeps) (m : Budgets) (cands : list Candidate) (w : World D) :
  let out := Drift_ComputeCommand D m cands w in
  (tookFastPath D m cands = false ->
     (length (candidates (command out)) <= 1)%nat /\
     (candidates (command out) <> [] ->
        exists c before,
          candidates (command out) = [c] /\
          err out = None /\
          replacements (command out) = NewNodeClaims (results out) /\
          AllNonPendingPodsScheduled D (results out) = true /\
          budget m (nodePoolName c) Drift_Reason <> 0 /\
          effects out = before ++ [Simulated c]) /\
     (err out <> None -> candidates (command out) = [])) /\
  ((1 < length (candidates (command out)))%nat ->
     tookFastPath D m cands = true /\
     replacements (command out) = [] /\
     effects out = [] /\
     Forall (fun c => reschedulablePods c = []) (candidates (command out))) /\
  (forall before c after w1 t1 res w2,
     tookFastPath D m cands = false ->
     sort_SliceStable (lessUnevictable D w) (sort_Slice D lessDrifted cands)
       = before ++ c :: after ->
     passOver D m before w [] = Some (w1, t1) ->
     budget m (nodePoolName c) Drift_Reason <> 0 ->
     SimulateScheduling D w1 c = ((res, None), w2) ->
     AllNonPendingPodsScheduled D res = true ->
     out = {| command := {| candidates := [c]; replacements := NewNodeClaims res |};
              results := res; err := None; budgets := m; world := w2;
              effects := t1 ++ [Simulated c] |}) /\
  (forall w1 t1,
     tookFastPath D m cands = false ->
     passOver D m (sort_SliceStable (lessUnevictable D w) (sort_Slice D lessDrifted cands))
              w [] = Some (w1, t1) ->
     out = {| command := Command_zero; results := Results_zero; err := None;
              budgets := m; world := w1; effects := t1 |}) /\
  (forall before c after w1 t1 res e w2,
     tookFastPath D m cands = false ->
     sort_SliceStable (lessUnevictable D w) (sort_Slice D lessDrifted cands)
       = before ++ c :: after ->
     passOver D m before w [] = Some (w1, t1) ->
     budget m (nodePoolName c) Drift_Reason <> 0 ->
     SimulateScheduling D w1 c = ((res, Some e), w2) ->
     Is_errCandidateDeleting e = false ->
     out = {| command := Command_zero; results := Results_zero; err := Some e;
              budgets := m; world := w2; effects := t1 ++ [Simulated c] |}).
Proof.
  intros out.
  assert (Hslow : tookFastPath D m cands = false ->
     (length (candidates (command out)) <= 1)%nat /\
     (candidates (command out) <> [] ->
        exists c before,
          candidates (command out) = [c] /\
          err out = None /\
          replacements (command out) = NewNodeClaims (results out) /\
          AllNonPendingPodsScheduled D (results out) = true /\
          budget m (nodePoolName c) Drift_Reason <> 0 /\
          effects out = before ++ [Simulated c]) /\
     (err out <> None -> candidates (command out) = [])).
  { intros Hf. subst out. rewrite ComputeCommand_simulation_path by exact Hf. cbv zeta.
    cbn [command results err effects].
    match goal with
    | |- context [scanCandidates D m ?l w []] =>
        pose proof (scanCandidates_end D m l w []) as Hend;
        destruct (scanCandidates D m l w []) as [[[cmd res] e] [w' trace]]
    end.
    cbn [fst snd] in *.
    inversion Hend; subst; cbn [candidates replacements Command_zero length].
    - split; [lia |]. split; [congruence | reflexivity].
    - split; [lia |]. split; [congruence | reflexivity].
    - split; [lia |]. split; [| congruence].
      intros _. exists c, pre. repeat split; assumption. }
  split; [exact Hslow |].
  split.
  { intros Hmany. destruct (tookFastPath D m cands) eqn:Hf.
    - subst out. rewrite ComputeCommand_fast_path in * by exact Hf.
      cbn [command replacements effects candidates] in *.
      repeat split.
      eapply Forall_impl; [apply scanEmpty_takes_empty |].
      cbn. intros c [He _]. apply isEmpty_nil, He.
    - destruct (Hslow eq_refl) as [Hle _]. lia. }
  subst out. split; [| split].
  - intros. eapply ComputeCommand_returns; eassumption.
  - intros. eapply ComputeCommand_exhausts; eassumption.
  - intros. eapply ComputeCommand_aborts; eassumption.
Qed.

Import Samples.

Lemma Drift_ComputeCommand_simulation_path_candidates_witness :
  let D := deps (@Sort.Slice Candidate) schedules in
  let m := budgetOf "default" 1 in
  let c := candidate "a" "default" 5 [web] in
  let out := Drift_ComputeCommand D m [c] tt in
  (length (candidates (command out)) <= 1)%nat /\
  out = Build_Outcome D
          {| candidates := [c]; replacements := [replacement] |}
          {| NewNodeClaims := [replacement]; PodErrors := [] |}
          None m tt ([] ++ [Simulated c]).
Proof.
  cbv zeta. split.
  - refine (proj1 (proj1 (Drift_ComputeCommand_simulation_path_candidates
                            (deps (@Sort.Slice Candidate) schedules)
                            (budgetOf "default" 1)
                            [candidate "a" "default" 5 [web]] tt) _)).
    vm_compute. reflexivity.
  - refine (proj1 (proj2 (proj2 (Drift_ComputeCommand_simulation_path_candidates
                                   (deps (@Sort.Slice Candidate) schedules)
                                   (budgetOf "default" 1)
                                   [candidate "a" "default" 5 [web]] tt)))
                  [] (candidate "a" "default" 5 [web]) [] tt []
                  {| NewNodeClaims := [replacement]; PodErrors := [] |} tt
                  _ _ eq_refl _ eq_refl eq_refl).
    + vm_compute. reflexivity.
    + vm_compute. reflexivity.
    + vm_compute. discriminate.
Defined.

(** C7 as worded fails: the scan simulates the one candidate, a pod finds
    no place, and the command returned from that scan holds no candidate
    rather than exactly one. *)
Lemma simulation_path_returns_no_candidate :
  let D := deps (@Sort.Slice Candidate) unschedulable in
  let m := budgetOf "default" 1 in
  let c := candidate "a" "default" 5 [web] in
  let out := Drift_ComputeCommand D m [c] tt in
  tookFastPath D m [c] = false /\
  effects out
    = [Simulated c;
       Published (blocked (SN_Node (Candidate_StateNode c)) (nodeClaimOf c)
                          "not all pods would schedule")] /\
  err out = None /\
  candidates (command out) = [] /\
  length (candidates (command out)) <> 1%nat.
Proof.
  cbv zeta. vm_compute. repeat split; try reflexivity. discriminate.
Qed.

End OneCandidateTheorem.

Section DriftSortTheorem.
Import Go Events Disruption.

Lemma lessDrifted_strict_weak_order : strict_weak_order lessDrifted.
Proof.
  unfold strict_weak_order, lessDrifted. repeat split.
  - intros a. apply Z.ltb_irrefl.
  - intros a b c H1 H2. apply Z.ltb_lt in H1, H2. apply Z.ltb_lt. lia.
  - intros a b c H1 H2. apply Z.ltb_ge in H1, H2. apply Z.ltb_ge. lia.
Qed.

(** C2, as the code has it: the first sort leaves the candidates permuted
    and in ascending order of the instant their Drifted condition last
    changed, oldest first. Which of two candidates with the same instant
    comes first is not fixed: [sort.Slice] is not a stable sort. *)
Theorem Drift_ComputeCommand_sorts_by_drift_time (D : DriftDeps) (cands : list Candidate) :
  sort_Slice_permutes D ->
  sort_Slice_sorts D ->
  let sorted := sort_Slice D lessDrifted cands in
  Permutation cands sorted /\
  ascending sorted /\
  (forall a b before between after,
      sorted = before ++ a :: between ++ b :: after ->
      driftedSince a <= driftedSince b).
Proof.
  intros Hperm Hsorts sorted.
  assert (Hasc : ascending sorted).
  { intros i j a b Hij Ha Hb.
    pose proof (Hsorts lessDrifted cands lessDrifted_strict_weak_order i j a b Hij Ha Hb) as H.
    unfold lessDrifted in H. apply Z.ltb_ge in H. exact H. }
  split; [apply Hperm |]. split; [exact Hasc |].
  clearbody sorted. clear Hperm Hsorts.
  intros a b before between after Heq. subst sorted.
  apply (Hasc (length before) (length before + S (length between))%nat a b); [lia | |].
  - apply list_lookup_middle. reflexivity.
  - change (before ++ a :: between ++ b :: after)
      with (before ++ (a :: between) ++ b :: after).
    rewrite app_assoc. apply list_lookup_middle.
    rewrite length_app. cbn [length]. lia.
Qed.

Import Samples.

Lemma Drift_ComputeCommand_sorts_by_drift_time_witness :
  let D := deps (@Sort.Slice Candidate) schedules in
  Permutation thirteen (sort_Slice D lessDrifted thirteen) /\
  ascending (sort_Slice D lessDrifted thirteen).
Proof.
  cbv zeta.
  pose proof (Drift_ComputeCommand_sorts_by_drift_time
                (deps (@Sort.Slice Candidate) schedules)
                thirteen
                (deps_Slice_permutes schedules)
                (deps_Slice_sorts schedules)) as H.
  cbv zeta in H. split; [exact (proj1 H) | exact (proj1 (proj2 H))].
Defined.

(** C2 as worded fails: Go's [sort.Slice] on thirteen candidates, of which
    the first twelve drifted at instant 1 and the last at instant 0, puts
    the last one first and leaves the twelve in another order than they
    came in. *)
Lemma sort_Slice_reorders_ties :
  let D := deps (@Sort.Slice Candidate) schedules in
  let sorted := sort_Slice D lessDrifted thirteen in
  map nodeName thirteen
    = ["n0"; "n1"; "n2"; "n3"; "n4"; "n5"; "n6"; "n7"; "n8"; "n9"; "n10"; "n11"; "n12"] /\
  map nodeName sorted
    = ["n12"; "n6"; "n2"; "n3"; "n4"; "n5"; "n0"; "n7"; "n8"; "n9"; "n10"; "n11"; "n1"] /\
  map driftedSince sorted = [0; 1; 1; 1; 1; 1; 1; 1; 1; 1; 1; 1; 1] /\
  ~ keeps_ties thirteen sorted.
Proof.
  cbv zeta.
  assert (Hnames : map nodeName (sort_Slice (deps (@Sort.Slice Candidate) schedules)
                                            lessDrifted thirteen)
                   = ["n12"; "n6"; "n2"; "n3"; "n4"; "n5"; "n0"; "n7"; "n8"; "n9"; "n10";
                      "n11"; "n1"]) by (vm_compute; reflexivity).
  split; [vm_compute; reflexivity |]. split; [exact Hnames |].
  split; [vm_compute; reflexivity |].
  intros Hties. specialize (Hties 1).
  apply (f_equal (map nodeName)) in Hties.
  vm_compute in Hties. discriminate Hties.
Qed.

End DriftSortTheorem.

(** ** The statements at sample inputs *)

Section SampleStatements.
Import Go Events Disruption Samples.

Lemma Command_Decision_spec_witness : Command_Decision Command_zero = NoOpDecision.
Proof.
  exact (proj1 (proj2 (proj2 (proj2 (Command_Decision_spec Command_zero)))) eq_refl).
Defined.

Lemma NewCandidate_blocking_pod_error_witness :
  exists c,
    snd (NewCandidate (candidateDeps ([web], Some pdbBlocks)) tt tt managedNode tt
                      {[ "default" := {| NodePool_Name := "default" |} ]}
                      {[ "default" := ∅ ]} tt EventualDisruptionClass)
    = Return (Some c) None.
Proof.
  refine (proj2 (proj1 (NewCandidate_blocking_pod_error
                          (candidateDeps ([web], Some pdbBlocks)) tt tt managedNode tt
                          {[ "default" := {| NodePool_Name := "default" |} ]}
                          {[ "default" := ∅ ]} tt EventualDisruptionClass
                          {| NodePool_Name := "default" |} ∅ [web] pdbBlocks
                          claimWithGracePeriod _ _ _ _ _ _ _)) _).
  - reflexivity.
  - reflexivity.
  - vm_compute. reflexivity.
  - vm_compute. reflexivity.
  - reflexivity.
  - reflexivity.
  - reflexivity.
  - split; [reflexivity | discriminate].
Defined.

Lemma consolidationMessage_spec_witness :
  contains (consolidationMessage (fun n => Node_Name (SN_Node n))
              [candidate "a" "default" 5 [web]]
              {| NewNodeClaims := [replacement]; PodErrors := [] |} f0_042)
           "total price of 0.042".
Proof.
  refine (proj2 (proj1 (consolidationMessage_spec (fun n => Node_Name (SN_Node n))
                          [candidate "a" "default" 5 [web]]
                          {| NewNodeClaims := [replacement]; PodErrors := [] |}) _)).
  discriminate.
Defined.

Lemma InsufficientCapacityErrorEvents_spec_witness :
  let nodeClaim := {| Lifecycle.Name := "claim-a"; Lifecycle.UID := "uid-a";
                      Lifecycle.Annotations := None; Lifecycle.Requirements := [] |} in
  Lifecycle.InsufficientCapacityErrorEvents lifecycleDeps nodeClaim "no capacity"
  = ([Lifecycle.nodeClaimEvent lifecycleDeps nodeClaim "no capacity"], []).
Proof.
  cbv zeta.
  refine (proj1 (proj2 (proj2 (proj2 (InsufficientCapacityErrorEvents_spec lifecycleDeps
            {| Lifecycle.Name := "claim-a"; Lifecycle.UID := "uid-a";
               Lifecycle.Annotations := None; Lifecycle.Requirements := [] |}
            "no capacity")))) _).
  reflexivity.
Defined.

Lemma annotateNodeClaimWithNominatedPods_spec_witness :
  let r := Provisioning.annotateNodeClaimWithNominatedPods
             replacement {| Provisioning.Annotations := None |} ∅ in
  Provisioning.deref (snd r) (Provisioning.Annotations (fst r)) !! "team"
  = Provisioning.deref ∅ None !! "team".
Proof.
  cbv zeta.
  refine (proj1 (proj2 (proj2 (proj2 (annotateNodeClaimWithNominatedPods_spec
            replacement {| Provisioning.Annotations := None |} ∅)))) "team" _).
  discriminate.
Defined.

End SampleStatements.

(** * Further properties *)

(** ** NewCandidate: what a call can yield *)

Section NewCandidateOutcomes.
Import Go Events Disruption.

Variable D : CandidateDeps.
Variable kubeClient : KubeClient D.
Variable clk : Clock D.
Variable node : StateNode.
Variable pdbs : PDBLimits D.
Variable nodePoolMap : gmap string NodePool.
Variable nodePoolToInstanceTypesMap : gmap string (gmap string InstanceType).
Variable queue : Queue D.
Variable disruptionClass : string.

Let r := NewCandidate D kubeClient clk node pdbs nodePoolMap
           nodePoolToInstanceTypesMap queue disruptionClass.
Let poolName := label (Labels D node) NodePoolLabelKey.

(** X1: a call that returns gives a candidate or an error, never both and
    never neither; a candidate comes without any event published; and the
    only nil dereference, at line 101, needs a node without NodeClaim
    that passed the node validation and failed the validation of its
    pods. *)
Theorem NewCandidate_candidate_xor_error :
  (forall c e, snd r = Return c e -> (c = None <-> e <> None)) /\
  (forall c e, snd r = Return (Some c) e -> fst r = []) /\
  (snd r = Panic ->
     SN_NodeClaim node = None /\
     ValidateNodeDisruptable D node = None /\
     HasAny D queue (ProviderID D node) = false /\
     snd (ValidatePodsDisruptable D node kubeClient pdbs) <> None).
Proof.
  subst r. unfold NewCandidate.
  destruct (ValidateNodeDisruptable D node) as [verr |] eqn:Hv.
  { cbn. repeat split; try congruence; intros; try discriminate.
    all: match goal with H : Return _ _ = Return _ _ |- _ => injection H as <- <- end;
      congruence. }
  destruct (HasAny D queue (ProviderID D node)) eqn:Hq.
  { cbn. repeat split; try congruence; intros; try discriminate.
    all: match goal with H : Return _ _ = Return _ _ |- _ => injection H as <- <- end;
      congruence. }
  cbv zeta.
  destruct (nodePoolMap !! label (Labels D node) NodePoolLabelKey) as [pool |];
    [destruct (nodePoolToInstanceTypesMap !! label (Labels D node) NodePoolLabelKey)
       as [instanceTypeMap |] |].
  2, 3: cbn; repeat split; try congruence; intros; try discriminate;
    match goal with H : Return _ _ = Return _ _ |- _ => injection H as <- <- end;
    congruence.
  destruct (ValidatePodsDisruptable D node kubeClient pdbs) as [pods [perr |]] eqn:Hp.
  2: { cbn. repeat split; try congruence; intros; try discriminate.
       all: match goal with H : Return _ _ = Return _ _ |- _ => injection H as <- <- end;
         congruence. }
  destruct (SN_NodeClaim node) as [nodeClaim |] eqn:Hnc.
  2: { cbn. repeat split; try congruence; intros; discriminate. }
  destruct (Ternary _ _ _) as [e' |] eqn:Ht.
  - assert (e' = perr) as ->.
    { unfold Ternary, IgnorePodBlockEvictionError in Ht.
      destruct (_ && _) in Ht; [destruct (IsPodBlockEvictionError perr) |]; congruence. }
    cbn. repeat split; try congruence; intros; try discriminate.
    all: match goal with H : Return _ _ = Return _ _ |- _ => injection H as <- <- end;
      congruence.
  - cbn. repeat split; try congruence; intros; try discriminate.
    all: match goal with H : Return _ _ = Return _ _ |- _ => injection H as <- <- end;
      congruence.
Qed.

(** X2: the errors a call can return, and the event that goes with each:
    the error of the node validation, published only for a node with a
    NodeClaim; the queue's "already being disrupted", without event; the
    node pool not found; or the error of the pod validation. *)
Theorem NewCandidate_errors (e : error) :
  snd r = Return None (Some e) ->
  (ValidateNodeDisruptable D node = Some e /\
   fst r = match SN_NodeClaim node with
           | Some _ => Blocked D (SN_Node node) (SN_NodeClaim node) (Sentence D (Error e))
           | None => []
           end) \/
  (ValidateNodeDisruptable D node = None /\
   HasAny D queue (ProviderID D node) = true /\
   e = errorString "candidate is already being disrupted" /\
   fst r = []) \/
  (ValidateNodeDisruptable D node = None /\
   HasAny D queue (ProviderID D node) = false /\
   (nodePoolMap !! poolName = None \/ nodePoolToInstanceTypesMap !! poolName = None) /\
   e = errorString ("nodepool " ++ Quote D poolName ++ " not found")%string /\
   fst r = Blocked D (SN_Node node) (SN_NodeClaim node)
                   ("NodePool " ++ Quote D poolName ++ " not found")%string) \/
  (ValidateNodeDisruptable D node = None /\
   HasAny D queue (ProviderID D node) = false /\
   is_Some (nodePoolMap !! poolName) /\
   is_Some (nodePoolToInstanceTypesMap !! poolName) /\
   snd (ValidatePodsDisruptable D node kubeClient pdbs) = Some e /\
   fst r = Blocked D (SN_Node node) (SN_NodeClaim node) (Sentence D (Error e))).
Proof.
  subst r poolName. unfold NewCandidate.
  destruct (ValidateNodeDisruptable D node) as [verr |] eqn:Hv.
  { cbn. intros [= ->]. left. split; reflexivity. }
  destruct (HasAny D queue (ProviderID D node)) eqn:Hq.
  { cbn. intros [= <-]. right. left. repeat split; reflexivity. }
  cbv zeta.
  destruct (nodePoolMap !! label (Labels D node) NodePoolLabelKey) as [pool |] eqn:Hpool;
    [destruct (nodePoolToInstanceTypesMap !! label (Labels D node) NodePoolLabelKey)
       as [instanceTypeMap |] eqn:Hit |].
  2, 3: cbn; intros [= <-]; right; right; left; repeat split; auto.
  destruct (ValidatePodsDisruptable D node kubeClient pdbs) as [pods [perr |]] eqn:Hp;
    [| cbn; discriminate].
  destruct (SN_NodeClaim node) as [nodeClaim |] eqn:Hnc; [| cbn; discriminate].
  destruct (Ternary _ _ _) as [e' |] eqn:Ht; [| cbn; discriminate].
  cbn. intros [= <-]. right; right; right. repeat split; eauto.
Qed.

(** X3: when a call yields a candidate, and what the candidate holds.
    The node passed its validation, is not in the queue and its pool is
    known with its instance types; its pods passed theirs, or failed it
    with an error that [IgnorePodBlockEvictionError] drops, on a node
    claim with a termination grace period, for the eventual class. An
    instance type that is not among the pool's is no obstacle: the field
    is nil then. A missing label reads as the empty string. *)
Theorem NewCandidate_success :
  ((exists c, snd r = Return (Some c) None) <->
   ValidateNodeDisruptable D node = None /\
   HasAny D queue (ProviderID D node) = false /\
   is_Some (nodePoolMap !! poolName) /\
   is_Some (nodePoolToInstanceTypesMap !! poolName) /\
   (snd (ValidatePodsDisruptable D node kubeClient pdbs) = None \/
    exists nodeClaim,
      SN_NodeClaim node = Some nodeClaim /\
      TerminationGracePeriod nodeClaim <> None /\
      disruptionClass = EventualDisruptionClass /\
      IgnorePodBlockEvictionError (snd (ValidatePodsDisruptable D node kubeClient pdbs))
        = None)) /\
  (forall c, snd r = Return (Some c) None ->
     Candidate_StateNode c = DeepCopy D node /\
     nodePoolMap !! poolName = Some (nodePool c) /\
     instanceType c
       = (nodePoolToInstanceTypesMap !! poolName) ≫=
           (fun m => m !! label (Labels D node) LabelInstanceTypeStable) /\
     zone c = default "" (Labels D node !! LabelTopologyZone) /\
     capacityType c = default "" (Labels D node !! CapacityTypeLabelKey) /\
     reschedulablePods c
       = List.filter (IsReschedulable D) (fst (ValidatePodsDisruptable D node kubeClient pdbs)) /\
     disruptionCost c
       = fmul (fmul (ReschedulingCost D (fst (ValidatePodsDisruptable D node kubeClient pdbs)))
                    (LifetimeRemaining D clk (nodePool c) (SN_NodeClaim node)))
              (Utilization D node)).
Proof.
  subst r poolName. unfold NewCandidate.
  destruct (ValidateNodeDisruptable D node) as [verr |] eqn:Hv.
  { cbn. split; [split |]; [intros [c [=]] | intros [[=] _] | intros c [=]]. }
  destruct (HasAny D queue (ProviderID D node)) eqn:Hq.
  { cbn. split; [split |]; [intros [c [=]] | intros (_ & [=] & _) | intros c [=]]. }
  cbv zeta.
  destruct (nodePoolMap !! label (Labels D node) NodePoolLabelKey) as [pool |] eqn:Hpool;
    [destruct (nodePoolToInstanceTypesMap !! label (Labels D node) NodePoolLabelKey)
       as [instanceTypeMap |] eqn:Hit |].
  2: { cbn. split; [split |]; [intros [c [=]] | | intros c [=]].
       intros (_ & _ & _ & [x [=]] & _). }
  2: { cbn. split; [split |]; [intros [c [=]] | | intros c [=]].
       intros (_ & _ & [x [=]] & _). }
  destruct (ValidatePodsDisruptable D node kubeClient pdbs) as [pods [perr |]] eqn:Hp.
  2: { cbn. split; [split |].
       - intros _. repeat split; eauto.
       - eauto.
       - intros c [= <-]. cbn. repeat split. }
  destruct (SN_NodeClaim node) as [nodeClaim |] eqn:Hnc.
  2: { cbn. split; [split |]; [intros [c [=]] | | intros c [=]].
       intros (_ & _ & _ & _ & [[=] | (nc & [=] & _)]). }
  unfold Ternary. cbn [snd fst].
  destruct (bool_decide (TerminationGracePeriod nodeClaim <> None)) eqn:Htgp;
    [apply bool_decide_eq_true in Htgp | apply bool_decide_eq_false in Htgp].
  2: { cbn. split; [split |]; [intros [c [=]] | | intros c [=]].
       intros (_ & _ & _ & _ & [[=] | (nc & [= <-] & Hn & _)]). contradiction. }
  destruct (String.eqb disruptionClass EventualDisruptionClass) eqn:Hclass;
    [apply String.eqb_eq in Hclass | apply String.eqb_neq in Hclass].
  2: { cbn. split; [split |]; [intros [c [=]] | | intros c [=]].
       intros (_ & _ & _ & _ & [[=] | (nc & _ & _ & Hc & _)]). contradiction. }
  cbn [andb].
  destruct (IgnorePodBlockEvictionError (Some perr)) as [e' |] eqn:Hig.
  - cbn. split; [split |]; [intros [c [=]] | | intros c [=]].
    intros (_ & _ & _ & _ & [[=] | (nc & _ & _ & _ & [=])]).
  - cbn. split; [split |].
    + intros _. repeat split; eauto. right. exists nodeClaim. repeat split; auto.
    + eauto.
    + intros c [= <-]. cbn. repeat split.
Qed.

End NewCandidateOutcomes.

(** ** Orders kept by sublists and by the stable sort *)

Section OrderLemmas.
Import Disruption.

Context {A : Type}.

Lemma filter_sublist (p : A -> bool) (l : list A) : sublist (List.filter p l) l.
Proof.
  induction l as [| x l IH]; cbn; [constructor |].
  destruct (p x); [apply sublist_skip | apply sublist_cons]; exact IH.
Qed.

Lemma sublist_In (l' l : list A) x : sublist l' l -> In x l' -> In x l.
Proof.
  intros Hs Hx. apply list_elem_of_In. eapply sublist_subseteq; [exact Hs |].
  apply list_elem_of_In, Hx.
Qed.

Lemma StronglySorted_sublist (R : A -> A -> Prop) (l' l : list A) :
  sublist l' l -> StronglySorted R l -> StronglySorted R l'.
Proof.
  induction 1 as [| x l1 l2 Hs IH | x l1 l2 Hs IH]; intros Hl.
  - constructor.
  - inversion Hl as [| ? ? Hrest Hall]; subst. constructor; [apply IH, Hrest |].
    rewrite List.Forall_forall in *. intros y Hy. apply Hall. eapply sublist_In; eauto.
  - inversion Hl as [| ? ? Hrest Hall]; subst. apply IH, Hrest.
Qed.

Lemma StronglySorted_sublist_same (R R' : A -> A -> Prop) (l : list A) :
  (forall a b, R a b -> R' a b) -> StronglySorted R l -> StronglySorted R' l.
Proof.
  intros HR. induction 1 as [| x l Hl IH Hall]; constructor; [exact IH |].
  eapply List.Forall_impl; [| exact Hall]. intros y. apply HR.
Qed.

Lemma StronglySorted_snoc (R : A -> A -> Prop) (l : list A) y :
  StronglySorted R l -> (forall z, In z l -> R z y) -> StronglySorted R (l ++ [y]).
Proof.
  induction l as [| x l IH]; intros Hl Hy; cbn.
  - repeat constructor.
  - inversion Hl as [| ? ? Hrest Hall]; subst. constructor.
    + apply IH; [exact Hrest | intros z Hz; apply Hy; now right].
    + rewrite List.Forall_forall in *. intros z Hz. apply in_app_iff in Hz as [Hz | [<- | []]].
      * apply Hall, Hz.
      * apply Hy. now left.
Qed.

Lemma StronglySorted_rev (R : A -> A -> Prop) (r : list A) :
  StronglySorted (fun a b => R b a) r -> StronglySorted R (rev r).
Proof.
  induction 1 as [| y r Hr IH Hall]; cbn; [constructor |].
  apply StronglySorted_snoc; [exact IH |].
  intros z Hz. apply in_rev in Hz. rewrite List.Forall_forall in Hall. apply Hall, Hz.
Qed.

Lemma StronglySorted_between (R : A -> A -> Prop) (l before between after : list A) a b :
  StronglySorted R l -> l = before ++ a :: between ++ b :: after -> R a b.
Proof.
  intros Hl ->. induction before as [| x before IH]; cbn in Hl.
  - inversion Hl as [| ? ? _ Hall]; subst. rewrite List.Forall_forall in Hall.
    apply Hall. apply in_app_iff. right. now left.
  - inversion Hl; subst. auto.
Qed.

Lemma sorted_by_StronglySorted (less : A -> A -> bool) (l : list A) :
  sorted_by less l -> StronglySorted (fun a b => less b a = false) l.
Proof.
  induction l as [| x l IH]; intros Hl; constructor.
  - apply IH. intros i j a b Hij Ha Hb. apply (Hl (S i) (S j) a b); [lia | exact Ha | exact Hb].
  - rewrite List.Forall_forall. intros y Hy.
    apply list_elem_of_In, list_elem_of_lookup in Hy as [j Hj].
    apply (Hl 0%nat (S j) x y); [lia | reflexivity | exact Hj].
Qed.

(** The stable sort by a key, of a list that is in order already: equal
    keys stay in that order. *)
Variable key : A -> Z.
Variable R0 : A -> A -> Prop.

Let byKey (a b : A) : bool := (key a <? key b)%Z.
Let lex (a b : A) : Prop := (key a < key b)%Z \/ (key a = key b /\ R0 a b).

Lemma insert_from_right_lex x r :
  StronglySorted (fun a b => lex b a) r ->
  (forall y, In y r -> R0 y x) ->
  StronglySorted (fun a b => lex b a) (insert_from_right byKey x r).
Proof.
  induction r as [| y r IH]; intros Hr Hx; cbn.
  - repeat constructor.
  - inversion Hr as [| ? ? Hrest Hall]; subst. rewrite List.Forall_forall in Hall.
    unfold byKey at 1. destruct (key x <? key y)%Z eqn:Hlt.
    + apply Z.ltb_lt in Hlt. constructor.
      * apply IH; [exact Hrest | intros z Hz; apply Hx; now right].
      * rewrite List.Forall_forall. intros z Hz.
        apply (Permutation_in _ (Permutation_sym (insert_from_right_perm byKey x r))) in Hz.
        destruct Hz as [<- | Hz]; [left; exact Hlt | apply Hall, Hz].
    + apply Z.ltb_ge in Hlt. constructor; [exact Hr |].
      rewrite List.Forall_forall. intros z Hz.
      assert (Hzy : z = y \/ lex z y) by (destruct Hz as [<- | Hz]; [now left | right; apply Hall, Hz]).
      assert (Hkey : (key z <= key x)%Z).
      { destruct Hzy as [-> | [Hk | [Hk _]]]; lia. }
      destruct (Z.eq_dec (key z) (key x)) as [Heq | Hne].
      * right. split; [exact Heq | apply Hx, Hz].
      * left. lia.
Qed.

Lemma insertion_loop_lex l : forall r,
  StronglySorted (fun a b => lex b a) r ->
  StronglySorted R0 l ->
  (forall y x, In y r -> In x l -> R0 y x) ->
  StronglySorted (fun a b => lex b a)
    (fold_left (fun sorted_rev x => insert_from_right byKey x sorted_rev) l r).
Proof.
  induction l as [| x l IH]; intros r Hr Hl Hcross; cbn; [exact Hr |].
  inversion Hl as [| ? ? Hrest Hall]; subst. rewrite List.Forall_forall in Hall.
  apply IH; [| exact Hrest |].
  - apply insert_from_right_lex; [exact Hr |]. intros y Hy. apply Hcross; [exact Hy | now left].
  - intros y x' Hy Hx'.
    apply (Permutation_in _ (Permutation_sym (insert_from_right_perm byKey x r))) in Hy.
    destruct Hy as [<- | Hy]; [apply Hall, Hx' | apply Hcross; [exact Hy | now right]].
Qed.

Lemma sort_SliceStable_lex l :
  StronglySorted R0 l -> StronglySorted lex (sort_SliceStable byKey l).
Proof.
  intros Hl. unfold sort_SliceStable, insertionSort. apply StronglySorted_rev.
  apply insertion_loop_lex; [constructor | exact Hl | intros y x []].
Qed.

End OrderLemmas.

(** ** Drift.ComputeCommand: which candidates, in which order *)

Section DriftCandidates.
Import Go Events Disruption.

Variable D : DriftDeps.

Lemma scanEmpty_sublist l : forall m, sublist (fst (scanEmpty m l)) l.
Proof.
  induction l as [| c l IH]; intros m; [constructor |].
  rewrite scanEmpty_cons.
  destruct (isEmpty c && (0 <? budget m (nodePoolName c) Drift_Reason));
    [apply sublist_skip | apply sublist_cons]; apply IH.
Qed.

Lemma emptyWithinBudget_positive m l : forall seen c,
  In c (emptyWithinBudget m seen l) -> 0 < budget m (nodePoolName c) Drift_Reason.
Proof.
  induction l as [| x l IH]; intros seen c Hc; cbn in Hc; [contradiction |].
  apply in_app_iff in Hc as [Hc | Hc]; [| eapply IH; exact Hc].
  destruct (isEmpty x && _) eqn:Htake; [| contradiction].
  destruct Hc as [<- | []]. apply andb_true_iff in Htake as [_ Hlt].
  apply Z.ltb_lt in Hlt. lia.
Qed.

Lemma simulatedOf_app t1 t2 : simulatedOf (t1 ++ t2) = simulatedOf t1 ++ simulatedOf t2.
Proof. unfold simulatedOf. apply flat_map_app. Qed.

(** The simulations of the scan are those of the candidates with budget,
    in the order of the list, up to the one that ends the scan. *)
Lemma scanCandidates_simulates m cands : forall w trace,
  let r := scanCandidates D m cands w trace in
  exists sims rest,
    simulatedOf (snd (snd r)) = simulatedOf trace ++ sims /\
    List.filter (hasBudget m) cands = sims ++ rest /\
    (fst r = (Command_zero, Results_zero, None) -> rest = []) /\
    (forall c, candidates (fst (fst (fst r))) = [c] -> exists pre, sims = pre ++ [c]) /\
    (forall e, snd (fst r) = Some e -> exists pre c, sims = pre ++ [c]).
Proof.
  induction cands as [| c rest IH]; intros w trace; cbn [scanCandidates].
  - exists [], []. cbn. rewrite app_nil_r. repeat split; try discriminate; auto.
  - cbn [List.filter]. unfold hasBudget at 1.
    destruct (budget m (nodePoolName c) Drift_Reason =? 0) eqn:Hb; cbn [negb]; [apply IH |].
    destruct (SimulateScheduling D w c) as [[res [e |]] w'] eqn:Hsim.
    + destruct (Is_errCandidateDeleting e) eqn:Hdel.
      * destruct (IH w' (trace ++ [Simulated c])) as (sims & rest' & H1 & H2 & H3 & H4 & H5).
        exists (c :: sims), rest'. cbv zeta in *.
        split; [rewrite H1, !simulatedOf_app; cbn; rewrite ?app_nil_r, <- ?app_assoc;
                reflexivity |].
        split; [rewrite H2; reflexivity |]. split; [exact H3 |]. split.
        -- intros c' Hc'. destruct (H4 c' Hc') as [pre ->]. exists (c :: pre). reflexivity.
        -- intros e' He'. destruct (H5 e' He') as (pre & c' & ->). exists (c :: pre), c'.
           reflexivity.
      * exists [c], (List.filter (hasBudget m) rest). cbn.
        rewrite simulatedOf_app. cbn. repeat split; try discriminate.
        intros e' _. exists [], c. reflexivity.
    + destruct (AllNonPendingPodsScheduled D res) eqn:Hall; cbn [negb].
      * exists [c], (List.filter (hasBudget m) rest). cbn.
        rewrite simulatedOf_app. cbn. repeat split; try discriminate.
        intros c' [= <-]. exists []. reflexivity.
      * destruct (IH w' ((trace ++ [Simulated c]) ++
                         [Published (DriftBlocked D (SN_Node (Candidate_StateNode c))
                                       (nodeClaimOf c) (NonPendingPodSchedulingErrors D res))]))
          as (sims & rest' & H1 & H2 & H3 & H4 & H5).
        exists (c :: sims), rest'. cbv zeta in *.
        split; [rewrite H1, !simulatedOf_app; cbn; rewrite ?app_nil_r, <- ?app_assoc;
                reflexivity |].
        split; [rewrite H2; reflexivity |]. split; [exact H3 |]. split.
        -- intros c' Hc'. destruct (H4 c' Hc') as [pre ->]. exists (c :: pre). reflexivity.
        -- intros e' He'. destruct (H5 e' He') as (pre & c' & ->). exists (c :: pre), c'.
           reflexivity.
Qed.

(** How a call that goes on to the simulations ends. *)
Lemma ComputeCommand_simulation_cases m cands w :
  tookFastPath D m cands = false ->
  let out := Drift_ComputeCommand D m cands w in
  let resorted := sort_SliceStable (lessUnevictable D w) (sort_Slice D lessDrifted cands) in
  (command out = Command_zero /\ results out = Results_zero /\ err out = None) \/
  (exists e pre c,
      command out = Command_zero /\ results out = Results_zero /\ err out = Some e /\
      Is_errCandidateDeleting e = false /\ In c resorted /\
      effects out = pre ++ [Simulated c]) \/
  (exists c pre,
      command out = {| candidates := [c]; replacements := NewNodeClaims (results out) |} /\
      err out = None /\ In c resorted /\
      budget m (nodePoolName c) Drift_Reason <> 0 /\
      AllNonPendingPodsScheduled D (results out) = true /\
      effects out = pre ++ [Simulated c]).
Proof.
  intros Hfast. cbv zeta. rewrite ComputeCommand_simulation_path by exact Hfast. cbn.
  pose proof (scanCandidates_end D m
                (sort_SliceStable (lessUnevictable D w) (sort_Slice D lessDrifted cands))
                w []) as Hend.
  destruct (scanCandidates D m _ w []) as [[[cmd res] e] [w' trace]]. cbn in *.
  remember (cmd, res, e) as triple eqn:Ht.
  destruct Hend as [trace | e' pre c He Hc | c res' pre Hc Hb Hall]; injection Ht as <- <- <-.
  - left. auto.
  - right. left. exists e', pre, c. repeat split; auto.
  - right. right. exists c, pre. repeat split; auto.
Qed.

(** X7: the command holds candidates of the call, each at most as often
    as the call was given it; with no candidate at all nothing is done. *)
Theorem Drift_ComputeCommand_candidates_from_input
    (m : Budgets) (cands : list Candidate) (w : World D) :
  sort_Slice_permutes D ->
  let out := Drift_ComputeCommand D m cands w in
  (exists rest, Permutation cands (candidates (command out) ++ rest)) /\
  (length (candidates (command out)) <= length cands)%nat /\
  (cands = [] ->
   out = {| command := Command_zero; results := Results_zero; err := None;
            budgets := m; world := w; effects := [] |}).
Proof.
  intros Hperm out.
  assert (Hsub : exists rest, Permutation cands (candidates (command out) ++ rest)).
  { subst out. destruct (tookFastPath D m cands) eqn:Hfast.
    - rewrite ComputeCommand_fast_path by exact Hfast. cbn.
      destruct (submseteq_Permutation _ _
                  (sublist_submseteq _ _ (scanEmpty_sublist (sort_Slice D lessDrifted cands) m)))
        as [rest Hrest].
      exists rest. rewrite <- Hrest. apply Hperm.
    - destruct (ComputeCommand_simulation_cases m cands w Hfast)
        as [(-> & _) | [(e & pre & c & -> & _) | (c & pre & -> & _ & Hc & _)]];
        [exists cands; reflexivity | exists cands; reflexivity |]. cbn.
      apply in_split in Hc as (l1 & l2 & Hsplit).
      exists (l1 ++ l2). rewrite (resorted_Permutation D Hperm w cands), Hsplit.
      symmetry. apply Permutation_middle. }
  split; [exact Hsub |]. split.
  - destruct Hsub as [rest Hrest]. apply Permutation_length in Hrest.
    rewrite length_app in Hrest. lia.
  - intros ->. subst out.
    assert (Hnil : sort_Slice D lessDrifted [] = []).
    { apply Permutation_nil. apply Hperm. }
    unfold Drift_ComputeCommand. rewrite Hnil. reflexivity.
Qed.

(** X8: a pool whose drift budget reads 0, as it does when the mapping
    has no entry for it, is left alone: none of its candidates is in the
    command, and none is simulated. On the fast path the budget of every
    candidate taken was positive. *)
Theorem Drift_ComputeCommand_exhausted_pools
    (m : Budgets) (cands : list Candidate) (w : World D) :
  budgets_are_ints m ->
  let out := Drift_ComputeCommand D m cands w in
  (forall c, In c (candidates (command out)) \/ In c (simulatedOf (effects out)) ->
             budget m (nodePoolName c) Drift_Reason <> 0 /\
             is_Some (m !! nodePoolName c)) /\
  (tookFastPath D m cands = true ->
   forall c, In c (candidates (command out)) -> 0 < budget m (nodePoolName c) Drift_Reason).
Proof.
  intros Hints out.
  assert (Hsome : forall c, budget m (nodePoolName c) Drift_Reason <> 0 ->
                            is_Some (m !! nodePoolName c)).
  { intros c Hb. unfold budget in Hb. destruct (m !! nodePoolName c); [eauto | now cbn in Hb]. }
  assert (Hfast : tookFastPath D m cands = true ->
            forall c, In c (candidates (command out)) ->
                      0 < budget m (nodePoolName c) Drift_Reason).
  { intros Hf c Hc. subst out. rewrite ComputeCommand_fast_path in Hc by exact Hf.
    cbn in Hc. rewrite (scanEmpty_within_budget m _ m []) in Hc;
      [| exact Hints | apply midway_start].
    eapply emptyWithinBudget_positive; exact Hc. }
  split; [| exact Hfast].
  assert (Hne : forall c, In c (candidates (command out)) \/ In c (simulatedOf (effects out)) ->
                          budget m (nodePoolName c) Drift_Reason <> 0).
  { intros c Hc. destruct (tookFastPath D m cands) eqn:Hf.
    - destruct Hc as [Hc | Hc]; [specialize (Hfast eq_refl c Hc); lia |].
      subst out. rewrite ComputeCommand_fast_path in Hc by exact Hf. destruct Hc.
    - subst out. rewrite ComputeCommand_simulation_path in Hc by exact Hf.
      cbn [command effects] in Hc.
      set (resorted := sort_SliceStable (lessUnevictable D w) (sort_Slice D lessDrifted cands))
        in *.
      destruct (scanCandidates_simulates m resorted w [])
        as (sims & rest & H1 & H2 & _ & H4 & _). cbv zeta in *.
      change (simulatedOf []) with (@nil Candidate) in H1. cbn [app] in H1.
      assert (Hin : In c sims).
      { destruct Hc as [Hc | Hc]; [| rewrite H1 in Hc; exact Hc].
        set (cs := candidates (fst (fst (fst (scanCandidates D m resorted w []))))) in *.
        destruct cs as [| c0 [| c1 l]] eqn:Hcs; [contradiction | |].
        - destruct Hc as [<- | []]. destruct (H4 c0 eq_refl) as [pre ->].
          apply in_app_iff. right. now left.
        - pose proof (scanCandidates_end D m resorted w []) as Hend.
          destruct (scanCandidates D m resorted w []) as [[[cmd res] e] [w' trace]].
          cbn in Hcs, Hend. remember (cmd, res, e) as triple eqn:Ht.
          destruct Hend; injection Ht as <- <- <-; cbn in Hcs; discriminate. }
      assert (Hf' : In c (List.filter (hasBudget m) resorted))
        by (rewrite H2; apply in_app_iff; now left).
      apply filter_In in Hf' as [_ Hb]. unfold hasBudget in Hb.
      apply negb_true_iff, Z.eqb_neq in Hb. exact Hb. }
  intros c Hc. split; [apply Hne, Hc | apply Hsome, Hne, Hc].
Qed.

(** X9: the two tests of the budget differ on a negative entry. Line 83
    asks for a positive one, so no candidate is taken on the fast path;
    line 122 only stops at 0, so the call goes on to simulate a
    candidate, empty or not, and the mapping is left as it was. *)
Theorem Drift_ComputeCommand_negative_budget
    (m : Budgets) (cands : list Candidate) (w : World D) :
  sort_Slice_permutes D ->
  (forall c, In c cands -> budget m (nodePoolName c) Drift_Reason < 0) ->
  cands <> [] ->
  let out := Drift_ComputeCommand D m cands w in
  tookFastPath D m cands = false /\
  budgets out = m /\
  exists c more, In c cands /\ effects out = Simulated c :: more.
Proof.
  intros Hperm Hneg Hne out.
  assert (Hfast : tookFastPath D m cands = false).
  { destruct (tookFastPath D m cands) eqn:Hf; [| reflexivity].
    apply tookFastPath_true in Hf. exfalso. apply Hf.
    assert (Hall : forall l m', (forall c, In c l -> budget m' (nodePoolName c) Drift_Reason < 0) ->
                                fst (scanEmpty m' l) = []).
    { clear. induction l as [| c l IH]; intros m' Hl; [reflexivity |].
      rewrite scanEmpty_cons.
      assert (Hc : budget m' (nodePoolName c) Drift_Reason < 0) by (apply Hl; now left).
      replace (0 <? budget m' (nodePoolName c) Drift_Reason) with false
        by (symmetry; apply Z.ltb_ge; lia).
      rewrite andb_false_r. apply IH. intros c' Hc''. apply Hl. now right. }
    apply Hall. intros c' Hc'. apply Hneg.
    apply (Permutation_in _ (Permutation_sym (Hperm lessDrifted cands))), Hc'. }
  split; [exact Hfast |]. subst out.
  rewrite ComputeCommand_simulation_path by exact Hfast. cbn. split; [reflexivity |].
  set (resorted := sort_SliceStable (lessUnevictable D w) (sort_Slice D lessDrifted cands)).
  pose proof (resorted_Permutation D Hperm w cands) as Hres. fold resorted in Hres.
  destruct resorted as [| c rest] eqn:Hr.
  { apply Permutation_sym, Permutation_nil in Hres. contradiction. }
  assert (Hc : In c cands).
  { apply (Permutation_in _ (Permutation_sym Hres)). now left. }
  exists c. cbn [scanCandidates].
  replace (budget m (nodePoolName c) Drift_Reason =? 0) with false
    by (symmetry; apply Z.eqb_neq; specialize (Hneg c Hc); lia).
  destruct (SimulateScheduling D w c) as [[res [e |]] w'].
  - destruct (Is_errCandidateDeleting e).
    + destruct (scanCandidates_trace D m rest w' ([] ++ [Simulated c])) as [more ->].
      exists more. split; [exact Hc | reflexivity].
    + exists []. split; [exact Hc | reflexivity].
  - destruct (negb (AllNonPendingPodsScheduled D res)).
    + destruct (scanCandidates_trace D m rest w'
                  (([] ++ [Simulated c]) ++
                   [Published (DriftBlocked D (SN_Node (Candidate_StateNode c))
                                 (nodeClaimOf c) (NonPendingPodSchedulingErrors D res))]))
        as [more ->].
      eexists. split; [exact Hc | reflexivity].
    + exists []. split; [exact Hc | reflexivity].
Qed.

(** The candidates as lines 68 and 111 leave them: sorted by the number of
    pods waiting for eviction, and by the instant of the drift among
    candidates with the same number. *)
Lemma resorted_triedBefore (cands : list Candidate) (w : World D) :
  sort_Slice_sorts D ->
  StronglySorted (triedBefore D w)
    (sort_SliceStable (lessUnevictable D w) (sort_Slice D lessDrifted cands)).
Proof.
  intros Hsorts.
  apply (sort_SliceStable_lex (unevictablePods D w)
           (fun a b => driftedSince a <= driftedSince b)).
  pose proof (sorted_by_StronglySorted _ _ (Hsorts lessDrifted cands lessDrifted_strict_weak_order))
    as Hs.
  eapply StronglySorted_sublist_same; [| exact Hs].
  intros a b Hab. unfold lessDrifted in Hab. apply Z.ltb_ge in Hab. exact Hab.
Qed.

Lemma simulations_prefix (m : Budgets) (cands : list Candidate) (w : World D) :
  tookFastPath D m cands = false ->
  exists rest,
    List.filter (hasBudget m)
      (sort_SliceStable (lessUnevictable D w) (sort_Slice D lessDrifted cands))
    = simulatedOf (effects (Drift_ComputeCommand D m cands w)) ++ rest.
Proof.
  intros Hfast. rewrite ComputeCommand_simulation_path by exact Hfast. cbn [effects].
  destruct (scanCandidates_simulates m
              (sort_SliceStable (lessUnevictable D w) (sort_Slice D lessDrifted cands)) w [])
    as (sims & rest & H1 & H2 & _). cbv zeta in *.
  change (simulatedOf []) with (@nil Candidate) in H1. cbn [app] in H1.
  exists rest. rewrite H1. exact H2.
Qed.

Lemma passOver_simulated m before : forall w trace w1 t1,
  passOver D m before w trace = Some (w1, t1) ->
  simulatedOf t1 = simulatedOf trace ++ List.filter (hasBudget m) before.
Proof.
  induction before as [| c before IH]; intros w trace w1 t1 Hpass; cbn [passOver] in Hpass.
  - injection Hpass as <- <-. cbn. now rewrite app_nil_r.
  - cbn [List.filter]. unfold hasBudget at 1.
    destruct (budget m (nodePoolName c) Drift_Reason =? 0); cbn [negb]; [eapply IH, Hpass |].
    destruct (SimulateScheduling D w c) as [[res [e |]] w'].
    + destruct (Is_errCandidateDeleting e); [| discriminate].
      rewrite (IH _ _ _ _ Hpass), simulatedOf_app, <- app_assoc. reflexivity.
    + destruct (AllNonPendingPodsScheduled D res); [discriminate |].
      rewrite (IH _ _ _ _ Hpass), !simulatedOf_app, <- !app_assoc. reflexivity.
Qed.

(** X10: on the way through the simulations, the candidates simulated are
    those whose pool has budget, taken in the order of the sorted list
    and without a gap. The scan stops at the first candidate that can be
    disrupted or that fails: when it has passed over the candidates
    before [c], for being deleted or for pods without a place, and the
    simulation of [c] places all the pods or fails otherwise, then the
    candidates simulated are those with budget before [c] and [c], and
    none after it. When every candidate is passed over, all those with
    budget are simulated. *)
Theorem Drift_ComputeCommand_simulations_in_order
    (m : Budgets) (cands : list Candidate) (w : World D) :
  tookFastPath D m cands = false ->
  let out := Drift_ComputeCommand D m cands w in
  let resorted := sort_SliceStable (lessUnevictable D w) (sort_Slice D lessDrifted cands) in
  (exists rest,
    List.filter (hasBudget m) resorted = simulatedOf (effects out) ++ rest /\
    (candidates (command out) = [] -> err out = None -> rest = []) /\
    (forall c, candidates (command out) = [c] ->
               exists pre, simulatedOf (effects out) = pre ++ [c]) /\
    (forall e, err out = Some e -> simulatedOf (effects out) <> [])) /\
  (forall before c after w1 t1 res e w2,
      resorted = before ++ c :: after ->
      passOver D m before w [] = Some (w1, t1) ->
      hasBudget m c = true ->
      SimulateScheduling D w1 c = ((res, e), w2) ->
      match e with
      | Some e' => Is_errCandidateDeleting e' = false
      | None => AllNonPendingPodsScheduled D res = true
      end ->
      simulatedOf (effects out) = List.filter (hasBudget m) before ++ [c] /\
      effects out = t1 ++ [Simulated c] /\
      world out = w2 /\
      candidates (command out) = match e with Some _ => [] | None => [c] end /\
      err out = e) /\
  (forall w1 t1,
      passOver D m resorted w [] = Some (w1, t1) ->
      simulatedOf (effects out) = List.filter (hasBudget m) resorted /\
      effects out = t1 /\ world out = w1 /\
      command out = Command_zero /\ err out = None).
Proof.
  intros Hfast out resorted.
  split; [| split].
  - pose proof (ComputeCommand_simulation_cases m cands w Hfast) as Hcases.
    subst out. cbv zeta in Hcases. rewrite ComputeCommand_simulation_path in * by exact Hfast.
    cbn [command effects err results] in *. fold resorted in Hcases |- *.
    destruct (scanCandidates_simulates m resorted w [])
      as (sims & rest & H1 & H2 & H3 & H4 & H5). cbv zeta in *.
    change (simulatedOf []) with (@nil Candidate) in H1. cbn [app] in H1.
    exists rest. rewrite H1. split; [exact H2 |]. split; [| split].
    + intros Hnil Hnone. apply H3.
      destruct (scanCandidates D m resorted w []) as [[[cmd res] e] [w' trace]].
      cbn in *. subst e.
      destruct Hcases as [(-> & -> & _) | [(e & pre & c & _ & _ & [=] & _) |
                                           (c & pre & -> & _)]]; [reflexivity | discriminate].
    + exact H4.
    + intros e He. destruct (H5 e He) as (pre & c & ->). now destruct pre.
  - intros before c after w1 t1 res e w2 Hsplit Hpass Hb Hsim Hend.
    unfold hasBudget in Hb. apply negb_true_iff, Z.eqb_neq in Hb.
    pose proof (passOver_simulated m before w [] w1 t1 Hpass) as Hsims.
    change (simulatedOf []) with (@nil Candidate) in Hsims. cbn [app] in Hsims.
    subst out. destruct e as [e' |].
    + rewrite (ComputeCommand_aborts D m cands w before c after w1 t1 res e' w2
                 Hfast Hsplit Hpass Hb Hsim Hend).
      cbn [effects world command candidates err Command_zero].
      rewrite simulatedOf_app, Hsims. repeat split.
    + rewrite (ComputeCommand_returns D m cands w before c after w1 t1 res w2
                 Hfast Hsplit Hpass Hb Hsim Hend).
      cbn [effects world command candidates err].
      rewrite simulatedOf_app, Hsims. repeat split.
  - intros w1 t1 Hpass. subst out.
    rewrite (ComputeCommand_exhausts D m cands w w1 t1 Hfast Hpass).
    cbn [effects world command err].
    pose proof (passOver_simulated m resorted w [] w1 t1 Hpass) as Hsims.
    change (simulatedOf []) with (@nil Candidate) in Hsims. cbn [app] in Hsims.
    repeat split. exact Hsims.
Qed.

(** X11: the simulations of a call run in this order: a candidate with
    fewer pods that wait for eviction and cannot be disrupted comes before
    one with more, and among candidates with equally many the one whose
    drift is older comes first. *)
Theorem Drift_ComputeCommand_simulation_order
    (m : Budgets) (cands : list Candidate) (w : World D) :
  sort_Slice_sorts D ->
  let out := Drift_ComputeCommand D m cands w in
  forall before a between b after,
    simulatedOf (effects out) = before ++ a :: between ++ b :: after ->
    triedBefore D w a b.
Proof.
  intros Hsorts out before a between b after Hsplit.
  destruct (tookFastPath D m cands) eqn:Hfast.
  { subst out. rewrite ComputeCommand_fast_path in Hsplit by exact Hfast.
    cbn in Hsplit. now destruct before. }
  subst out. destruct (simulations_prefix m cands w Hfast) as [rest Hrest].
  eapply StronglySorted_between; [| exact Hsplit].
  eapply StronglySorted_sublist; [| apply (resorted_triedBefore cands w Hsorts)].
  transitivity (List.filter (hasBudget m)
                  (sort_SliceStable (lessUnevictable D w) (sort_Slice D lessDrifted cands)));
    [| apply filter_sublist].
  rewrite Hrest. apply sublist_inserts_r. reflexivity.
Qed.

(** X12: a candidate whose pool has budget and that was not simulated
    would have come after every candidate that was: it has no fewer pods
    waiting for eviction, and with equally many it drifted no earlier. *)
Theorem Drift_ComputeCommand_untried_come_later
    (m : Budgets) (cands : list Candidate) (w : World D) :
  sort_Slice_permutes D ->
  sort_Slice_sorts D ->
  let out := Drift_ComputeCommand D m cands w in
  forall a c,
    In a (simulatedOf (effects out)) ->
    In c cands -> hasBudget m c = true -> ~ In c (simulatedOf (effects out)) ->
    triedBefore D w a c.
Proof.
  intros Hperm Hsorts out a c Ha Hc Hb Hnot.
  destruct (tookFastPath D m cands) eqn:Hfast.
  { subst out. rewrite ComputeCommand_fast_path in Ha by exact Hfast. destruct Ha. }
  subst out. destruct (simulations_prefix m cands w Hfast) as [rest Hrest].
  set (resorted := sort_SliceStable (lessUnevictable D w) (sort_Slice D lessDrifted cands)) in *.
  assert (Hin : In c (List.filter (hasBudget m) resorted)).
  { apply filter_In. split; [| exact Hb].
    apply (Permutation_in _ (resorted_Permutation D Hperm w cands)), Hc. }
  rewrite Hrest in Hin. apply in_app_iff in Hin as [Hin | Hin]; [contradiction |].
  assert (Hs : StronglySorted (triedBefore D w)
                (simulatedOf (effects (Drift_ComputeCommand D m cands w)) ++ rest)).
  { rewrite <- Hrest. eapply StronglySorted_sublist; [apply filter_sublist |].
    apply (resorted_triedBefore cands w Hsorts). }
  apply in_split in Ha as (l1 & l2 & Ha). apply in_split in Hin as (l3 & l4 & Hin).
  apply (StronglySorted_between _ _ l1 (l2 ++ l3) l4 a c Hs).
  rewrite Ha, Hin, <- app_assoc. cbn [app]. rewrite <- app_assoc. reflexivity.
Qed.

(** X13: what a call decides. A call that fails decides nothing; the
    fast path always deletes; a replacement is decided for one candidate
    only, with the node claims of its simulation; and the command is a
    no-op exactly when it holds no candidate. *)
Theorem Drift_ComputeCommand_decision
    (m : Budgets) (cands : list Candidate) (w : World D) :
  let out := Drift_ComputeCommand D m cands w in
  (err out <> None -> Command_Decision (command out) = NoOpDecision) /\
  (tookFastPath D m cands = true -> Command_Decision (command out) = DeleteDecision) /\
  (Command_Decision (command out) = ReplaceDecision ->
     tookFastPath D m cands = false /\
     NewNodeClaims (results out) <> [] /\
     exists c, command out
               = {| candidates := [c]; replacements := NewNodeClaims (results out) |}) /\
  (Command_Decision (command out) = NoOpDecision <-> candidates (command out) = []).
Proof.
  intros out.
  assert (Hnoop : Command_Decision (command out) = NoOpDecision <-> candidates (command out) = []).
  { rewrite Command_Decision_sizes.
    destruct (candidates (command out)), (replacements (command out)); cbn;
      split; congruence. }
  assert (Hfastdel : tookFastPath D m cands = true ->
                     Command_Decision (command out) = DeleteDecision).
  { intros Hf. subst out. rewrite ComputeCommand_fast_path by exact Hf.
    apply tookFastPath_true in Hf. rewrite Command_Decision_sizes. cbn.
    destruct (fst (scanEmpty m (sort_Slice D lessDrifted cands))); [congruence | reflexivity]. }
  subst out.
  split; [| split; [exact Hfastdel | split; [| exact Hnoop]]].
  - intros He. destruct (tookFastPath D m cands) eqn:Hf.
    + rewrite ComputeCommand_fast_path in He by exact Hf. now cbn in He.
    + destruct (ComputeCommand_simulation_cases m cands w Hf)
        as [(_ & _ & Hn) | [(e & pre & c & -> & _) | (c & pre & _ & Hn & _)]];
        try congruence. reflexivity.
  - intros Hrep. destruct (tookFastPath D m cands) eqn:Hf.
    { rewrite (Hfastdel eq_refl) in Hrep. discriminate. }
    split; [reflexivity |].
    destruct (ComputeCommand_simulation_cases m cands w Hf)
      as [(Hc & _) | [(e & pre & c & Hc & _) | (c & pre & Hc & _)]];
      rewrite Hc in Hrep |- *; try discriminate.
    split; [| exists c; reflexivity].
    rewrite Command_Decision_sizes in Hrep. cbn in Hrep.
    destruct (NewNodeClaims _); [discriminate | congruence].
Qed.

(** X14: the candidates of a command are in the order of their drift,
    oldest first: the fast path keeps the order of the first sort. *)
Theorem Drift_ComputeCommand_oldest_first
    (m : Budgets) (cands : list Candidate) (w : World D) :
  sort_Slice_sorts D ->
  let out := Drift_ComputeCommand D m cands w in
  forall before a between b after,
    candidates (command out) = before ++ a :: between ++ b :: after ->
    driftedSince a <= driftedSince b.
Proof.
  intros Hsorts out before a between b after Hsplit.
  destruct (tookFastPath D m cands) eqn:Hfast.
  - subst out. rewrite ComputeCommand_fast_path in Hsplit by exact Hfast. cbn in Hsplit.
    eapply (StronglySorted_between (fun a b => driftedSince a <= driftedSince b));
      [| exact Hsplit].
    eapply StronglySorted_sublist; [apply scanEmpty_sublist |].
    pose proof (sorted_by_StronglySorted _ _
                  (Hsorts lessDrifted cands lessDrifted_strict_weak_order)) as Hs.
    eapply StronglySorted_sublist_same; [| exact Hs].
    intros x y Hxy. unfold lessDrifted in Hxy. apply Z.ltb_ge in Hxy. exact Hxy.
  - subst out. destruct (ComputeCommand_simulation_cases m cands w Hfast)
      as [(Hc & _) | [(e & pre & c & Hc & _) | (c & pre & Hc & _)]];
      rewrite Hc in Hsplit; cbn in Hsplit.
    + now destruct before.
    + now destruct before.
    + destruct before as [| x [| y before]]; cbn in Hsplit; try discriminate.
      injection Hsplit as _ Hsplit. now destruct between.
Qed.

(** X15: the budgets are never overdrawn. A call leaves the mapping a
    mapping of ints, lowers no entry below 0 that was not below it, and
    raises none; an entry that is 0 or less stays as it is. *)
Theorem Drift_ComputeCommand_budget_bounds
    (m : Budgets) (cands : list Candidate) (w : World D) :
  budgets_are_ints m ->
  let out := Drift_ComputeCommand D m cands w in
  budgets_are_ints (budgets out) /\
  forall pool,
    budget (budgets out) pool Drift_Reason <= budget m pool Drift_Reason /\
    (0 <= budget m pool Drift_Reason -> 0 <= budget (budgets out) pool Drift_Reason) /\
    (budget m pool Drift_Reason <= 0 ->
     budget (budgets out) pool Drift_Reason = budget m pool Drift_Reason).
Proof.
  intros Hints out. subst out. destruct (tookFastPath D m cands) eqn:Hfast.
  - rewrite ComputeCommand_fast_path by exact Hfast. cbn [budgets].
    split; [apply scanEmpty_ints, Hints |]. intros pool.
    rewrite scanEmpty_budget by exact Hints.
    pose proof (scanEmpty_count (sort_Slice D lessDrifted cands) m pool Hints) as Hcount.
    lia.
  - rewrite ComputeCommand_simulation_path by exact Hfast. cbn [budgets].
    split; [exact Hints |]. intros pool. lia.
Qed.

Lemma scanCandidates_quiet m cands : forall w trace,
  simulatedOf (snd (snd (scanCandidates D m cands w trace))) = simulatedOf trace ->
  scanCandidates D m cands w trace = ((Command_zero, Results_zero, None), (w, trace)).
Proof.
  induction cands as [| c rest IH]; intros w trace Hquiet; [reflexivity |].
  cbn [scanCandidates] in *.
  destruct (budget m (nodePoolName c) Drift_Reason =? 0); [apply IH, Hquiet |].
  exfalso.
  assert (Hlen : forall more, simulatedOf trace ++ c :: more <> simulatedOf trace).
  { intros more H. apply (f_equal (@length Candidate)) in H. rewrite length_app in H.
    cbn [length] in H. lia. }
  destruct (SimulateScheduling D w c) as [[res [e |]] w'].
  - destruct (Is_errCandidateDeleting e).
    + destruct (scanCandidates_trace D m rest w' (trace ++ [Simulated c])) as [more Hmore].
      rewrite Hmore, !simulatedOf_app, <- app_assoc in Hquiet. exact (Hlen _ Hquiet).
    + cbn [snd] in Hquiet. rewrite simulatedOf_app in Hquiet. exact (Hlen _ Hquiet).
  - destruct (negb (AllNonPendingPodsScheduled D res)).
    + destruct (scanCandidates_trace D m rest w'
                  ((trace ++ [Simulated c]) ++
                   [Published (DriftBlocked D (SN_Node (Candidate_StateNode c))
                                 (nodeClaimOf c) (NonPendingPodSchedulingErrors D res))]))
        as [more Hmore].
      rewrite Hmore, !simulatedOf_app, <- !app_assoc in Hquiet. exact (Hlen _ Hquiet).
    + cbn [snd] in Hquiet. rewrite simulatedOf_app in Hquiet. exact (Hlen _ Hquiet).
Qed.

(** X23: a call that simulates no candidate is a call without effect
    besides the fast path's: it publishes no event, leaves the cluster as
    it was, returns no error and no replacement, and its results are
    empty. *)
Theorem Drift_ComputeCommand_without_simulation
    (m : Budgets) (cands : list Candidate) (w : World D) :
  let out := Drift_ComputeCommand D m cands w in
  simulatedOf (effects out) = [] ->
  effects out = [] /\ world out = w /\ err out = None /\
  replacements (command out) = [] /\ results out = Results_zero /\
  (tookFastPath D m cands = false -> command out = Command_zero).
Proof.
  cbv zeta. destruct (tookFastPath D m cands) eqn:Hfast.
  - rewrite ComputeCommand_fast_path by exact Hfast. cbn. intros _.
    repeat split; auto. discriminate.
  - rewrite ComputeCommand_simulation_path by exact Hfast. cbn [effects].
    intros Hquiet. rewrite (scanCandidates_quiet m _ w [] Hquiet). cbn.
    repeat split; auto.
Qed.

Lemma scanCandidates_published m cands : forall w trace evs,
  In (Published evs) (snd (snd (scanCandidates D m cands w trace))) ->
  In (Published evs) trace \/
  exists before c after w1 t1 res w2 post,
    cands = before ++ c :: after /\
    passOver D m before w trace = Some (w1, t1) /\
    budget m (nodePoolName c) Drift_Reason <> 0 /\
    SimulateScheduling D w1 c = ((res, None), w2) /\
    AllNonPendingPodsScheduled D res = false /\
    evs = DriftBlocked D (SN_Node (Candidate_StateNode c)) (nodeClaimOf c)
                       (NonPendingPodSchedulingErrors D res) /\
    snd (snd (scanCandidates D m cands w trace))
    = t1 ++ [Simulated c; Published evs] ++ post.
Proof.
  induction cands as [| c0 rest IH]; intros w trace evs Hin.
  - now left.
  - assert (Hsim : In (Published evs) (trace ++ [Simulated c0]) -> In (Published evs) trace).
    { intros H. apply in_app_iff in H as [H | [H | []]]; [exact H | discriminate H]. }
    cbn [scanCandidates] in Hin |- *.
    destruct (budget m (nodePoolName c0) Drift_Reason =? 0) eqn:Hb.
    { destruct (IH w trace evs Hin)
        as [Ht | (before & c & after & w1 & t1 & res & w2 & post & -> & Hpass & Hrest)];
        [now left |].
      right. exists (c0 :: before), c, after, w1, t1, res, w2, post.
      split; [reflexivity |]. split; [| exact Hrest].
      cbn [passOver]. rewrite Hb. exact Hpass. }
    destruct (SimulateScheduling D w c0) as [[res0 [e |]] w'] eqn:Hsim0.
    + destruct (Is_errCandidateDeleting e) eqn:Hdel.
      * destruct (IH w' _ evs Hin)
          as [Ht | (before & c & after & w1 & t1 & res & w2 & post & -> & Hpass & Hrest)];
          [left; apply Hsim, Ht |].
        right. exists (c0 :: before), c, after, w1, t1, res, w2, post.
        split; [reflexivity |]. split; [| exact Hrest].
        cbn [passOver]. rewrite Hb, Hsim0, Hdel. exact Hpass.
      * left. apply Hsim, Hin.
    + destruct (AllNonPendingPodsScheduled D res0) eqn:Hall; cbn [negb] in Hin |- *.
      * left. apply Hsim, Hin.
      * destruct (IH w' _ evs Hin)
          as [Ht | (before & c & after & w1 & t1 & res & w2 & post & -> & Hpass & Hrest)].
        -- apply in_app_iff in Ht as [Ht | [Ht | []]]; [left; apply Hsim, Ht |].
           injection Ht as <-. right.
           destruct (scanCandidates_trace D m rest w'
                       ((trace ++ [Simulated c0]) ++
                        [Published (DriftBlocked D (SN_Node (Candidate_StateNode c0))
                                      (nodeClaimOf c0)
                                      (NonPendingPodSchedulingErrors D res0))]))
             as [more Hmore].
           exists [], c0, rest, w, trace, res0, w', more.
           split; [reflexivity |]. split; [reflexivity |].
           apply Z.eqb_neq in Hb. split; [exact Hb |]. split; [exact Hsim0 |].
           split; [exact Hall |]. split; [reflexivity |].
           rewrite Hmore, <- !app_assoc. reflexivity.
        -- right. exists (c0 :: before), c, after, w1, t1, res, w2, post.
           split; [reflexivity |]. split; [| exact Hrest].
           cbn [passOver]. rewrite Hb, Hsim0, Hall. exact Hpass.
Qed.

(** X24: an event is published for the candidate that the scan reaches,
    after it has passed over the candidates before it, when the pool of
    the candidate has budget and its simulation leaves pods without a
    place, and for no other reason: it is the Blocked event of that
    candidate's node and node claim with the scheduling errors of that
    simulation, and it comes right after the simulation in the effects.
    The fast path publishes nothing. *)
Theorem Drift_ComputeCommand_published
    (m : Budgets) (cands : list Candidate) (w : World D) :
  sort_Slice_permutes D ->
  let out := Drift_ComputeCommand D m cands w in
  let resorted := sort_SliceStable (lessUnevictable D w) (sort_Slice D lessDrifted cands) in
  (forall evs,
      In (Published evs) (effects out) ->
      tookFastPath D m cands = false /\
      exists before c after w1 t1 res w2 post,
        resorted = before ++ c :: after /\
        In c cands /\
        passOver D m before w [] = Some (w1, t1) /\
        budget m (nodePoolName c) Drift_Reason <> 0 /\
        SimulateScheduling D w1 c = ((res, None), w2) /\
        AllNonPendingPodsScheduled D res = false /\
        evs = DriftBlocked D (SN_Node (Candidate_StateNode c)) (nodeClaimOf c)
                           (NonPendingPodSchedulingErrors D res) /\
        effects out = t1 ++ [Simulated c; Published evs] ++ post) /\
  (forall before c after w1 t1 res w2,
      tookFastPath D m cands = false ->
      resorted = before ++ c :: after ->
      passOver D m before w [] = Some (w1, t1) ->
      budget m (nodePoolName c) Drift_Reason <> 0 ->
      SimulateScheduling D w1 c = ((res, None), w2) ->
      AllNonPendingPodsScheduled D res = false ->
      exists post,
        effects out
        = t1 ++ [Simulated c;
                 Published (DriftBlocked D (SN_Node (Candidate_StateNode c)) (nodeClaimOf c)
                                         (NonPendingPodSchedulingErrors D res))] ++ post).
Proof.
  intros Hperm. cbv zeta. split.
  - intros evs. destruct (tookFastPath D m cands) eqn:Hfast.
    + rewrite ComputeCommand_fast_path by exact Hfast. cbn. contradiction.
    + rewrite ComputeCommand_simulation_path by exact Hfast. cbn [effects]. intros Hin.
      split; [reflexivity |].
      destruct (scanCandidates_published m _ w [] evs Hin)
        as [[] | (before & c & after & w1 & t1 & res & w2 & post & Hsplit & Hrest)].
      exists before, c, after, w1, t1, res, w2, post.
      split; [exact Hsplit |]. split; [| exact Hrest].
      apply (Permutation_in _ (Permutation_sym (resorted_Permutation D Hperm w cands))).
      rewrite Hsplit. apply in_app_iff. right. now left.
  - intros before c after w1 t1 res w2 Hfast Hsplit Hpass Hb Hsim Hall.
    rewrite (ComputeCommand_after_passOver D m cands w before (c :: after) w1 t1
               Hfast Hsplit Hpass).
    unfold outcomeOf. cbn [effects scanCandidates]. apply Z.eqb_neq in Hb.
    rewrite Hb, Hsim, Hall. cbn [negb].
    destruct (scanCandidates_trace D m after w2
                ((t1 ++ [Simulated c]) ++
                 [Published (DriftBlocked D (SN_Node (Candidate_StateNode c)) (nodeClaimOf c)
                                          (NonPendingPodSchedulingErrors D res))]))
      as [more Hmore].
    exists more. rewrite Hmore, <- !app_assoc. reflexivity.
Qed.

End DriftCandidates.

(** ** Command.LogValues *)

Section LogValuesProperties.
Import Go Events Disruption.

Variable L : LogDeps.

Lemma Map_ignoring_index {T R} (f : T -> R) (l : list T) :
  Map l (fun item _ => f item) = map f l.
Proof. unfold Map. apply imap_const. Qed.

Lemma Reduce_from_last {T} (f : T -> Z) (l : list T) : forall i agg,
  Reduce_from (fun (_ : Z) item (_ : nat) => f item) i l agg
  = match last l with Some item => f item | None => agg end.
Proof.
  induction l as [| x l IH]; intros i agg; cbn [Reduce_from]; [reflexivity |].
  rewrite IH. destruct l as [| y l]; [reflexivity |]. rewrite last_cons_cons.
  destruct (last (y :: l)) eqn:Hl; [reflexivity | apply last_None in Hl; discriminate].
Qed.

Lemma podCount_last (c : Command) :
  podCount c = match last (candidates c) with
               | Some cd => Z.of_nat (length (reschedulablePods cd))
               | None => 0
               end.
Proof. unfold podCount, Reduce. apply Reduce_from_last. Qed.

Lemma totalPods_app l1 l2 : totalPods (l1 ++ l2) = totalPods l1 + totalPods l2.
Proof.
  induction l1 as [| c l1 IH]; [reflexivity |].
  change (totalPods ((c :: l1) ++ l2))
    with (Z.of_nat (length (reschedulablePods c)) + totalPods (l1 ++ l2)).
  change (totalPods (c :: l1)) with (Z.of_nat (length (reschedulablePods c)) + totalPods l1).
  rewrite IH. lia.
Qed.

Lemma logged_pod_count (c : Command) :
  logged "pod-count" (Command_LogValues L c)
  = Some (LogInt (match last (candidates c) with
                  | Some cd => Z.of_nat (length (reschedulablePods cd))
                  | None => 0
                  end)).
Proof.
  unfold Command_LogValues. cbn [logged String.eqb Ascii.eqb Bool.eqb].
  rewrite podCount_last. reflexivity.
Qed.

(** X4: what the log of a command says. The two node counts are the
    lengths of the two lists and the decision is the one these lengths
    give. The pod count is not the number of reschedulable pods of the
    candidates: the callback of line 144 drops what was counted before, so
    the pods of the last candidate alone are counted, and the pods of the
    candidates before it are what is missing. *)
Theorem Command_LogValues_counts (c : Command) :
  let values := Command_LogValues L c in
  logged "decision" values
    = Some (LogDecision (decision_of_sizes (length (candidates c)) (length (replacements c)))) /\
  logged "disrupted-node-count" values = Some (LogInt (Z.of_nat (length (candidates c)))) /\
  logged "replacement-node-count" values = Some (LogInt (Z.of_nat (length (replacements c)))) /\
  logged "pod-count" values
    = Some (LogInt (match last (candidates c) with
                    | Some cd => Z.of_nat (length (reschedulablePods cd))
                    | None => 0
                    end)) /\
  (forall n, logged "pod-count" values = Some (LogInt n) ->
             totalPods (candidates c) = totalPods (removelast (candidates c)) + n).
Proof.
  cbv zeta. unfold Command_LogValues. cbn [logged String.eqb Ascii.eqb Bool.eqb].
  unfold Map. rewrite !length_imap, <- Command_Decision_sizes, podCount_last.
  repeat split. intros n [= <-].
  destruct (candidates c) as [| c0 l] using rev_ind; [reflexivity |].
  rewrite removelast_last, last_snoc, totalPods_app. cbn. lia.
Qed.

(** X5: the log describes every node in the order of the command. A
    candidate is described by its node, its node claim and the two labels,
    an empty string standing for a label that is not set; a replacement by
    its capacity type, which is "spot" when its requirements allow spot
    and "on-demand" otherwise, and its instance types are listed only when
    it is the only replacement. *)
Theorem Command_LogValues_nodes (c : Command) :
  let values := Command_LogValues L c in
  logged "disrupted-nodes" values = Some (LogNodes (map (fun cd => candidateNode L cd 0%nat)
                                                        (candidates c))) /\
  logged "replacement-nodes" values
    = Some (LogNodes (map (fun r => replacementNode L c r 0%nat) (replacements c))) /\
  (forall cd, dom (candidateNode L cd 0%nat)
              = ({["Node"; "NodeClaim"; "instance-type"; "capacity-type"]} : gset string)) /\
  (forall r,
      (replacementNode L c r 0%nat !! "capacity-type" = Some (FieldString "spot") /\
       Requirements_Has L r CapacityTypeLabelKey "spot" = true \/
       replacementNode L c r 0%nat !! "capacity-type" = Some (FieldString "on-demand") /\
       Requirements_Has L r CapacityTypeLabelKey "spot" = false) /\
      (is_Some (replacementNode L c r 0%nat !! "instance-types")
       <-> length (replacements c) = 1%nat) /\
      (length (replacements c) = 1%nat ->
       replacementNode L c r 0%nat !! "instance-types"
       = Some (FieldString (InstanceTypeList L (InstanceTypeOptions r))))).
Proof.
  cbv zeta. unfold Command_LogValues. cbn [logged String.eqb Ascii.eqb Bool.eqb].
  rewrite (Map_ignoring_index (fun cd => candidateNode L cd 0%nat)).
  rewrite (Map_ignoring_index (fun r => replacementNode L c r 0%nat)).
  split; [reflexivity |]. split; [reflexivity |]. split.
  - intros cd. unfold candidateNode. rewrite !dom_insert_L, dom_singleton_L. set_solver.
  - intros r. unfold replacementNode, Ternary, CapacityTypeSpot, CapacityTypeOnDemand.
    destruct (length (replacements c) =? 1)%nat eqn:Hone;
      [apply Nat.eqb_eq in Hone | apply Nat.eqb_neq in Hone].
    + rewrite lookup_insert_ne by discriminate. rewrite lookup_singleton_eq.
      rewrite lookup_insert_eq.
      split; [destruct (Requirements_Has L r CapacityTypeLabelKey "spot"); auto |].
      split; [split; eauto | reflexivity].
    + rewrite lookup_singleton_eq, lookup_singleton_ne by discriminate.
      split; [destruct (Requirements_Has L r CapacityTypeLabelKey "spot"); auto |].
      split; [split; [intros [x [=]] | contradiction] | contradiction].
Qed.

(** X6: for the commands of [Drift.ComputeCommand] the pod count of the
    log is right all the same: the candidates of the fast path have no
    reschedulable pod, and the other commands have one candidate at
    most. *)
Theorem Drift_command_pod_count (D : DriftDeps) (m : Budgets) (cands : list Candidate)
    (w : World D) :
  let out := Drift_ComputeCommand D m cands w in
  logged "pod-count" (Command_LogValues L (command out))
  = Some (LogInt (totalPods (candidates (command out)))).
Proof.
  cbv zeta.
  rewrite logged_pod_count. f_equal. f_equal.
  destruct (tookFastPath D m cands) eqn:Hfast.
  - rewrite ComputeCommand_fast_path by exact Hfast. cbn [command candidates].
    pose proof (scanEmpty_takes_empty (sort_Slice D lessDrifted cands) m) as Hempty.
    induction Hempty as [| c l [Hc _] Hl IH]; [reflexivity |].
    apply isEmpty_nil in Hc. cbn [totalPods fold_right]. rewrite Hc. cbn [length].
    unfold totalPods in IH. rewrite <- IH.
    destruct l as [| c' l]; [cbn; rewrite Hc; reflexivity |]. rewrite last_cons_cons. lia.
  - destruct (ComputeCommand_simulation_cases D m cands w Hfast)
      as [(-> & _) | [(e & pre & c & -> & _) | (c & pre & -> & _)]]; cbn; lia.
Qed.

End LogValuesProperties.

(** ** consolidationMessage: the whole text *)

Section MessageText.
Import Go Events Disruption.

Local Open Scope string_scope.

Variable Name : StateNode -> string.

Lemma string_app_nil_l (a : string) : "" ++ a = a.
Proof. reflexivity. Qed.

Lemma concat_empty_cons (x : string) (l : list string) :
  String.concat "" (x :: l) = x ++ String.concat "" l.
Proof. destruct l; cbn [String.concat]; [now rewrite string_app_nil_r | reflexivity]. Qed.

Lemma concat_empty_app (l1 l2 : list string) :
  String.concat "" (l1 ++ l2) = String.concat "" l1 ++ String.concat "" l2.
Proof.
  induction l1 as [| x l1 IH]; [reflexivity |].
  change ((x :: l1) ++ l2)%list with (x :: (l1 ++ l2))%list.
  now rewrite !concat_empty_cons, IH, string_app_assoc.
Qed.

Lemma Join_cons (sep x : string) (l : list string) :
  Join (x :: l) sep = x ++ String.concat "" (map (fun y => sep ++ y) l).
Proof.
  unfold Join. revert x. induction l as [| y l IH]; intros x.
  - cbn. now rewrite string_app_nil_r.
  - change (String.concat sep (x :: y :: l)) with (x ++ sep ++ String.concat sep (y :: l)).
    cbn [map]. rewrite IH, concat_empty_cons, string_app_assoc. reflexivity.
Qed.

(** A loop that appends a text for each element. *)
Lemma fold_left_texts {A} (f : string -> A -> string) (text : A -> string) (l : list A) :
  (forall msg a, f msg a = msg ++ text a) ->
  forall msg, fold_left f l msg = msg ++ String.concat "" (map text l).
Proof.
  intros Hf. induction l as [| a l IH]; intros msg; cbn [fold_left map].
  - cbn. now rewrite string_app_nil_r.
  - now rewrite IH, Hf, concat_empty_cons, string_app_assoc.
Qed.

Lemma candidateInfo_first candidate :
  candidateInfo Name "" candidate = candidateText Name candidate.
Proof. reflexivity. Qed.

Lemma candidateInfo_next ch msg candidate :
  candidateInfo Name (String ch msg) candidate
  = String ch msg ++ ", " ++ candidateText Name candidate.
Proof. unfold candidateInfo. cbn [len String.length Nat.ltb Nat.leb]. apply string_app_assoc. Qed.

Lemma candidateInfos_next cands : forall ch msg,
  fold_left (candidateInfo Name) cands (String ch msg)
  = String ch msg ++ String.concat "" (map (fun c => ", " ++ candidateText Name c) cands).
Proof.
  induction cands as [| c cands IH]; intros ch msg; cbn [fold_left map].
  - cbn. now rewrite string_app_nil_r.
  - rewrite candidateInfo_next.
    change (String ch msg ++ ", " ++ candidateText Name c)
      with (String ch (msg ++ ", " ++ candidateText Name c)).
    rewrite IH, concat_empty_cons.
    change (String ch (msg ++ ", " ++ candidateText Name c))
      with (String ch msg ++ ", " ++ candidateText Name c).
    now rewrite !string_app_assoc.
Qed.

Lemma candidateInfos cands :
  fold_left (candidateInfo Name) cands "" = Join (map (candidateText Name) cands) ", ".
Proof.
  destruct cands as [| c cands]; [reflexivity |].
  cbn [fold_left map]. rewrite candidateInfo_first, Join_cons, map_map.
  change (candidateText Name c) with (String "N" ("ode " ++
    NodePool_Name (nodePool c) ++ "/" ++
    label (Node_Labels (SN_Node (Candidate_StateNode c))) LabelInstanceTypeStable ++ "/" ++
    capacityType c ++ "/" ++ Name (Candidate_StateNode c))).
  apply candidateInfos_next.
Qed.

Lemma offeringInfos ito offerings msg :
  fold_left (offeringInfo ito) offerings msg
  = msg ++ String.concat "" (map (offeringText ito) offerings).
Proof. apply (fold_left_texts _ (offeringText ito)). reflexivity. Qed.

Lemma instanceTypeInfos itos : forall msg,
  fold_left (fun msg ito => fold_left (offeringInfo ito) (Offerings ito) msg) itos msg
  = msg ++ String.concat ""
             (flat_map (fun ito => map (offeringText ito) (Offerings ito)) itos).
Proof.
  induction itos as [| ito itos IH]; intros msg; cbn [fold_left flat_map].
  - cbn. now rewrite string_app_nil_r.
  - now rewrite IH, offeringInfos, concat_empty_app, string_app_assoc.
Qed.

Lemma replacementInfo_text msg nc : replacementInfo msg nc = msg ++ replacementText nc.
Proof.
  unfold replacementInfo, replacementText. rewrite instanceTypeInfos.
  now rewrite !string_app_assoc.
Qed.

Lemma consolidationMessage_closed
    (cands : list Candidate) (results : Results) (candidatePrice : float64) :
  consolidationMessage Name cands results candidatePrice
  = Join (map (candidateText Name) cands) ", " ++
    match NewNodeClaims results with
    | [] => " is underutilized and will be removed without replacement"
    | _ :: _ =>
        " with a total price of " ++ Sprintf_3f candidatePrice ++ " is being replaced" ++
        String.concat "" (map replacementText (NewNodeClaims results))
    end.
Proof.
  unfold consolidationMessage. rewrite candidateInfos.
  destruct (NewNodeClaims results) as [| nc ncs]; [reflexivity |].
  cbn [length Nat.ltb Nat.leb].
  rewrite (fold_left_texts _ replacementText) by apply replacementInfo_text.
  now rewrite !string_app_assoc.
Qed.

(** X16: the message, whole. The candidates are listed with ", " between
    them; without new node claims the note on the removal follows and the
    price is not used; with new node claims the price follows, and for
    each of them the offerings of its instance types between brackets,
    which stay empty for a node claim without offerings. *)
Theorem consolidationMessage_text
    (cands : list Candidate) (results : Results) (candidatePrice : float64) :
  consolidationMessage Name cands results candidatePrice
  = Join (map (candidateText Name) cands) ", " ++
    match NewNodeClaims results with
    | [] => " is underutilized and will be removed without replacement"
    | _ :: _ =>
        " with a total price of " ++ Sprintf_3f candidatePrice ++ " is being replaced" ++
        String.concat "" (map replacementText (NewNodeClaims results))
    end.
Proof. apply consolidationMessage_closed. Qed.

Lemma contains_refl (s : string) : contains s s.
Proof. exists "", "". now rewrite string_app_nil_r. Qed.

Lemma contains_app_l (a b s : string) : contains a s -> contains (a ++ b) s.
Proof.
  intros (x & y & ->). exists x, (y ++ b). now rewrite !string_app_assoc.
Qed.

Lemma contains_app_r (a b s : string) : contains b s -> contains (a ++ b) s.
Proof.
  intros (x & y & ->). exists (a ++ x), y. now rewrite !string_app_assoc.
Qed.

Lemma contains_concat (l : list string) (x s : string) :
  In x l -> contains x s -> contains (String.concat "" l) s.
Proof.
  induction l as [| y l IH]; intros Hx Hs; [destruct Hx |].
  rewrite concat_empty_cons. destruct Hx as [-> | Hx].
  - apply contains_app_l, Hs.
  - apply contains_app_r, IH; assumption.
Qed.

Lemma contains_Join (l : list string) (sep x : string) :
  In x l -> contains (Join l sep) x.
Proof.
  destruct l as [| y l]; intros Hx; [destruct Hx |].
  rewrite Join_cons. destruct Hx as [-> | Hx].
  - apply contains_app_l, contains_refl.
  - apply contains_app_r. apply (contains_concat _ (sep ++ x)).
    + apply in_map_iff. eauto.
    + apply contains_app_r, contains_refl.
Qed.

(** X17: nothing is left out of the message: every candidate is named
    with its pool, instance type, capacity type and name, and every
    offering of every instance type of every new node claim is listed
    with its price. *)
Theorem consolidationMessage_names_all
    (cands : list Candidate) (results : Results) (candidatePrice : float64) :
  let msg := consolidationMessage Name cands results candidatePrice in
  (forall candidate, In candidate cands -> contains msg (candidateText Name candidate)) /\
  (forall nc ito offering,
      In nc (NewNodeClaims results) -> In ito (InstanceTypeOptions nc) ->
      In offering (Offerings ito) ->
      contains msg (offeringText ito offering)).
Proof.
  cbv zeta. rewrite consolidationMessage_closed. split.
  - intros c Hc. apply contains_app_l, contains_Join, in_map, Hc.
  - intros nc ito offering Hnc Hito Hoff. apply contains_app_r.
    destruct (NewNodeClaims results) as [| nc0 ncs] eqn:Hncs; [destruct Hnc |].
    rewrite <- Hncs in *. clear Hncs nc0 ncs.
    do 3 apply contains_app_r.
    apply (contains_concat _ (replacementText nc)); [apply in_map, Hnc |].
    unfold replacementText. apply contains_app_r, contains_app_l.
    apply (contains_concat _ (offeringText ito offering)); [| apply contains_refl].
    apply in_flat_map. exists ito. split; [exact Hito | apply in_map, Hoff].
Qed.

End MessageText.

(** ** annotateNodeClaimWithNominatedPods: the value and the maps *)

Section AnnotateValue.
Import Go Provisioning.

Local Open Scope string_scope.

Lemma len_app (a b : string) : len (a ++ b) = (len a + len b)%nat.
Proof.
  unfold len. induction a as [| ch a IH]; [reflexivity |].
  change (S (String.length (a ++ b)) = S (String.length a + String.length b)).
  now rewrite IH.
Qed.

Lemma slice_to_all (n : nat) (s : string) : (len s <= n)%nat -> slice_to n s = s.
Proof.
  revert n. induction s as [| ch s IH]; intros [| n] Hn; try reflexivity.
  - cbn in Hn. lia.
  - cbn [slice_to]. rewrite IH; [reflexivity |]. cbn in Hn. unfold len. lia.
Qed.

Lemma slice_to_prefix (n : nat) (s : string) : exists rest, s = slice_to n s ++ rest.
Proof.
  revert n. induction s as [| ch s IH]; intros [| n]; cbn [slice_to].
  - now exists "".
  - now exists "".
  - now exists (String ch s).
  - destruct (IH n) as [rest Hrest]. exists rest.
    change (String ch s = String ch (slice_to n s ++ rest)). now rewrite <- Hrest.
Qed.

Lemma len_slice_to_min (n : nat) (s : string) : len (slice_to n s) = Nat.min n (len s).
Proof.
  revert n. induction s as [| ch s IH]; intros [| n]; try reflexivity.
  cbn [slice_to]. unfold len in *. cbn [String.length]. rewrite IH. reflexivity.
Qed.

Lemma nominatedPodsOf_slice (pods : list Disruption.Pod) :
  nominatedPodsOf pods = slice_to 4096 (fold_left writePod pods "").
Proof.
  unfold nominatedPodsOf. destruct (4096 <? len _)%nat eqn:Hlen; [reflexivity |].
  apply Nat.ltb_ge in Hlen. symmetry. apply slice_to_all, Hlen.
Qed.

Lemma written_entries (pods : list Disruption.Pod) :
  fold_left writePod pods "" = String.concat "" (map (fun pod => podKey pod ++ ",") pods).
Proof.
  rewrite (fold_left_texts writePod (fun pod => podKey pod ++ ",")); [reflexivity |].
  intros msg pod. unfold writePod, podKey. now rewrite !string_app_assoc.
Qed.

Lemma written_commaJoined (pods : list Disruption.Pod) :
  fold_left writePod pods ""
  = match pods with [] => "" | _ :: _ => commaJoined pods ++ "," end.
Proof.
  rewrite written_entries. destruct pods as [| pod pods]; [reflexivity |].
  unfold commaJoined. cbn [map]. rewrite Join_cons, concat_empty_cons.
  revert pod. induction pods as [| pod' pods IH]; intros pod; cbn [map].
  - cbn. now rewrite !string_app_nil_r.
  - rewrite !concat_empty_cons. specialize (IH pod').
    rewrite !string_app_assoc in *. f_equal.
    change ("," ++ podKey pod' ++ "," ++ String.concat "" (map (fun p => podKey p ++ ",") pods))
      with (String "," (podKey pod' ++ "," ++ String.concat "" (map (fun p => podKey p ++ ",") pods))).
    change ("," ++ podKey pod' ++ String.concat "" (map (fun y => "," ++ y) (map podKey pods)) ++ ",")
      with (String "," (podKey pod' ++ String.concat "" (map (fun y => "," ++ y) (map podKey pods)) ++ ",")).
    f_equal. exact IH.
Qed.

Lemma len_written (pods : list Disruption.Pod) :
  len (fold_left writePod pods "") = writtenLength pods.
Proof.
  rewrite written_entries. induction pods as [| pod pods IH]; [reflexivity |].
  change (writtenLength (pod :: pods)) with (entryLength pod + writtenLength pods)%nat.
  cbn [map]. rewrite concat_empty_cons, len_app, IH.
  unfold podKey, entryLength. rewrite !len_app.
  change (len "/") with 1%nat. change (len ",") with 1%nat. lia.
Qed.

(** X18: the value of the annotation is the text "namespace/name," of
    every pod, in the order of the pods, cut after 4096 bytes: for a node
    claim with pods it is the comma-joined keys with one more comma, as
    far as the 4096 bytes go, and for one without pods it is empty. Its
    length is 4096 or the sum, over the pods, of the lengths of namespace
    and name and 2, whichever is less. *)
Theorem nominatedPods_value (pods : list Disruption.Pod) :
  nominatedPodsOf pods
    = slice_to 4096 (match pods with [] => "" | _ :: _ => commaJoined pods ++ "," end) /\
  len (nominatedPodsOf pods) = Nat.min 4096 (writtenLength pods) /\
  (exists cut, String.concat "" (map (fun pod => podKey pod ++ ",") pods)
               = nominatedPodsOf pods ++ cut) /\
  ((writtenLength pods <= 4096)%nat ->
   nominatedPodsOf pods = String.concat "" (map (fun pod => podKey pod ++ ",") pods)).
Proof.
  rewrite nominatedPodsOf_slice. split; [now rewrite written_commaJoined |].
  split; [now rewrite len_slice_to_min, len_written |].
  rewrite <- written_entries. split; [apply slice_to_prefix |].
  intros Hlen. apply slice_to_all. now rewrite len_written.
Qed.

Lemma annotate_deref n nodeClaim h :
  let r := annotateNodeClaimWithNominatedPods n nodeClaim h in
  deref (snd r) (Annotations (fst r))
  = <[NominatedPodsKey := nominatedPodsOf (Disruption.Pods n)]> (deref h (Annotations nodeClaim)).
Proof.
  cbv zeta. unfold annotateNodeClaimWithNominatedPods, deref. cbn.
  rewrite lookup_insert_eq. cbn. now rewrite copy_loop.
Qed.

Lemma annotate_keeps n nodeClaim h l :
  is_Some (h !! l) -> snd (annotateNodeClaimWithNominatedPods n nodeClaim h) !! l = h !! l.
Proof.
  intros Hl. unfold annotateNodeClaimWithNominatedPods. cbn.
  apply lookup_insert_ne. intros <-.
  apply (is_fresh (dom h)). apply elem_of_dom, Hl.
Qed.

(** X19: the node claim is annotated again, as it is when it is nominated
    twice. The last value stands, the other annotations are those of the
    start, and each call has made a map of its own: the map of the first
    call still reads what the first call wrote. *)
Theorem annotate_twice
    (n1 n2 : Disruption.SchedulingNodeClaim) (nodeClaim : NodeClaim) (h : Heap) :
  let r1 := annotateNodeClaimWithNominatedPods n1 nodeClaim h in
  let r2 := annotateNodeClaimWithNominatedPods n2 (fst r1) (snd r1) in
  deref (snd r2) (Annotations (fst r2))
    = <[NominatedPodsKey := nominatedPodsOf (Disruption.Pods n2)]>
        (deref h (Annotations nodeClaim)) /\
  deref (snd r2) (Annotations (fst r1))
    = <[NominatedPodsKey := nominatedPodsOf (Disruption.Pods n1)]>
        (deref h (Annotations nodeClaim)) /\
  Annotations (fst r2) <> Annotations (fst r1) /\
  (forall l, is_Some (h !! l) -> snd r2 !! l = h !! l).
Proof.
  intros r1 r2.
  assert (H1 : is_Some (snd r1 !! fresh (dom h))).
  { subst r1. unfold annotateNodeClaimWithNominatedPods. cbn. rewrite lookup_insert_eq. eauto. }
  split; [| split; [| split]].
  - subst r2. rewrite annotate_deref. subst r1. rewrite annotate_deref.
    apply insert_insert_eq.
  - rewrite <- (annotate_deref n1 nodeClaim h). fold r1.
    unfold deref. change (Annotations (fst r1)) with (Some (fresh (dom h))).
    cbn [mbind option_bind]. subst r2. now rewrite annotate_keeps by exact H1.
  - change (Annotations (fst r2)) with (Some (fresh (dom (snd r1)))).
    change (Annotations (fst r1)) with (Some (fresh (dom h))). intros Heq.
    apply (is_fresh (dom (snd r1))).
    replace (fresh (dom (snd r1))) with (fresh (dom h))
      by (symmetry; exact (f_equal (default 1%positive) Heq)).
    apply elem_of_dom, H1.
  - intros l Hl. subst r2. rewrite annotate_keeps; subst r1.
    + apply annotate_keeps, Hl.
    + rewrite annotate_keeps; exact Hl.
Qed.

End AnnotateValue.

(** ** InsufficientCapacityErrorEvents: the events, one by one *)

Section CapacityEvents.
Import Go Events Lifecycle.

Variable X : Deps.

Lemma nominatedPod_lookup instanceTypes awsZone errMsg acc entry :
  nominatedPod X instanceTypes awsZone errMsg acc entry
  = match lookupEntry X entry with
    | Some (Found pod) => (fst acc ++ [podEvent pod instanceTypes awsZone errMsg], snd acc)
    | Some (Failed e) => (fst acc, snd acc ++ [e])
    | _ => acc
    end.
Proof.
  unfold nominatedPod, lookupEntry.
  destruct (Split "/" entry) as [| ns [| name [| x l]]]; try reflexivity.
Qed.

Lemma nominatedPods_closed instanceTypes awsZone errMsg entries : forall acc,
  fold_left (nominatedPod X instanceTypes awsZone errMsg) entries acc
  = (fst acc ++ map (fun pod => podEvent pod instanceTypes awsZone errMsg) (foundPods X entries),
     snd acc ++ failedLookups X entries).
Proof.
  induction entries as [| entry entries IH]; intros [evs errs]; cbn [fold_left].
  - cbn. now rewrite !app_nil_r.
  - rewrite IH, nominatedPod_lookup. unfold foundPods, failedLookups. cbn [flat_map fst snd].
    destruct (lookupEntry X entry) as [[pod | | e] |]; cbn [fst snd app map];
      rewrite ?map_app, <- ?app_assoc; reflexivity.
Qed.

Lemma events_closed (nodeClaim : NodeClaim) (errText : string) :
  InsufficientCapacityErrorEvents X nodeClaim errText
  = (nodeClaimEvent X nodeClaim errText ::
       map (fun pod => podEvent pod (instanceTypesOf (Requirements nodeClaim))
                                (zoneOf (Requirements nodeClaim)) (truncateMessage X errText))
           (foundPods X (nominatedEntries nodeClaim)),
     failedLookups X (nominatedEntries nodeClaim)).
Proof.
  unfold InsufficientCapacityErrorEvents, nominatedEntries.
  destruct (Annotations nodeClaim) as [annotations |]; [| reflexivity].
  cbv zeta. destruct (String.eqb _ ""); [reflexivity |].
  rewrite nominatedPods_closed. reflexivity.
Qed.

(** X20: the events, in full. After the event of the node claim comes one
    event for every entry of the annotation that has the form
    namespace/name and names a pod the cluster has, in the order of the
    entries; an entry of another form and a pod that is not found are
    passed over in silence; any other failure of the lookup is logged and
    the loop goes on with the next entry. *)
Theorem InsufficientCapacityErrorEvents_events (nodeClaim : NodeClaim) (errText : string) :
  InsufficientCapacityErrorEvents X nodeClaim errText
  = (nodeClaimEvent X nodeClaim errText ::
       map (fun pod => podEvent pod (instanceTypesOf (Requirements nodeClaim))
                                (zoneOf (Requirements nodeClaim)) (truncateMessage X errText))
           (foundPods X (nominatedEntries nodeClaim)),
     failedLookups X (nominatedEntries nodeClaim)).
Proof. apply events_closed. Qed.

Lemma lookups_bound (entries : list string) :
  (length (foundPods X entries) + length (failedLookups X entries)
   <= length (List.filter well_formed_entry entries))%nat.
Proof.
  induction entries as [| entry entries IH]; [reflexivity |].
  change (foundPods X (entry :: entries))
    with ((match lookupEntry X entry with Some (Found pod) => [pod] | _ => [] end)
          ++ foundPods X entries).
  change (failedLookups X (entry :: entries))
    with ((match lookupEntry X entry with Some (Failed e) => [e] | _ => [] end)
          ++ failedLookups X entries).
  cbn [List.filter]. rewrite !length_app.
  assert (Hone : (length (match lookupEntry X entry with Some (Found pod) => [pod] | _ => [] end)
                  + length (match lookupEntry X entry with Some (Failed e) => [e] | _ => [] end)
                  <= if well_formed_entry entry then 1 else 0)%nat).
  { unfold lookupEntry, well_formed_entry.
    destruct (Split "/" entry) as [| ns [| name [| x l]]]; cbn; try lia.
    destruct (kubeGet X (TrimSpace X ns) (TrimSpace X name)); cbn; lia. }
  destruct (well_formed_entry entry); cbn [length]; lia.
Qed.

(** X21: what all the events of a call share, and how many there are.
    Every event is a warning with the reason InsufficientCapacityError;
    the events after the first are about pods and carry one and the same
    message; and the events for pods and the errors logged are together
    no more than the well-formed entries of the annotation, so that a
    node claim that nominates no pod gets the one event. *)
Theorem InsufficientCapacityErrorEvents_invariants (nodeClaim : NodeClaim) (errText : string) :
  let r := InsufficientCapacityErrorEvents X nodeClaim errText in
  Forall (fun ev => Type_ ev = EventTypeWarning /\ Reason ev = InsufficientCapacityError)
         (fst r) /\
  Forall (fun ev =>
            (exists ns name, InvolvedObject ev = ObjPod ns name) /\
            Message ev
            = ("Pod could not schedule " ++ instanceTypesOf (Requirements nodeClaim) ++ " in " ++
               zoneOf (Requirements nodeClaim) ++ ": " ++ truncateMessage X errText)%string)
         (tl (fst r)) /\
  (length (tl (fst r)) + length (snd r)
   <= length (List.filter well_formed_entry (nominatedEntries nodeClaim)))%nat /\
  (nominatedEntries nodeClaim = [] -> r = ([nodeClaimEvent X nodeClaim errText], [])).
Proof.
  cbv zeta. rewrite events_closed. cbn [fst snd tl].
  split; [| split; [| split]].
  - constructor; [split; reflexivity |].
    apply List.Forall_forall. intros ev Hev. apply in_map_iff in Hev as (pod & <- & _).
    split; reflexivity.
  - apply List.Forall_forall. intros ev Hev. apply in_map_iff in Hev as (pod & <- & _).
    split; [eexists _, _; reflexivity | reflexivity].
  - rewrite length_map. apply lookups_bound.
  - intros ->. reflexivity.
Qed.

End CapacityEvents.

(** ** From the annotation written to the events *)

Section NominatedPodsRoundTrip.
Import Go Events.

Local Open Scope string_scope.

Lemma has_byte_app (c : ascii) (a b : string) :
  has_byte c (a ++ b) = has_byte c a || has_byte c b.
Proof.
  induction a as [| ch a IH]; [reflexivity |].
  change (has_byte c (String ch a ++ b)) with (Ascii.eqb ch c || has_byte c (a ++ b)).
  cbn [has_byte]. rewrite IH. apply orb_assoc.
Qed.

Lemma Split_without (sep : ascii) (s : string) : has_byte sep s = false -> Split sep s = [s].
Proof.
  induction s as [| ch s IH]; [reflexivity |]. cbn [has_byte Split].
  intros H. apply orb_false_iff in H as [Hch Hs]. rewrite Hch, (IH Hs). reflexivity.
Qed.

Lemma Split_at (sep : ascii) (a b : string) :
  has_byte sep a = false -> Split sep (a ++ String sep b) = a :: Split sep b.
Proof.
  induction a as [| ch a IH]; intros H.
  - change ("" ++ String sep b) with (String sep b). cbn [Split].
    now rewrite Ascii.eqb_refl.
  - cbn [has_byte] in H. apply orb_false_iff in H as [Hch Ha].
    change (String ch a ++ String sep b) with (String ch (a ++ String sep b)).
    cbn [Split]. rewrite Hch, (IH Ha). reflexivity.
Qed.

Lemma Split_podKey (pod : Disruption.Pod) :
  Provisioning.plain pod ->
  Split "/" (Provisioning.podKey pod)
  = [Disruption.Pod_Namespace pod; Disruption.Pod_Name pod].
Proof.
  intros (Hns & _ & Hname & _). unfold Provisioning.podKey.
  change (Disruption.Pod_Namespace pod ++ "/" ++ Disruption.Pod_Name pod)
    with (Disruption.Pod_Namespace pod ++ String "/" (Disruption.Pod_Name pod)).
  rewrite (Split_at _ _ _ Hns), (Split_without _ _ Hname). reflexivity.
Qed.

Lemma Split_entries (pods : list Disruption.Pod) :
  Forall Provisioning.plain pods ->
  Split "," (String.concat "" (map (fun pod => Provisioning.podKey pod ++ ",") pods))
  = (map Provisioning.podKey pods ++ [""])%list.
Proof.
  induction 1 as [| pod pods Hpod Hpods IH]; [reflexivity |].
  cbn [map]. rewrite concat_empty_cons, string_app_assoc.
  change ("," ++ String.concat "" (map (fun pod => Provisioning.podKey pod ++ ",") pods))
    with (String "," (String.concat "" (map (fun pod => Provisioning.podKey pod ++ ",") pods))).
  rewrite Split_at, IH; [reflexivity |].
  destruct Hpod as (_ & Hns & _ & Hname). unfold Provisioning.podKey.
  rewrite !has_byte_app, Hns, Hname. reflexivity.
Qed.

Lemma lookupEntry_podKey (X : Lifecycle.Deps) (pod : Disruption.Pod) :
  Provisioning.plain pod ->
  Lifecycle.lookupEntry X (Provisioning.podKey pod) = Some (Lifecycle.lookupPod X pod).
Proof. intros Hpod. unfold Lifecycle.lookupEntry. now rewrite Split_podKey. Qed.

Lemma entries_of_pods (X : Lifecycle.Deps) (pods : list Disruption.Pod) :
  Forall Provisioning.plain pods ->
  Lifecycle.foundPods X (map Provisioning.podKey pods ++ [""])
  = flat_map (fun pod => match Lifecycle.lookupPod X pod with
                         | Lifecycle.Found p => [p]
                         | _ => []
                         end) pods /\
  Lifecycle.failedLookups X (map Provisioning.podKey pods ++ [""])
  = flat_map (fun pod => match Lifecycle.lookupPod X pod with
                         | Lifecycle.Failed e => [e]
                         | _ => []
                         end) pods.
Proof.
  intros Hpods. unfold Lifecycle.foundPods, Lifecycle.failedLookups.
  rewrite !flat_map_app. cbn [flat_map]. rewrite !app_nil_r.
  change (Lifecycle.lookupEntry X "") with (@None Lifecycle.GetResult). cbv iota.
  rewrite ?app_nil_r.
  induction Hpods as [| pod pods Hpod Hpods [IH1 IH2]]; [split; reflexivity |].
  cbn [map flat_map]. rewrite IH1, IH2, (lookupEntry_podKey X pod Hpod). split; reflexivity.
Qed.

(** X22: the annotation that [annotateNodeClaimWithNominatedPods] writes
    is read back by [InsufficientCapacityErrorEvents] pod by pod. When the
    names of the pods hold no slash and no comma and the value was not
    cut, the entries are the keys of the pods and one empty entry after
    the last comma, which is passed over; so the pods looked up are the
    pods nominated, in order, and each one the cluster has gets its
    event. *)
Theorem nominated_pods_round_trip
    (X : Lifecycle.Deps) (n : Disruption.SchedulingNodeClaim)
    (annotated : Provisioning.NodeClaim) (h : Provisioning.Heap)
    (nodeClaim : Lifecycle.NodeClaim) (errText : string) :
  Forall Provisioning.plain (Disruption.Pods n) ->
  (Provisioning.writtenLength (Disruption.Pods n) <= 4096)%nat ->
  let r := Provisioning.annotateNodeClaimWithNominatedPods n annotated h in
  Lifecycle.Annotations nodeClaim
    = Some (Provisioning.deref (snd r) (Provisioning.Annotations (fst r))) ->
  Lifecycle.nominatedEntries nodeClaim
    = match Disruption.Pods n with
      | [] => []
      | _ :: _ => (map Provisioning.podKey (Disruption.Pods n) ++ [""])%list
      end /\
  Lifecycle.InsufficientCapacityErrorEvents X nodeClaim errText
    = (Lifecycle.nodeClaimEvent X nodeClaim errText ::
         map (fun pod => Lifecycle.podEvent pod
                           (Lifecycle.instanceTypesOf (Lifecycle.Requirements nodeClaim))
                           (Lifecycle.zoneOf (Lifecycle.Requirements nodeClaim))
                           (Lifecycle.truncateMessage X errText))
             (flat_map (fun pod => match Lifecycle.lookupPod X pod with
                                   | Lifecycle.Found p => [p]
                                   | _ => []
                                   end) (Disruption.Pods n)),
       flat_map (fun pod => match Lifecycle.lookupPod X pod with
                            | Lifecycle.Failed e => [e]
                            | _ => []
                            end) (Disruption.Pods n)).
Proof.
  intros Hplain Hlen r Hann.
  assert (Hentries : Lifecycle.nominatedEntries nodeClaim
                     = match Disruption.Pods n with
                       | [] => []
                       | _ :: _ => (map Provisioning.podKey (Disruption.Pods n) ++ [""])%list
                       end).
  { unfold Lifecycle.nominatedEntries. rewrite Hann. subst r.
    rewrite annotate_deref. cbv zeta.
    change Lifecycle.NominatedPodsKey with Provisioning.NominatedPodsKey.
    rewrite lookup_insert_eq. cbn [default from_option]. unfold id.
    rewrite nominatedPodsOf_slice, slice_to_all by (rewrite len_written; exact Hlen).
    destruct (String.eqb_spec (fold_left Provisioning.writePod (Disruption.Pods n) "") "")
      as [Hempty | Hfull].
    - pose proof (len_written (Disruption.Pods n)) as Hl. rewrite Hempty in Hl.
      destruct (Disruption.Pods n) as [| pod pods]; [reflexivity |].
      cbn in Hl. unfold Provisioning.entryLength in Hl. lia.
    - destruct (Disruption.Pods n) as [| pod pods] eqn:Hpods; [now cbn in Hfull |].
      rewrite written_entries. apply Split_entries, Hplain. }
  split; [exact Hentries |].
  rewrite events_closed, Hentries.
  destruct (Disruption.Pods n) as [| pod pods] eqn:Hpods; [reflexivity |].
  destruct (entries_of_pods X _ Hplain) as [-> ->]. reflexivity.
Qed.

End NominatedPodsRoundTrip.

(** ** The further statements on sample clusters *)

Section FurtherSamples.
Import Go Events Disruption Samples.

Lemma is_int_small (n : Z) : -1000 <= n <= 1000 -> is_int n.
Proof. unfold is_int, MinInt, MaxInt. lia. Qed.

Lemma NewCandidate_errors_witness :
  fst (NewCandidate (candidateDeps ([web], None)) tt tt managedNode tt ∅ ∅ tt
                    EventualDisruptionClass)
  = blocked (SN_Node managedNode) (SN_NodeClaim managedNode) "NodePool default not found".
Proof.
  assert (Hr : snd (NewCandidate (candidateDeps ([web], None)) tt tt managedNode tt ∅ ∅ tt
                                 EventualDisruptionClass)
               = Return None (Some (errorString "nodepool default not found")))
    by (vm_compute; reflexivity).
  destruct (NewCandidate_errors (candidateDeps ([web], None)) tt tt managedNode tt ∅ ∅ tt
              EventualDisruptionClass (errorString "nodepool default not found") Hr)
    as [[Hv _] | [(_ & Hq & _) | [(_ & _ & _ & _ & Hev) | (_ & _ & [x Hx] & _)]]].
  - discriminate Hv.
  - discriminate Hq.
  - exact Hev.
  - rewrite lookup_empty in Hx. discriminate Hx.
Defined.

Lemma Drift_ComputeCommand_candidates_from_input_witness :
  let cands := [candidate "a" "default" 5 [web]] in
  let out := Drift_ComputeCommand (deps (@Sort.Slice Candidate) schedules)
                                  (budgetOf "default" 1) cands tt in
  (length (candidates (command out)) <= length cands)%nat.
Proof.
  cbv zeta.
  exact (proj1 (proj2 (Drift_ComputeCommand_candidates_from_input
                         (deps (@Sort.Slice Candidate) schedules) (budgetOf "default" 1)
                         [candidate "a" "default" 5 [web]] tt
                         (deps_Slice_permutes schedules)))).
Defined.

Lemma Drift_ComputeCommand_exhausted_pools_witness :
  budget (budgetOf "default" 1) "default" Drift_Reason <> 0 /\
  is_Some (budgetOf "default" 1 !! "default").
Proof.
  refine (proj1 (Drift_ComputeCommand_exhausted_pools
                   (deps (@Sort.Slice Candidate) schedules) (budgetOf "default" 1)
                   [candidate "a" "default" 5 [web]] tt
                   (budgetOf_ints "default" 1 (is_int_small 1 ltac:(lia))))
                (candidate "a" "default" 5 [web]) _).
  left. vm_compute. left. reflexivity.
Defined.

Lemma Drift_ComputeCommand_negative_budget_witness :
  let D := deps (@Sort.Slice Candidate) schedules in
  let m := budgetOf "default" (-1) in
  let cands := [candidate "a" "default" 5 []] in
  tookFastPath D m cands = false /\
  budgets (Drift_ComputeCommand D m cands tt) = m /\
  exists c more, In c cands /\ effects (Drift_ComputeCommand D m cands tt) = Simulated c :: more.
Proof.
  cbv zeta. apply Drift_ComputeCommand_negative_budget.
  - apply deps_Slice_permutes.
  - intros c [<- | []]. vm_compute. reflexivity.
  - discriminate.
Defined.

Lemma Drift_ComputeCommand_simulations_in_order_witness :
  let D := deps (@Sort.Slice Candidate) deletingFirst in
  let m := budgetOf "default" 1 in
  let first := candidate "a" "default" 3 [web] in
  let second := candidate "b" "default" 5 [web] in
  let third := candidate "c" "default" 7 [web] in
  simulatedOf (effects (Drift_ComputeCommand D m [third; second; first] tt))
  = List.filter (hasBudget m) [first] ++ [second].
Proof.
  cbv zeta.
  destruct (Drift_ComputeCommand_simulations_in_order
              (deps (@Sort.Slice Candidate) deletingFirst) (budgetOf "default" 1)
              [candidate "c" "default" 7 [web]; candidate "b" "default" 5 [web];
               candidate "a" "default" 3 [web]] tt eq_refl)
    as (_ & Hstop & _).
  refine (proj1 (Hstop [candidate "a" "default" 3 [web]] (candidate "b" "default" 5 [web])
                       [candidate "c" "default" 7 [web]]
                       tt [Simulated (candidate "a" "default" 3 [web])]
                       Results_zero (Some (errorString "creating scheduler")) tt
                       _ _ _ _ eq_refl)).
  - vm_compute. reflexivity.
  - vm_compute. reflexivity.
  - vm_compute. reflexivity.
  - vm_compute. reflexivity.
Defined.

Lemma Drift_ComputeCommand_simulation_order_witness :
  triedBefore (deps (@Sort.Slice Candidate) unschedulable) tt
              (candidate "b" "default" 3 [web]) (candidate "a" "default" 5 [web]).
Proof.
  apply (Drift_ComputeCommand_simulation_order
           (deps (@Sort.Slice Candidate) unschedulable) (budgetOf "default" 1)
           [candidate "a" "default" 5 [web]; candidate "b" "default" 3 [web]] tt
           (deps_Slice_sorts unschedulable)
           [] (candidate "b" "default" 3 [web]) [] (candidate "a" "default" 5 [web]) []).
  vm_compute. reflexivity.
Defined.

Lemma Drift_ComputeCommand_untried_come_later_witness :
  triedBefore (deps (@Sort.Slice Candidate) schedules) tt
              (candidate "b" "default" 3 [web]) (candidate "a" "default" 5 [web]).
Proof.
  apply (Drift_ComputeCommand_untried_come_later
           (deps (@Sort.Slice Candidate) schedules) (budgetOf "default" 1)
           [candidate "a" "default" 5 [web]; candidate "b" "default" 3 [web]] tt
           (deps_Slice_permutes schedules) (deps_Slice_sorts schedules)).
  - vm_compute. left. reflexivity.
  - left. reflexivity.
  - vm_compute. reflexivity.
  - vm_compute. intros [H | []]. discriminate H.
Defined.

Lemma Drift_ComputeCommand_oldest_first_witness :
  driftedSince (candidate "b" "default" 3 []) <= driftedSince (candidate "a" "default" 5 []).
Proof.
  apply (Drift_ComputeCommand_oldest_first
           (deps (@Sort.Slice Candidate) schedules) (budgetOf "default" 2)
           [candidate "a" "default" 5 []; candidate "b" "default" 3 []] tt
           (deps_Slice_sorts schedules)
           [] (candidate "b" "default" 3 []) [] (candidate "a" "default" 5 []) []).
  vm_compute. reflexivity.
Defined.

Lemma Drift_ComputeCommand_budget_bounds_witness :
  let out := Drift_ComputeCommand (deps (@Sort.Slice Candidate) schedules)
                                  (budgetOf "default" 1)
                                  [candidate "a" "default" 5 []; candidate "b" "default" 3 []]
                                  tt in
  0 <= budget (budgets out) "default" Drift_Reason.
Proof.
  cbv zeta.
  apply (proj2 (Drift_ComputeCommand_budget_bounds
                  (deps (@Sort.Slice Candidate) schedules) (budgetOf "default" 1)
                  [candidate "a" "default" 5 []; candidate "b" "default" 3 []] tt
                  (budgetOf_ints "default" 1 (is_int_small 1 ltac:(lia)))) "default").
  rewrite budgetOf_budget. lia.
Defined.

Lemma Drift_ComputeCommand_without_simulation_witness :
  let out := Drift_ComputeCommand (deps (@Sort.Slice Candidate) schedules)
                                  (budgetOf "default" 0)
                                  [candidate "a" "default" 5 [web]] tt in
  effects out = [] /\ err out = None.
Proof.
  cbv zeta.
  destruct (Drift_ComputeCommand_without_simulation
              (deps (@Sort.Slice Candidate) schedules) (budgetOf "default" 0)
              [candidate "a" "default" 5 [web]] tt) as (He & _ & Herr & _).
  - vm_compute. reflexivity.
  - split; [exact He | exact Herr].
Defined.

Lemma Drift_ComputeCommand_published_witness :
  let D := deps (@Sort.Slice Candidate) unschedulable in
  let c := candidate "a" "default" 5 [web] in
  exists post,
    effects (Drift_ComputeCommand D (budgetOf "default" 1) [c] tt)
    = [] ++ [Simulated c;
             Published (blocked (SN_Node (Candidate_StateNode c)) (nodeClaimOf c)
                                "not all pods would schedule")] ++ post.
Proof.
  cbv zeta.
  refine (proj2 (Drift_ComputeCommand_published
                   (deps (@Sort.Slice Candidate) unschedulable) (budgetOf "default" 1)
                   [candidate "a" "default" 5 [web]] tt (deps_Slice_permutes unschedulable))
                [] (candidate "a" "default" 5 [web]) [] tt []
                {| NewNodeClaims := []; PodErrors := [(web, errorString "no instance type fits")] |}
                tt _ _ eq_refl _ eq_refl eq_refl).
  - vm_compute. reflexivity.
  - vm_compute. reflexivity.
  - vm_compute. discriminate.
Defined.

Lemma nominated_pods_round_trip_witness :
  fst (Lifecycle.InsufficientCapacityErrorEvents clusterWithWeb nominatedClaim "no capacity")
  = [Lifecycle.nodeClaimEvent clusterWithWeb nominatedClaim "no capacity";
     Lifecycle.podEvent webPod "" "any az" "no capacity"].
Proof.
  assert (Hplain : Forall Provisioning.plain (Pods replacement)).
  { repeat constructor. }
  assert (Hlen : (Provisioning.writtenLength (Pods replacement) <= 4096)%nat).
  { vm_compute. lia. }
  destruct (nominated_pods_round_trip clusterWithWeb replacement
              {| Provisioning.Annotations := None |} ∅ nominatedClaim "no capacity"
              Hplain Hlen eq_refl) as [_ ->].
  reflexivity.
Defined.

End FurtherSamples.
